(** * timestamp_channel: a storage covert channel in file timestamps

    Shallow embedding of [timestamp_channel.py] and the properties of its
    encode/decode engine: the decimal digit codec, the chunk planner with its
    index records, the mapping of 17-digit strings onto the sub-second fields
    of three timestamps, and the [hide] / [extract] orchestration.

    Python integers are [Z]; [bytes] / [bytearray] values are [list byte];
    [str] values are [string] (a path is held as its UTF-8 bytes, on which
    [split('.')] and [encode] / [decode] act as on the text); a raised
    exception is the [Err] case of [result]. *)

From Stdlib Require Import ZArith Lia List Bool Ascii String.
From Stdlib Require Import Strings.Byte.
From Stdlib Require Import Sorted Permutation Mergesort Orders.
Import ListNotations.

Local Open Scope string_scope.
Local Open Scope list_scope.
Local Open Scope Z_scope.

(* ================================================================= *)
(** ** Exceptions *)

(** The three [raise Exception(...)] sites of [hide] carry the values their
    message is formatted with; the others are the built-in exceptions the
    interpreter (or [reedsolo]) raises. *)
Inductive error : Type :=
| CapacityExceeded (limit need : Z)
    (* 'Can only store up to {} files worth of data, need {}' *)
| ChunkTooLarge (len : Z)
    (* 'Data too long: {}' *)
| InsufficientCarriers (need found : Z)
    (* 'Not enough files to store data. Need {}, found {}' *)
| IndexError
| ValueError
| OverflowError
| ReedSolomonError.

Inductive result (A : Type) : Type :=
| Ok (a : A)
| Err (e : error).
Arguments Ok {A} a.
Arguments Err {A} e.

Definition bind {A B : Type} (r : result A) (k : A -> result B) : result B :=
  match r with
  | Ok a => k a
  | Err e => Err e
  end.

Notation "x <- r ;; k" := (bind r (fun x => k))
  (at level 61, r at next level, right associativity).

(** An error is one of the messages [hide] formats itself (it names the
    constraint that was violated) or a bare built-in exception. *)
Definition names_constraint (e : error) : bool :=
  match e with
  | CapacityExceeded _ _ | ChunkTooLarge _ | InsufficientCarriers _ _ => true
  | _ => false
  end.

(* ================================================================= *)
(** ** Python built-ins used by the program *)

Definition len (s : string) : Z := Z.of_nat (String.length s).

(** *** [str(int)] *)

Definition digit_char (d : Z) : ascii :=
  match d with
  | 0 => "0" | 1 => "1" | 2 => "2" | 3 => "3" | 4 => "4"
  | 5 => "5" | 6 => "6" | 7 => "7" | 8 => "8" | _ => "9"
  end%char.

(** The value of a digit character, [ord(c) - ord('0')]. *)
Definition digit_value (c : ascii) : option Z :=
  let code := Z.of_N (N_of_ascii c) in
  if (48 <=? code) && (code <=? 57) then Some (code - 48) else None.

(** Digits are produced from the least significant one; [fuel] bounds the
    number of divisions by ten. *)
Fixpoint str_digits (fuel : nat) (n : Z) (acc : string) : string :=
  match fuel with
  | O => acc
  | S f =>
      let acc' := String (digit_char (n mod 10)) acc in
      if n <? 10 then acc' else str_digits f (n / 10) acc'
  end.

Definition str_fuel (n : Z) : nat := S (Z.to_nat (Z.log2 n)).

Definition str (n : Z) : string :=
  if n <? 0 then String "-"%char (str_digits (str_fuel (- n)) (- n) "")
  else str_digits (str_fuel n) n "".

(** *** [int(str)]: decimal digits only; anything else is a [ValueError]
    (signs, blanks and underscores never reach [int] in this program). *)

Fixpoint int_digits (s : string) (acc : Z) : result Z :=
  match s with
  | EmptyString => Ok acc
  | String c s' =>
      match digit_value c with
      | Some d => int_digits s' (acc * 10 + d)
      | None => Err ValueError
      end
  end.

Definition int (s : string) : result Z :=
  match s with
  | EmptyString => Err ValueError
  | _ => int_digits s 0
  end.

(** *** Slices [s[a:b]] and [s[a:]] *)

Definition slice (a b : nat) (s : string) : string := substring a (b - a) s.
Definition slice_from (a : nat) (s : string) : string :=
  substring a (String.length s - a) s.

(** *** [s * n] for a one-character string *)

Fixpoint string_repeat (c : ascii) (n : nat) : string :=
  match n with
  | O => EmptyString
  | S n' => String c (string_repeat c n')
  end.

(** *** [int.bit_length], [int.from_bytes(_, 'big')], [int.to_bytes(_, 'big')] *)

Definition bit_length (x : Z) : Z :=
  if x =? 0 then 0 else Z.log2 (Z.abs x) + 1.

Definition byte_val (b : byte) : Z := Z.of_N (Byte.to_N b).

Definition byte_of_Z (z : Z) : byte :=
  match Byte.of_N (Z.to_N (z mod 256)) with
  | Some b => b
  | None => x00
  end.

Definition from_bytes_big (xbytes : list byte) : Z :=
  fold_left (fun acc b => acc * 256 + byte_val b) xbytes 0.

Fixpoint to_bytes_digits (length : nat) (x : Z) : list byte :=
  match length with
  | O => []
  | S l => byte_of_Z (x / 256 ^ Z.of_nat l) :: to_bytes_digits l x
  end.

Definition to_bytes_big (x : Z) (length : nat) : result (list byte) :=
  if (x <? 0) || (256 ^ Z.of_nat length <=? x) then Err OverflowError
  else Ok (to_bytes_digits length x).

(* ================================================================= *)
(** ** Module-level helpers of [timestamp_channel.py] *)

(** [chunk_list(l, n)]: successive [n]-sized slices [l[i:i+n]]. *)
Fixpoint chunk_list_from {A : Type} (fuel : nat) (l : list A) (n : nat)
  : list (list A) :=
  match fuel with
  | O => []
  | S f =>
      match l with
      | [] => []
      | _ => firstn n l :: chunk_list_from f (skipn n l) n
      end
  end.

Definition chunk_list {A : Type} (l : list A) (n : nat) : list (list A) :=
  chunk_list_from (List.length l) l n.

(** [prepend_zeroes]: one ['0'] is put in front while the string is shorter
    than [n]. *)
Fixpoint prepend_zeroes_loop (k : nat) (num_string : string) : string :=
  match k with
  | O => num_string
  | S k' => prepend_zeroes_loop k' (String "0"%char num_string)
  end.

Definition prepend_zeroes (num_string : string) (n : nat) : string :=
  prepend_zeroes_loop (n - String.length num_string) num_string.

Definition int_to_bytes (x : Z) : result (list byte) :=
  to_bytes_big x (Z.to_nat ((bit_length x + 7) / 8)).

Definition int_from_bytes (xbytes : list byte) : Z := from_bytes_big xbytes.

(** [int('9'*digits)] *)
Definition nines (digits : nat) : Z :=
  match int (string_repeat "9"%char digits) with
  | Ok v => v
  | Err _ => 0
  end.

(** [int(int('9'*digits).bit_length() / 8)]: the quotient of a bit length by
    eight is exact in double precision, and [int] truncates it. *)
Definition int_byte_size (digits : nat) : Z :=
  bit_length (nines digits) / 8.

Definition DIGITS_FOR_INDEX : nat := 4.
Definition STORABLE_DIGITS_PER_FILE : nat := 17 - DIGITS_FOR_INDEX.
Definition STORABLE_BYTES_PER_FILE : nat :=
  Z.to_nat (int_byte_size (STORABLE_DIGITS_PER_FILE - 1)).
Definition ERROR_CORRECTING_BYTES : nat := 50.

(* ================================================================= *)
(** ** The error-correcting codec [reedsolo.RSCodec]

    [reedsolo] is a library the program imports.  Its encoder is a systematic
    Reed-Solomon code over GF(2^8) (primitive polynomial [0x11d], generator 2,
    first consecutive root 0): a message is cut into blocks of [255 - nsym]
    bytes and each block is followed by the [nsym] remainder bytes of its
    division by the generator polynomial.  Its decoder cuts the stream into
    blocks of 255 bytes, computes the [nsym] syndromes of each and, when they
    are all zero, returns the block without its last [nsym] bytes; the repair
    of a block with a non-zero syndrome is left to [correct_errata], about
    which nothing is assumed. *)
Module ReedSolo.

Definition prim : Z := 285.

(** [gf_mult_noLUT]: carry-less multiplication, reduced by [prim]. *)
Fixpoint gf_mul_loop (fuel : nat) (x y r : Z) : Z :=
  match fuel with
  | O => r
  | S f =>
      let r' := if Z.odd y then Z.lxor r x else r in
      let x2 := Z.shiftl x 1 in
      let x' := if 256 <=? x2 then Z.lxor x2 prim else x2 in
      gf_mul_loop f x' (Z.shiftr y 1) r'
  end.

Definition gf_mul (x y : Z) : Z := gf_mul_loop 8 x y 0.

Fixpoint gf_pow (x : Z) (power : nat) : Z :=
  match power with
  | O => 1
  | S p => gf_mul x (gf_pow x p)
  end.

(** Polynomials are lists of coefficients, highest degree first.
    [gf_poly_add_tail p q] adds [q] under the leading coefficients of [p]. *)
Fixpoint gf_poly_add_tail (p q : list Z) : list Z :=
  match p, q with
  | a :: p', b :: q' => Z.lxor a b :: gf_poly_add_tail p' q'
  | _, [] => p
  | [], _ => []
  end.

Definition gf_poly_scale (p : list Z) (x : Z) : list Z := map (gf_mul x) p.

(** Horner evaluation. *)
Definition gf_poly_eval (poly : list Z) (x : Z) : Z :=
  fold_left (fun y c => Z.lxor (gf_mul y x) c) poly 0.

(** [g * (X - root)], for a monic [g]. *)
Definition mul_linear (g : list Z) (root : Z) : list Z :=
  match g with
  | [] => []
  | c :: g' => c :: gf_poly_add_tail (g' ++ [0]) (gf_poly_scale g root)
  end.

Fixpoint rs_generator_poly (nsym : nat) : list Z :=
  match nsym with
  | O => [1]
  | S n => mul_linear (rs_generator_poly n) (gf_pow 2 n)
  end.

(** The division loop of [rs_encode_msg]: one step per message byte, the
    scaled tail of the generator being added under the leading coefficient. *)
Fixpoint divide (steps : nat) (msg_out gen_tail : list Z) : list Z :=
  match steps, msg_out with
  | S k, coef :: rest =>
      divide k (gf_poly_add_tail rest (gf_poly_scale gen_tail coef)) gen_tail
  | _, _ => msg_out
  end.

Definition rs_encode_msg (msg_in : list byte) (nsym : nat) : list byte :=
  let gen := rs_generator_poly nsym in
  let msg_out := map byte_val msg_in ++ repeat 0 nsym in
  msg_in ++ map byte_of_Z (divide (List.length msg_in) msg_out (tl gen)).

Definition rs_calc_syndromes (msg : list byte) (nsym : nat) : list Z :=
  map (fun i => gf_poly_eval (map byte_val msg) (gf_pow 2 i)) (seq 0 nsym).

Section Codec.

Variable nsym : nat.
Variable correct_errata : list byte -> result (list byte).

Definition encode (data : list byte) : list byte :=
  List.concat (map (fun chunk => rs_encode_msg chunk nsym)
                   (chunk_list data (255 - nsym))).

Definition rs_correct_msg (msg_in : list byte) : result (list byte) :=
  if forallb (Z.eqb 0) (rs_calc_syndromes msg_in nsym)
  then Ok (firstn (List.length msg_in - nsym) msg_in)
  else correct_errata msg_in.

Fixpoint decode_chunks (chunks : list (list byte)) : result (list byte) :=
  match chunks with
  | [] => Ok []
  | chunk :: rest =>
      dec <- rs_correct_msg chunk ;;
      more <- decode_chunks rest ;;
      Ok (dec ++ more)
  end.

Definition decode (data : list byte) : result (list byte) :=
  decode_chunks (chunk_list data 255).

End Codec.

(** A decoder that detects errors and gives up on them. *)
Definition detect_only (msg_in : list byte) : result (list byte) :=
  Err ReedSolomonError.

End ReedSolo.

(* ================================================================= *)
(** ** Carrier files *)

(** A [datetime] is kept as its whole-second part and its [microsecond]. *)
Record datetime : Type := mkdatetime {
  dt_second : Z;
  microsecond : Z
}.

(** One entry of [get_file_list]: the tuple
    [(ctimestamp, path, st_atime_ns, st_mtime_ns)]. *)
Record carrier : Type := mkcarrier {
  ctimestamp : datetime;
  path : string;
  atime_ns : Z;
  mtime_ns : Z
}.

(** [datetime.replace(microsecond=v)] *)
Definition replace_microsecond (t : datetime) (v : Z) : result datetime :=
  if (0 <=? v) && (v <=? 999999) then Ok (mkdatetime (dt_second t) v)
  else Err ValueError.

Fixpoint map_result {A B : Type} (f : A -> result B) (l : list A)
  : result (list B) :=
  match l with
  | [] => Ok []
  | a :: l' =>
      b <- f a ;;
      bs <- map_result f l' ;;
      Ok (b :: bs)
  end.

Definition dot : byte := "."%byte.

(** [str.split(sep)] for a one-character separator. *)
Fixpoint split (sep : ascii) (s : string) : list string :=
  match s with
  | EmptyString => [EmptyString]
  | String c s' =>
      if Ascii.eqb c sep then EmptyString :: split sep s'
      else match split sep s' with
           | h :: t => String c h :: t
           | [] => [String c EmptyString]
           end
  end.

(** [bytes.rsplit(sep, 1)]: cut at the last separator, if there is one. *)
Fixpoint rsplit_last (sep : byte) (l : list byte)
  : option (list byte * list byte) :=
  match l with
  | [] => None
  | b :: t =>
      match rsplit_last sep t with
      | Some (before, after) => Some (b :: before, after)
      | None => if Byte.eqb b sep then Some ([], t) else None
      end
  end.

Definition rsplit1 (sep : byte) (l : list byte) : list (list byte) :=
  match rsplit_last sep l with
  | Some (before, after) => [before; after]
  | None => [l]
  end.

(** [l[i]] *)
Definition index_list {A : Type} (l : list A) (i : nat) : result A :=
  match nth_error l i with
  | Some a => Ok a
  | None => Err IndexError
  end.

(** [sorted] on a list of strings: the order is the code-point order of
    [str], which [String.leb] is on byte strings. *)
Module StringOrder <: TotalLeBool.

Definition t := string.

Definition leb := String.leb.

Lemma leb_total : forall a1 a2, leb a1 a2 = true \/ leb a2 a1 = true.
Proof. exact String.leb_total. Qed.

End StringOrder.

Module StringSort := Sort StringOrder.

Definition sorted (l : list string) : list string := StringSort.sort l.

(* ================================================================= *)
(** ** [class CovertChannel] *)

(** [prepend_chunk]: index padded to 4 digits, data padded to 13. *)
Definition prepend_chunk (index_val data_val : string) : string :=
  let index := prepend_zeroes index_val DIGITS_FOR_INDEX in
  let data := prepend_zeroes data_val STORABLE_DIGITS_PER_FILE in
  index ++ data.

(** [pad_byte] (the same loop is inlined in [extract]). *)
Fixpoint pad_byte_loop (k : nat) (b : list byte) : list byte :=
  match k with
  | O => b
  | S k' => pad_byte_loop k' (x00 :: b)
  end.

Definition pad_byte (b : list byte) : list byte :=
  pad_byte_loop (STORABLE_BYTES_PER_FILE - List.length b) b.

(** The padding loop of [hide]: a zero byte is put in front while the length
    is not a multiple of the chunk size; it runs fewer times than the chunk
    size. *)
Fixpoint pad_front_loop (fuel : nat) (encoded_data : list byte) : list byte :=
  match fuel with
  | O => encoded_data
  | S f =>
      if Z.of_nat (List.length encoded_data) mod Z.of_nat STORABLE_BYTES_PER_FILE =? 0
      then encoded_data
      else pad_front_loop f (x00 :: encoded_data)
  end.

Definition pad_front (encoded_data : list byte) : list byte :=
  pad_front_loop STORABLE_BYTES_PER_FILE encoded_data.

(** The largest index put on a data record, [int('9'*DIGITS_FOR_INDEX) - 1]. *)
Definition INDEX_LIMIT : Z := nines DIGITS_FOR_INDEX - 1.

(** The planning loop of [hide] over [data_chunks]; the state is
    [(index, remaining_chunks, int_str_chunks)]. *)
Fixpoint plan_loop (data_chunks : list (list byte)) (index remaining_chunks : Z)
  (int_str_chunks : list string) : result (list string) :=
  match data_chunks with
  | [] => Ok int_str_chunks
  | c :: rest =>
      let s := str (int_from_bytes c) in
      if len s >? Z.of_nat STORABLE_DIGITS_PER_FILE then Err (ChunkTooLarge (len s))
      else if (index =? 0) || (index =? INDEX_LIMIT) then
        let index_string := prepend_chunk (str 0) (str remaining_chunks) in
        plan_loop rest (1 + 1) (remaining_chunks - INDEX_LIMIT)
          (int_str_chunks ++ [index_string] ++ [prepend_chunk (str 1) s])
      else
        plan_loop rest (index + 1) remaining_chunks
          (int_str_chunks ++ [prepend_chunk (str index) s])
  end.

(** From the padded stream to the digit strings: chunking, the global
    capacity check, the loop. *)
Definition plan (encoded_data : list byte) : result (list string) :=
  let data_chunks := chunk_list encoded_data STORABLE_BYTES_PER_FILE in
  let remaining_chunks := Z.of_nat (List.length data_chunks) in
  if remaining_chunks >? INDEX_LIMIT
  then Err (CapacityExceeded INDEX_LIMIT remaining_chunks)
  else plan_loop data_chunks 0 remaining_chunks [].

(** The extraction loop over the sorted digit strings; the state is
    [(found_start, files_remaining, encoded_data)] ([next_index] and
    [files_captured] are only counted and printed). *)
Fixpoint scan (strings : list string) (found_start : bool) (files_remaining : Z)
  (encoded_data : list byte) : result (list byte) :=
  match strings with
  | [] => Ok encoded_data
  | string :: rest =>
      index <- int (slice 0 DIGITS_FOR_INDEX string) ;;
      if negb (index =? 0) then
        if negb found_start then scan rest found_start files_remaining encoded_data
        else if files_remaining >? 0 then
          value <- int (slice_from DIGITS_FOR_INDEX string) ;;
          byte <- int_to_bytes value ;;
          scan rest found_start (files_remaining - 1)
            (encoded_data ++ pad_byte byte)
        else Ok encoded_data
      else
        value <- int (slice_from DIGITS_FOR_INDEX string) ;;
        scan rest true value encoded_data
  end.

(** [while bytes(encoded_data)[0] == 0: encoded_data = encoded_data[1:]] *)
Fixpoint trim (encoded_data : list byte) : result (list byte) :=
  match encoded_data with
  | [] => Err IndexError
  | b :: rest => if Byte.eqb b x00 then trim rest else Ok encoded_data
  end.

Section Channel.

(** [math.floor(value / 1000000000)]: the quotient is a double, so for a
    timestamp in nanoseconds it can be rounded; nothing is assumed of it. *)
Variable floor_giga : Z -> Z.

(** [reedsolo.RSCodec(ERROR_CORRECTING_BYTES).encode] and [.decode]. *)
Variable rs_encode : list byte -> list byte.
Variable rs_decode : list byte -> result (list byte).

Definition floor_billionths (value : Z) : Z := floor_giga value * 1000000000.

(** The baseline pass of [hide] on one file. *)
Definition reset_file (file : carrier) : result carrier :=
  ctime <- replace_microsecond (ctimestamp file) 999999 ;;
  let new_atime_ns := floor_billionths (atime_ns file) + 9999999 * 100 in
  let new_mtime_ns := floor_billionths (mtime_ns file) + 9999999 * 100 in
  Ok (mkcarrier ctime (path file) new_atime_ns new_mtime_ns).

(** The body of the writing loop of [hide]: [file] is the entry listed
    before the baseline pass. *)
Definition write_file (file : carrier) (c : string) : result carrier :=
  ms <- int (slice 0 3 c) ;;
  let new_ctime := ms * 1000 in
  a <- int (slice 3 10 c) ;;
  let new_atime_ns := floor_billionths (atime_ns file) + a * 100 in
  m <- int (slice 10 17 c) ;;
  let new_mtime_ns := floor_billionths (mtime_ns file) + m * 100 in
  ctime <- replace_microsecond (ctimestamp file) new_ctime ;;
  Ok (mkcarrier ctime (path file) new_atime_ns new_mtime_ns).

(** The writing loop: [files.pop(0)] for each planned string. *)
Fixpoint write_all (files : list carrier) (int_str_chunks : list string)
  {struct int_str_chunks} : result (list carrier) :=
  match int_str_chunks with
  | [] => Ok []
  | c :: cs =>
      match files with
      | [] => Err IndexError
      | file :: files' =>
          w <- write_file file c ;;
          ws <- write_all files' cs ;;
          Ok (w :: ws)
      end
  end.

(** [hide] from the error-corrected stream on: [files] is the listing of
    the storage directory, [offset] the value drawn by
    [random.randint(0, len(files) - len(int_str_chunks))]; the result is
    the directory after the run, in the order of the listing. *)
Definition hide_encoded (files : list carrier) (encoded : list byte)
  (offset : nat) : result (list carrier) :=
  int_str_chunks <- plan (pad_front encoded) ;;
  if (List.length files <? List.length int_str_chunks)%nat
  then Err (InsufficientCarriers (Z.of_nat (List.length int_str_chunks))
                                 (Z.of_nat (List.length files)))
  else
    baseline <- map_result reset_file files ;;
    written <- write_all (skipn offset files) int_str_chunks ;;
    Ok (firstn offset baseline ++ written
        ++ skipn (offset + List.length int_str_chunks) baseline).

(** The extension [hide] embeds: [input_path.split('.')[-1]]. *)
Definition extension (input_path : string) : string :=
  last (split "."%char input_path) EmptyString.

(** [file_data + b'.' + str.encode(extension)] *)
Definition frame (file_data : list byte) (input_path : string) : list byte :=
  file_data ++ [dot] ++ list_byte_of_string (extension input_path).

Definition hide (files : list carrier) (file_data : list byte)
  (input_path : string) (offset : nat) : result (list carrier) :=
  hide_encoded files (rs_encode (frame file_data input_path)) offset.

(** [get_encoded_int_string] on one file, and on the listing.  The
    quotients [microsecond / 1000] and [(ns % 1000000000) / 100] are exact
    in double precision at these sizes; [int] truncates them. *)
Definition read_file (file : carrier) : string :=
  let ctime_str_val :=
    prepend_zeroes (str (Z.quot (microsecond (ctimestamp file)) 1000)) 3 in
  let atime_str_val :=
    prepend_zeroes (str (Z.quot (atime_ns file mod 1000000000) 100)) 7 in
  let mtime_str_val :=
    prepend_zeroes (str (Z.quot (mtime_ns file mod 1000000000) 100)) 7 in
  ctime_str_val ++ atime_str_val ++ mtime_str_val.

Definition get_encoded_int_string (files : list carrier) : list string :=
  map read_file files.

(** The reassembly of [extract]: sort, scan, trim. *)
Definition reassemble (encoded_int_strings : list string)
  : result (list byte) :=
  encoded_data <- scan (sorted encoded_int_strings) false 0 [] ;;
  trim encoded_data.

(** [extract]: the name of the file written and the bytes written to it.
    A [str] is held as its UTF-8 bytes, so that [str.encode] and, on the
    bytes of a [str], [ext.decode("utf-8")] leave the bytes as they are. *)
Definition extract (files : list carrier) (output_path : string)
  : result (string * list byte) :=
  encoded_data <- reassemble (get_encoded_int_string files) ;;
  decoded_message <- rs_decode encoded_data ;;
  let message_and_data := rsplit1 dot decoded_message in
  message <- index_list message_and_data 0 ;;
  ext <- index_list message_and_data 1 ;;
  Ok ((output_path ++ "." ++ string_of_list_byte ext)%string, message).

End Channel.

(** The program as it runs: the codec is [RSCodec(50)]; the runs evaluated
    below stay on the zero-syndrome path of the decoder.  [exact_floor_giga]
    is the quotient without rounding. *)
Definition rs50_encode : list byte -> list byte :=
  ReedSolo.encode ERROR_CORRECTING_BYTES.

Definition rs50_decode : list byte -> result (list byte) :=
  ReedSolo.decode ERROR_CORRECTING_BYTES ReedSolo.detect_only.

Definition exact_floor_giga (value : Z) : Z := value / 1000000000.

(* ================================================================= *)
(** ** Vocabulary of the statements *)

(** *** Digit strings *)

(** [render w n]: the [w] low decimal digits of [n], most significant first.
    It is the reference against which [str], [int] and [prepend_zeroes] are
    specified. *)
Fixpoint render (w : nat) (n : Z) : string :=
  match w with
  | O => EmptyString
  | S w' => String (digit_char ((n / 10 ^ Z.of_nat w') mod 10)) (render w' n)
  end.

(** Strings made of decimal digits only, and the number they write. *)
Fixpoint is_digits (s : string) : bool :=
  match s with
  | EmptyString => true
  | String c s' =>
      match digit_value c with
      | Some _ => is_digits s'
      | None => false
      end
  end.

Fixpoint digits_value (s : string) : Z :=
  match s with
  | EmptyString => 0
  | String c s' =>
      match digit_value c with
      | Some d => d * 10 ^ Z.of_nat (String.length s') + digits_value s'
      | None => 0
      end
  end.

(** A 17-digit string. *)
Definition digits17 (s : string) : Prop :=
  exists v : Z, 0 <= v < 10 ^ 17 /\ s = render 17 v.

Fixpoint has_char (sep : ascii) (s : string) : bool :=
  match s with
  | EmptyString => false
  | String c s' => Ascii.eqb c sep || has_char sep s'
  end.

(** The order of [sorted], and its strict part. *)
Definition leb_rel (s t : string) : Prop := is_true (String.leb s t).

Definition str_lt (s t : string) : Prop := String.compare s t = Lt.

(** *** The digit codec *)

(** The data field [hide] writes for a chunk (lines 170 and 183, through
    [prepend_chunk]), and what [extract] makes of a data field (lines 282
    to 289). *)
Definition bytes_to_decimal (b : list byte) (width : nat) : string :=
  prepend_zeroes (str (int_from_bytes b)) width.

Definition decimal_to_bytes (s : string) : result (list byte) :=
  value <- int s ;;
  byte <- int_to_bytes value ;;
  Ok (pad_byte byte).

(** Every value of [c] bytes has at most [digits] decimal digits; [c] is the
    largest such byte count. *)
Definition range_fits (c digits : nat) : Prop :=
  forall v : Z, 0 <= v <= 256 ^ Z.of_nat c - 1 -> len (str v) <= Z.of_nat digits.

Definition largest_fitting (c digits : nat) : Prop :=
  range_fits c digits /\ forall c' : nat, range_fits c' digits -> (c' <= c)%nat.

(** *** Planned strings *)

(** A digit string: the index field, then the data field. *)
Definition record (index value : Z) : string :=
  (render 4 index ++ render 13 value)%string.

(** What a carrier reads after the baseline pass. *)
Definition all_nines : string := "99999999999999999".

(** The data records of a run of chunks, numbered from [index] on. *)
Fixpoint data_records (index : Z) (chunks : list (list byte)) : list string :=
  match chunks with
  | [] => []
  | c :: rest => record index (int_from_bytes c) :: data_records (index + 1) rest
  end.

(** A data record holding the value of at most five bytes. *)
Definition valid_data (s : string) : Prop :=
  exists i v : Z, s = record i v /\ 1 <= i < 10 ^ 4 /\ 0 <= v < 256 ^ 5.

(** What is known of every planned digit string: seventeen digits with an
    index field of at most 9997. *)
Definition payload_string (s : string) : Prop :=
  exists i v : Z, s = record i v /\ 0 <= i <= 9997 /\ 0 <= v < 10 ^ 13.

(** The bytes [extract] takes from a data record. *)
Definition payload_of (s : string) : list byte :=
  match decimal_to_bytes (slice_from DIGITS_FOR_INDEX s) with
  | Ok b => b
  | Err _ => []
  end.

(** The number [N] of data chunks of an error-corrected stream. *)
Definition chunk_count (encoded : list byte) : nat :=
  List.length (chunk_list (pad_front encoded) STORABLE_BYTES_PER_FILE).

(** The shape of the list [plan] returns for a list of five-byte chunks:
    nothing for no chunk; one index record and the numbered chunks up to
    9997 chunks; at 9998 chunks a second index record before the last
    chunk. *)
Inductive plan_shape (chunks : list (list byte)) : list string -> Prop :=
| shape_empty :
    chunks = [] -> plan_shape chunks []
| shape_single :
    1 <= Z.of_nat (List.length chunks) <= 9997 ->
    plan_shape chunks
      (record 0 (Z.of_nat (List.length chunks)) :: data_records 1 chunks)
| shape_full (front : list (list byte)) (d : list byte) :
    chunks = front ++ [d] -> Z.of_nat (List.length front) = 9997 ->
    plan_shape chunks
      (record 0 9998 :: data_records 1 front
         ++ [record 0 0; record 1 (int_from_bytes d)]).

(** The number of digit strings planned for [n] chunks. *)
Definition planned_count (n : Z) : Z :=
  if n =? 0 then 0 else if n =? 9998 then n + 2 else n + 1.

(** The number of carriers the capacity bound asks for:
    [N + ceil(N / (10^I - 2))]. *)
Definition claimed_carriers (n : Z) : Z :=
  n + (n + INDEX_LIMIT - 1) / INDEX_LIMIT.

(** A carrier that does not read as an index record. *)
Definition no_index_record (file : carrier) : Prop :=
  exists i : Z,
    int (slice 0 DIGITS_FOR_INDEX (read_file file)) = Ok i /\ i <> 0.

(** *** Sample runs *)

(** A sixteen-byte message with its known ten parity bytes. *)
Definition known_message : list Z :=
  [64; 210; 117; 71; 118; 23; 50; 6; 39; 38; 150; 198; 198; 150; 112; 236].

Definition known_parity : list Z :=
  [188; 42; 144; 19; 107; 175; 239; 253; 75; 224].

Definition sample_carrier : carrier :=
  mkcarrier (mkdatetime 1700000000 123456) "storage/a.txt"
    1700000000123456700 1700000000987654300.

Definition sample_pool (n : nat) : list carrier := repeat sample_carrier n.

(** A three-byte payload hidden in twenty carriers, from the third one on. *)
Definition sample_plan : list string :=
  match plan (pad_front (rs50_encode (frame [x01; x02; x03] "dir/x.bin"))) with
  | Ok planned => planned
  | Err _ => []
  end.

Definition sample_store : list carrier :=
  match hide exact_floor_giga rs50_encode (sample_pool 20) [x01; x02; x03]
          "dir/x.bin" 2 with
  | Ok store => store
  | Err _ => []
  end.

(** A payload of 40177 bytes and a pool of 20000 carriers; a stream of
    49990 bytes, that is 9998 chunks. *)
Definition large_payload : list byte := repeat x01 (Z.to_nat 40177).

Definition large_pool : list carrier := sample_pool (Z.to_nat 20000).

Definition full_stream : list byte := repeat x01 (Z.to_nat 49990).

(** *** Further vocabulary *)

(** A byte sequence without its leading zero bytes. *)
Fixpoint lstrip_zeros (l : list byte) : list byte :=
  match l with
  | [] => []
  | b :: t => if Byte.eqb b x00 then lstrip_zeros t else l
  end.

(** What [hide] never changes of a carrier: its path and the whole-second
    part of its creation time. *)
Definition same_identity (f g : carrier) : Prop :=
  path g = path f /\ dt_second (ctimestamp g) = dt_second (ctimestamp f).

(** What [hide] leaves of the access and modification times of a carrier
    at which the floor is exact: their whole seconds. *)
Definition same_seconds (f g : carrier) : Prop :=
  atime_ns g / 1000000000 = atime_ns f / 1000000000
  /\ mtime_ns g / 1000000000 = mtime_ns f / 1000000000.

(** [math.floor(value / 1000000000)] gives the whole seconds of both times
    of the carrier: the double quotient was not rounded up to the next
    integer. *)
Definition floor_exact_at (floor_giga : Z -> Z) (f : carrier) : Prop :=
  floor_giga (atime_ns f) = atime_ns f / 1000000000
  /\ floor_giga (mtime_ns f) = mtime_ns f / 1000000000.

(** *** [math.floor(a / b)] as the program computes it *)

(** The integer nearest to [n / d], a tie going to the even one
    ([0 <= n], [0 < d]). *)
Definition round_half_even (n d : Z) : Z :=
  let q := n / d in
  let r := n mod d in
  if 2 * r <? d then q
  else if d <? 2 * r then q + 1
  else if Z.even q then q
  else q + 1.

(** [d * 2^e <= n], for an exponent of either sign. *)
Definition scaled_le (d n e : Z) : bool :=
  if 0 <=? e then d * 2 ^ e <=? n else d <=? n * 2 ^ (- e).

(** [a / b] of two ints is the double nearest to the quotient, ties to
    even: a mantissa [m] of 53 bits and a scale [s], standing for
    [m * 2^-s]; [math.floor] of it is exact.  [0 < b]; the quotient is
    taken within the range of normal doubles, as that of a timestamp in
    nanoseconds is. *)
Definition true_divide_floor (a b : Z) : Z :=
  if a =? 0 then 0
  else
    let n := Z.abs a in
    let e0 := Z.log2 n - Z.log2 b in
    let e := if scaled_le b n e0 then e0 else e0 - 1 in
    let s := 52 - e in
    let m := if 0 <=? s then round_half_even (n * 2 ^ s) b
             else round_half_even n (b * 2 ^ (- s)) in
    if 0 <=? s then (Z.sgn a * m) / 2 ^ s else Z.sgn a * m * 2 ^ (- s).

(** The floor of [floor_billionths] in the program. *)
Definition float_floor_giga (value : Z) : Z :=
  true_divide_floor value 1000000000.

(** *** [bytes.decode("utf-8")] *)

(** A continuation byte. *)
Definition utf8_tail (v : Z) : bool := (128 <=? v) && (v <=? 191).

(** The range of the second byte after the lead byte [v0] of a sequence of
    three or four bytes: no overlong form, no surrogate, nothing above
    U+10FFFF. *)
Definition utf8_second (v0 v1 : Z) : bool :=
  if v0 =? 224 then (160 <=? v1) && (v1 <=? 191)
  else if v0 =? 237 then (128 <=? v1) && (v1 <=? 159)
  else if v0 =? 240 then (144 <=? v1) && (v1 <=? 191)
  else if v0 =? 244 then (128 <=? v1) && (v1 <=? 143)
  else utf8_tail v1.

(** The byte sequences the strict decoder accepts; on the others
    [ext.decode("utf-8")] raises [UnicodeDecodeError]. *)
Fixpoint valid_utf8 (l : list byte) : bool :=
  match l with
  | [] => true
  | b0 :: t0 =>
      let v0 := byte_val b0 in
      if v0 <? 128 then valid_utf8 t0
      else
        match t0 with
        | [] => false
        | b1 :: t1 =>
            let v1 := byte_val b1 in
            if (194 <=? v0) && (v0 <=? 223) then utf8_tail v1 && valid_utf8 t1
            else
              match t1 with
              | [] => false
              | b2 :: t2 =>
                  let v2 := byte_val b2 in
                  if (224 <=? v0) && (v0 <=? 239) then
                    utf8_second v0 v1 && utf8_tail v2 && valid_utf8 t2
                  else
                    match t2 with
                    | [] => false
                    | b3 :: t3 =>
                        if (240 <=? v0) && (v0 <=? 244) then
                          utf8_second v0 v1 && utf8_tail v2
                          && utf8_tail (byte_val b3) && valid_utf8 t3
                        else false
                    end
              end
        end
  end.

(** A stream that [hide_encoded] is given without the frame of [hide]: its
    message holds no ['.']. *)
Definition bare_store : list carrier :=
  match hide_encoded exact_floor_giga (sample_pool 13)
          (rs50_encode [x01; x02; x03]) 1 with
  | Ok store => store
  | Err _ => []
  end.

(** A payload and a path that both hold dots. *)
Definition dotted_store : list carrier :=
  match hide exact_floor_giga rs50_encode (sample_pool 14)
          [x2e; x01; x2e] "dir.d/x.tar.gz" 0 with
  | Ok store => store
  | Err _ => []
  end.

(* ================================================================= *)
(** ** [get_file_list] *)

(** An entry of [os.listdir] with its [os.stat]: whether [S_ISREG] holds of
    its mode, and the tuple [(ctime, path, st_atime_ns, st_mtime_ns)] the
    listing keeps of it. *)
Record entry : Type := mkentry {
  is_regular : bool;
  listed : carrier
}.

(** The comparison of two tuples: the first components that differ
    decide. *)
Definition lex (c1 c2 : comparison) : comparison :=
  match c1 with
  | Eq => c2
  | _ => c1
  end.

Definition datetime_compare (d1 d2 : datetime) : comparison :=
  lex (dt_second d1 ?= dt_second d2) (microsecond d1 ?= microsecond d2).

Definition carrier_compare (f g : carrier) : comparison :=
  lex (datetime_compare (ctimestamp f) (ctimestamp g))
    (lex (String.compare (path f) (path g))
       (lex (atime_ns f ?= atime_ns g) (mtime_ns f ?= mtime_ns g))).

Definition carrier_leb (f g : carrier) : bool :=
  match carrier_compare f g with
  | Gt => false
  | _ => true
  end.

Lemma carrier_leb_total (f g : carrier) :
  carrier_leb f g = true \/ carrier_leb g f = true.
Proof.
  unfold carrier_leb, carrier_compare, datetime_compare.
  rewrite (Z.compare_antisym (dt_second (ctimestamp f))),
    (Z.compare_antisym (microsecond (ctimestamp f))),
    (String.compare_antisym (path g)),
    (Z.compare_antisym (atime_ns f)), (Z.compare_antisym (mtime_ns f)).
  destruct (dt_second (ctimestamp f) ?= dt_second (ctimestamp g)); cbn; auto.
  destruct (microsecond (ctimestamp f) ?= microsecond (ctimestamp g)); cbn; auto.
  destruct (String.compare (path f) (path g)); cbn; auto.
  destruct (atime_ns f ?= atime_ns g); cbn; auto.
  destruct (mtime_ns f ?= mtime_ns g); cbn; auto.
Qed.

Module CarrierOrder <: TotalLeBool.

Definition t := carrier.

Definition leb := carrier_leb.

Definition leb_total : forall a1 a2, leb a1 a2 = true \/ leb a2 a1 = true :=
  carrier_leb_total.

End CarrierOrder.

Module CarrierSort := Sort CarrierOrder.

(** [get_file_list]: the regular files of the directory, sorted as
    tuples. *)
Definition get_file_list (entries : list entry) : list carrier :=
  CarrierSort.sort (map listed (filter is_regular entries)).

(** Creation times in ascending order. *)
Definition ctime_le (f g : carrier) : Prop :=
  datetime_compare (ctimestamp f) (ctimestamp g) <> Gt.

(* ================================================================= *)
(** ** The command line *)

Module Cli.

(** The namespace [parse_args] returns: every option defaults to [None]. *)
Record namespace : Type := mknamespace {
  storage_path : option string;
  input_path : option string;
  output_path : option string
}.

(** What a run does after parsing: it calls [hide] or [extract], leaves by
    [exit(0)] after the help text, or raises the exception of the last
    branch. *)
Inductive run : Type :=
| CallHide (storage : option string) (input : string)
| CallExtract (storage : option string) (output : string)
| SystemExit
| InvalidArguments.

(** [arguments], after [parse_args]: [None] stands for [exit(0)]. *)
Definition arguments (args : namespace) : option namespace :=
  match storage_path args with
  | None => None
  | Some _ =>
      match input_path args, output_path args with
      | None, None => None
      | _, _ => Some args
      end
  end.

(** The main block; [SystemExit] is no [Exception] and is not caught. *)
Definition main (parsed : namespace) : run :=
  match arguments parsed with
  | None => SystemExit
  | Some args =>
      match input_path args with
      | Some input => CallHide (storage_path args) input
      | None =>
          match output_path args with
          | Some output => CallExtract (storage_path args) output
          | None => InvalidArguments
          end
      end
  end.

End Cli.

(* ================================================================= *)
(** ** Decimal strings of fixed width *)

Lemma pow10_pos (w : nat) : 0 < 10 ^ Z.of_nat w.
Proof. apply Z.pow_pos_nonneg; lia. Qed.

Lemma pow10_S (w : nat) : 10 ^ Z.of_nat (S w) = 10 * 10 ^ Z.of_nat w.
Proof. rewrite Nat2Z.inj_succ, Z.pow_succ_r; lia. Qed.

Lemma pow10_add (a b : nat) :
  10 ^ Z.of_nat (a + b) = 10 ^ Z.of_nat a * 10 ^ Z.of_nat b.
Proof. rewrite Nat2Z.inj_add, Z.pow_add_r; lia. Qed.

Lemma length_render (w : nat) (n : Z) : String.length (render w n) = w.
Proof. induction w; simpl; congruence. Qed.

Lemma digit_value_char (d : Z) :
  0 <= d <= 9 -> digit_value (digit_char d) = Some d.
Proof.
  intros H.
  assert (d = 0 \/ d = 1 \/ d = 2 \/ d = 3 \/ d = 4 \/ d = 5 \/ d = 6
          \/ d = 7 \/ d = 8 \/ d = 9) as Hd by lia.
  repeat (destruct Hd as [-> | Hd]; [reflexivity |]); subst; reflexivity.
Qed.

Lemma digit_char_value (c : ascii) (d : Z) :
  digit_value c = Some d -> digit_char d = c /\ 0 <= d <= 9.
Proof.
  destruct c as [[] [] [] [] [] [] [] []]; intros H; vm_compute in H;
    try discriminate; injection H as <-; split; (reflexivity || lia).
Qed.

Lemma digit_char_compare (a b : Z) :
  0 <= a <= 9 -> 0 <= b <= 9 ->
  Ascii.compare (digit_char a) (digit_char b) = Z.compare a b.
Proof.
  intros Ha Hb.
  assert (a = 0 \/ a = 1 \/ a = 2 \/ a = 3 \/ a = 4 \/ a = 5 \/ a = 6
          \/ a = 7 \/ a = 8 \/ a = 9) as Ea by lia.
  assert (b = 0 \/ b = 1 \/ b = 2 \/ b = 3 \/ b = 4 \/ b = 5 \/ b = 6
          \/ b = 7 \/ b = 8 \/ b = 9) as Eb by lia.
  clear Ha Hb.
  repeat (destruct Ea as [-> | Ea]);
    repeat (destruct Eb as [-> | Eb]); subst; reflexivity.
Qed.

(** [render] reads its argument modulo [10 ^ w]. *)
Lemma render_mod (w : nat) (n : Z) : render w (n mod 10 ^ Z.of_nat w) = render w n.
Proof.
  revert n. induction w as [| w IH]; intros n; [reflexivity |].
  cbn [render]. rewrite pow10_S.
  pose proof (pow10_pos w) as Hp.
  set (p := 10 ^ Z.of_nat w) in *.
  assert (n mod (10 * p) = n mod p + p * ((n / p) mod 10)) as E
    by (rewrite (Z.mul_comm 10 p); apply Z.rem_mul_r; lia).
  pose proof (Z.mod_pos_bound n p Hp) as Hr.
  pose proof (Z.mod_pos_bound (n / p) 10 ltac:(lia)) as Hq.
  rewrite E. f_equal.
  - f_equal.
    rewrite <- (Z.div_unique (n mod p + p * ((n / p) mod 10)) p
                  ((n / p) mod 10) (n mod p)) by (auto; lia).
    apply Z.mod_mod; lia.
  - rewrite <- (IH (n mod p + _)), <- (IH n). f_equal.
    symmetry. apply (Z.mod_unique _ _ ((n / p) mod 10)); [left; lia | lia].
Qed.

Lemma render_congr (w : nat) (a b : Z) :
  a mod 10 ^ Z.of_nat w = b mod 10 ^ Z.of_nat w -> render w a = render w b.
Proof. intros H. rewrite <- (render_mod w a), <- (render_mod w b), H. reflexivity. Qed.

(** The last digit, as [str] produces it. *)
Lemma render_snoc (w : nat) (n : Z) :
  render (S w) n = (render w (n / 10) ++ String (digit_char (n mod 10)) "")%string.
Proof.
  revert n. induction w as [| w IH]; intros n.
  - cbn. rewrite Z.div_1_r. reflexivity.
  - change (render (S (S w)) n)
      with (String (digit_char ((n / 10 ^ Z.of_nat (S w)) mod 10)) (render (S w) n)).
    rewrite IH. cbn [render String.append]. f_equal. f_equal. f_equal.
    rewrite pow10_S, Z.div_div by (pose proof (pow10_pos w); lia).
    reflexivity.
Qed.

Lemma append_assoc (a b c : string) : ((a ++ b) ++ c = a ++ (b ++ c))%string.
Proof. induction a; simpl; congruence. Qed.

Lemma append_nil_r (a : string) : (a ++ "")%string = a.
Proof. induction a; simpl; congruence. Qed.

Lemma length_append (a b : string) :
  String.length (a ++ b) = (String.length a + String.length b)%nat.
Proof. induction a; simpl; congruence. Qed.

Lemma str_digits_render (k : nat) :
  forall (fuel : nat) (n : Z) (acc : string),
    (k < fuel)%nat -> 0 <= n < 10 ^ Z.of_nat (S k) ->
    (k = O \/ 10 ^ Z.of_nat k <= n) ->
    str_digits fuel n acc = (render (S k) n ++ acc)%string.
Proof.
  induction k as [| k IH]; intros fuel n acc Hf Hn Hk.
  - destruct fuel as [| f]; [lia |]. cbn [str_digits].
    change (10 ^ Z.of_nat 1) with 10 in Hn.
    destruct (Z.ltb_spec n 10); [| lia].
    cbn. rewrite Z.div_1_r. reflexivity.
  - destruct fuel as [| f]; [lia |]. cbn [str_digits].
    destruct Hk as [Hk | Hk]; [discriminate |].
    rewrite pow10_S in Hk. pose proof (pow10_pos k) as Hp.
    destruct (Z.ltb_spec n 10); [lia |].
    rewrite (IH f (n / 10)).
    + rewrite (render_snoc (S k) n), append_assoc. reflexivity.
    + lia.
    + rewrite (pow10_S (S k)) in Hn. split.
      * apply Z.div_pos; lia.
      * apply Z.div_lt_upper_bound; lia.
    + right. apply Z.div_le_lower_bound; lia.
Qed.

Lemma digit_count (m : nat) (n : Z) :
  0 <= n < 10 ^ Z.of_nat (S m) ->
  exists k, (k <= m)%nat /\ n < 10 ^ Z.of_nat (S k)
            /\ (k = O \/ 10 ^ Z.of_nat k <= n).
Proof.
  induction m as [| m IH]; intros Hn.
  - exists O. repeat split; auto.  lia.
  - destruct (Z.lt_ge_cases n (10 ^ Z.of_nat (S m))) as [Hlt | Hge].
    + destruct IH as (k & Hk & H1 & H2); [lia |].
      exists k. repeat split; auto.
    + exists (S m). repeat split; auto. lia.
Qed.

Lemma pow2_le_pow10 (k : nat) : 2 ^ Z.of_nat k <= 10 ^ Z.of_nat k.
Proof. apply Z.pow_le_mono_l; lia. Qed.

Lemma str_render (n : Z) :
  0 <= n ->
  exists k, str n = render (S k) n /\ n < 10 ^ Z.of_nat (S k)
            /\ (k = O \/ 10 ^ Z.of_nat k <= n).
Proof.
  intros Hn.
  assert (n < 10 ^ Z.of_nat (S (Z.to_nat (Z.log2 n)))) as Hb.
  { destruct (Z.eq_dec n 0) as [-> | Hz]; [reflexivity |].
    eapply Z.lt_le_trans; [| apply pow2_le_pow10].
    rewrite Nat2Z.inj_succ, Z2Nat.id by apply Z.log2_nonneg.
    apply Z.log2_spec. lia. }
  destruct (digit_count _ n (conj Hn Hb)) as (k & Hk & H1 & H2).
  exists k. repeat split; auto.
  unfold str. destruct (Z.ltb_spec n 0); [lia |].
  rewrite (str_digits_render k) by (unfold str_fuel; lia || auto).
  apply append_nil_r.
Qed.

(** [len(str(n)) <= d] exactly when [n] has at most [d] digits. *)
Lemma len_str_le (n : Z) (d : nat) :
  0 <= n -> (1 <= d)%nat ->
  (len (str n) <= Z.of_nat d <-> n < 10 ^ Z.of_nat d).
Proof.
  intros Hn Hd. destruct (str_render n Hn) as (k & -> & H1 & H2).
  unfold len. rewrite length_render. split; intros H.
  - eapply Z.lt_le_trans; [exact H1 |].
    apply Z.pow_le_mono_r; lia.
  - destruct H2 as [-> | H2]; [lia |].
    assert (Z.of_nat k < Z.of_nat d); [| lia].
    apply (Z.pow_lt_mono_r_iff 10); lia.
Qed.

Lemma string_repeat_append_render (k w : nat) (n : Z) :
  0 <= n < 10 ^ Z.of_nat w ->
  render (k + w) n = (string_repeat "0"%char k ++ render w n)%string.
Proof.
  intros Hn. induction k as [| k IH]; [reflexivity |].
  cbn [Nat.add render string_repeat String.append]. rewrite IH. f_equal.
  rewrite Z.div_small; [reflexivity |].
  rewrite pow10_add. pose proof (pow10_pos k). nia.
Qed.

Lemma prepend_zeroes_loop_repeat (k : nat) (s : string) :
  prepend_zeroes_loop k s = (string_repeat "0"%char k ++ s)%string.
Proof.
  revert s. induction k as [| k IH]; intros s; [reflexivity |].
  cbn [prepend_zeroes_loop]. rewrite IH.
  clear IH. induction k as [| k IH]; [reflexivity |].
  cbn [string_repeat String.append] in *. f_equal. exact IH.
Qed.

(** Padding the decimal rendering of a number that fits gives its
    fixed-width rendering. *)
Lemma prepend_zeroes_str (n : Z) (d : nat) :
  0 <= n < 10 ^ Z.of_nat d -> (1 <= d)%nat ->
  prepend_zeroes (str n) d = render d n.
Proof.
  intros [Hn Hlt] Hd.
  pose proof (proj2 (len_str_le n d Hn Hd) Hlt) as Hlen.
  destruct (str_render n Hn) as (k & E & H1 & _).
  unfold prepend_zeroes. rewrite prepend_zeroes_loop_repeat, E.
  unfold len in Hlen. rewrite E, length_render in *.
  rewrite <- string_repeat_append_render by lia.
  f_equal. lia.
Qed.

Lemma int_digits_render (w : nat) :
  forall (n acc : Z),
    int_digits (render w n) acc = Ok (acc * 10 ^ Z.of_nat w + n mod 10 ^ Z.of_nat w).
Proof.
  induction w as [| w IH]; intros n acc.
  - cbn. rewrite Z.mod_1_r. f_equal. lia.
  - cbn [render int_digits].
    rewrite digit_value_char
      by (pose proof (Z.mod_pos_bound (n / 10 ^ Z.of_nat w) 10); lia).
    rewrite IH. f_equal. rewrite pow10_S.
    pose proof (pow10_pos w) as Hp. set (p := 10 ^ Z.of_nat w) in *.
    rewrite (Z.mul_comm 10 p), (Z.rem_mul_r n p 10) by lia. lia.
Qed.

Lemma int_render (w : nat) (n : Z) :
  (1 <= w)%nat -> 0 <= n < 10 ^ Z.of_nat w -> int (render w n) = Ok n.
Proof.
  intros Hw Hn. destruct w as [| w]; [lia |].
  unfold int. change (int_digits (render (S w) n) 0 = Ok n).
  rewrite int_digits_render, Z.mod_small by lia. f_equal.
Qed.

Lemma digits_value_bound (s : string) :
  is_digits s = true -> 0 <= digits_value s < 10 ^ Z.of_nat (String.length s).
Proof.
  induction s as [| c s IH]; intros H; cbn [digits_value String.length].
  - cbn. lia.
  - cbn [is_digits] in H. destruct (digit_value c) as [d |] eqn:E; [| discriminate].
    apply digit_char_value in E as [_ Hd]. specialize (IH H).
    rewrite pow10_S. nia.
Qed.

(** Every digit string is the fixed-width rendering of its value. *)
Lemma is_digits_render (s : string) :
  is_digits s = true -> s = render (String.length s) (digits_value s).
Proof.
  induction s as [| c s IH]; intros H; [reflexivity |].
  cbn [is_digits] in H. cbn [digits_value String.length render].
  destruct (digit_value c) as [d |] eqn:E; [| discriminate].
  pose proof (digits_value_bound s H) as Hb.
  apply digit_char_value in E as [Ec Hd]. specialize (IH H).
  pose proof (pow10_pos (String.length s)) as Hp.
  set (p := 10 ^ Z.of_nat (String.length s)) in *.
  f_equal.
  - rewrite <- (Z.div_unique (d * p + digits_value s) p d (digits_value s))
      by (auto; lia).
    rewrite Z.mod_small by lia. congruence.
  - rewrite IH at 1. apply render_congr. fold p.
    rewrite Z.add_comm, Z.mod_add by lia. reflexivity.
Qed.

Lemma is_digits_render_true (w : nat) (n : Z) : is_digits (render w n) = true.
Proof.
  induction w as [| w IH]; [reflexivity |]. cbn [render is_digits].
  rewrite digit_value_char
    by (pose proof (Z.mod_pos_bound (n / 10 ^ Z.of_nat w) 10); lia).
  exact IH.
Qed.

(** Two digit strings of one width compare as the numbers they render. *)
Lemma compare_render (w : nat) :
  forall a b : Z,
    0 <= a < 10 ^ Z.of_nat w -> 0 <= b < 10 ^ Z.of_nat w ->
    String.compare (render w a) (render w b) = Z.compare a b.
Proof.
  induction w as [| w IH]; intros a b Ha Hb.
  - cbn in *. replace a with 0 by lia. replace b with 0 by lia. reflexivity.
  - cbn [render String.compare].
    rewrite pow10_S in Ha, Hb.
    pose proof (pow10_pos w) as Hp. set (p := 10 ^ Z.of_nat w) in *.
    pose proof (Z.div_mod a p ltac:(lia)) as Ea.
    pose proof (Z.div_mod b p ltac:(lia)) as Eb.
    pose proof (Z.mod_pos_bound a p Hp) as Ra.
    pose proof (Z.mod_pos_bound b p Hp) as Rb.
    assert (0 <= a / p < 10) as Qa
      by (split; [apply Z.div_pos; lia | apply Z.div_lt_upper_bound; lia]).
    assert (0 <= b / p < 10) as Qb
      by (split; [apply Z.div_pos; lia | apply Z.div_lt_upper_bound; lia]).
    rewrite !Z.mod_small by lia.
    rewrite digit_char_compare by lia.
    rewrite <- (render_mod w a), <- (render_mod w b). fold p.
    rewrite IH by assumption.
    destruct (Z.compare_spec (a / p) (b / p)) as [E | E | E].
    + destruct (Z.compare_spec (a mod p) (b mod p));
        symmetry; [apply Z.compare_eq_iff | apply Z.compare_lt_iff
                  | apply Z.compare_gt_iff]; nia.
    + symmetry. apply Z.compare_lt_iff. nia.
    + symmetry. apply Z.compare_gt_iff. nia.
Qed.

(** Concatenating two fields is rendering the combined number. *)
Lemma render_app (a b : nat) (x y : Z) :
  0 <= y < 10 ^ Z.of_nat b ->
  render (a + b) (x * 10 ^ Z.of_nat b + y) = (render a x ++ render b y)%string.
Proof.
  intros Hy. pose proof (pow10_pos b) as Hb.
  induction a as [| a IH].
  - cbn [Nat.add render String.append]. apply render_congr.
    rewrite Z.add_comm, Z.mod_add by lia. reflexivity.
  - cbn [Nat.add render String.append]. rewrite IH. f_equal. f_equal. f_equal.
    rewrite pow10_add, (Z.mul_comm (10 ^ Z.of_nat a)).
    rewrite <- Z.div_div by (pose proof (pow10_pos a); lia).
    f_equal. symmetry. apply (Z.div_unique _ _ _ y); [left; lia | lia].
Qed.

Lemma substring_0_append (s t : string) :
  substring 0 (String.length s) (s ++ t) = s.
Proof. induction s as [| c s IH]; cbn; [destruct t; reflexivity | congruence]. Qed.

Lemma substring_skip_append (s t : string) (m : nat) :
  substring (String.length s) m (s ++ t) = substring 0 m t.
Proof. induction s as [| c s IH]; cbn; auto. Qed.

Lemma substring_0_length (s : string) : substring 0 (String.length s) s = s.
Proof. induction s as [| c s IH]; cbn; congruence. Qed.

(* ================================================================= *)
(** ** Big-endian bytes *)

Lemma pow256_pos (n : nat) : 0 < 256 ^ Z.of_nat n.
Proof. apply Z.pow_pos_nonneg; lia. Qed.

Lemma pow256_S (n : nat) : 256 ^ Z.of_nat (S n) = 256 * 256 ^ Z.of_nat n.
Proof. rewrite Nat2Z.inj_succ, Z.pow_succ_r; lia. Qed.

Lemma pow256_add (a b : nat) :
  256 ^ Z.of_nat (a + b) = 256 ^ Z.of_nat a * 256 ^ Z.of_nat b.
Proof. rewrite Nat2Z.inj_add, Z.pow_add_r; lia. Qed.

Lemma byte_val_bound (b : byte) : 0 <= byte_val b < 256.
Proof.
  unfold byte_val. pose proof (Byte.to_N_bounded b). lia.
Qed.

Lemma byte_of_Z_val (b : byte) : byte_of_Z (byte_val b) = b.
Proof.
  unfold byte_of_Z. rewrite Z.mod_small by apply byte_val_bound.
  unfold byte_val. rewrite N2Z.id, Byte.of_to_N. reflexivity.
Qed.

Lemma byte_of_Z_mod (z : Z) : byte_of_Z (z mod 256) = byte_of_Z z.
Proof. unfold byte_of_Z. rewrite Z.mod_mod by lia. reflexivity. Qed.

Lemma fold_from_bytes (l : list byte) (acc : Z) :
  fold_left (fun a b => a * 256 + byte_val b) l acc
  = acc * 256 ^ Z.of_nat (List.length l) + from_bytes_big l.
Proof.
  unfold from_bytes_big. revert acc.
  induction l as [| b l IH]; intros acc.
  - cbn. lia.
  - cbn [fold_left List.length]. rewrite IH, (IH (0 * 256 + byte_val b)).
    rewrite pow256_S. lia.
Qed.

Lemma from_bytes_cons (b : byte) (l : list byte) :
  from_bytes_big (b :: l)
  = byte_val b * 256 ^ Z.of_nat (List.length l) + from_bytes_big l.
Proof.
  unfold from_bytes_big at 1. cbn [fold_left]. rewrite fold_from_bytes. lia.
Qed.

Lemma from_bytes_bound (l : list byte) :
  0 <= from_bytes_big l < 256 ^ Z.of_nat (List.length l).
Proof.
  induction l as [| b l IH]; [cbn; lia |].
  rewrite from_bytes_cons. cbn [List.length]. rewrite pow256_S.
  pose proof (byte_val_bound b). nia.
Qed.

Lemma to_bytes_digits_congr (n : nat) (x y : Z) :
  x mod 256 ^ Z.of_nat n = y mod 256 ^ Z.of_nat n ->
  to_bytes_digits n x = to_bytes_digits n y.
Proof.
  revert x y. induction n as [| n IH]; intros x y H; [reflexivity |].
  cbn [to_bytes_digits]. rewrite pow256_S in H.
  pose proof (pow256_pos n) as Hp. set (p := 256 ^ Z.of_nat n) in *.
  rewrite (Z.mul_comm 256 p), !Z.rem_mul_r in H by lia.
  pose proof (Z.mod_pos_bound x p Hp). pose proof (Z.mod_pos_bound y p Hp).
  pose proof (Z.mod_pos_bound (x / p) 256 ltac:(lia)).
  pose proof (Z.mod_pos_bound (y / p) 256 ltac:(lia)).
  assert ((x / p) mod 256 = (y / p) mod 256) as Hq by nia.
  assert (x mod p = y mod p) as Hr by nia.
  f_equal.
  - rewrite <- (byte_of_Z_mod (x / p)), <- (byte_of_Z_mod (y / p)). congruence.
  - apply IH. exact Hr.
Qed.

(** [to_bytes] undoes [from_bytes] at the length of the sequence. *)
Lemma to_bytes_from_bytes (l : list byte) :
  to_bytes_digits (List.length l) (from_bytes_big l) = l.
Proof.
  induction l as [| b l IH]; [reflexivity |].
  cbn [List.length to_bytes_digits]. rewrite from_bytes_cons.
  pose proof (from_bytes_bound l) as Hb. pose proof (byte_val_bound b) as Hv.
  pose proof (pow256_pos (List.length l)) as Hp.
  set (p := 256 ^ Z.of_nat (List.length l)) in *.
  f_equal.
  - rewrite <- (Z.div_unique (byte_val b * p + from_bytes_big l) p (byte_val b)
                  (from_bytes_big l)) by (auto; lia).
    apply byte_of_Z_val.
  - transitivity (to_bytes_digits (List.length l) (from_bytes_big l));
      [| exact IH].
    apply to_bytes_digits_congr. fold p.
    rewrite Z.add_comm, Z.mod_add by lia. reflexivity.
Qed.

Lemma to_bytes_digits_zeros (k n : nat) (x : Z) :
  0 <= x < 256 ^ Z.of_nat n ->
  to_bytes_digits (k + n) x = repeat x00 k ++ to_bytes_digits n x.
Proof.
  intros Hx. induction k as [| k IH]; [reflexivity |].
  cbn [Nat.add to_bytes_digits repeat app]. rewrite IH. f_equal.
  rewrite Z.div_small; [reflexivity |].
  rewrite pow256_add. pose proof (pow256_pos k). nia.
Qed.

Lemma length_to_bytes_digits (n : nat) (x : Z) :
  List.length (to_bytes_digits n x) = n.
Proof. induction n; cbn; congruence. Qed.

Lemma pad_byte_loop_repeat (k : nat) (b : list byte) :
  pad_byte_loop k b = repeat x00 k ++ b.
Proof.
  revert b. induction k as [| k IH]; intros b; [reflexivity |].
  cbn [pad_byte_loop]. rewrite IH.
  change (x00 :: b) with ([x00] ++ b). rewrite app_assoc, <- repeat_cons.
  reflexivity.
Qed.

(** The byte length [(x.bit_length() + 7) // 8] is the least that holds [x]. *)
Lemma byte_length_fits (x : Z) :
  0 <= x -> x < 256 ^ Z.of_nat (Z.to_nat ((bit_length x + 7) / 8)).
Proof.
  intros Hx. unfold bit_length.
  destruct (Z.eqb_spec x 0) as [-> | Hz]; [cbn; lia |].
  rewrite Z.abs_eq by lia.
  pose proof (Z.log2_nonneg x) as Hl.
  pose proof (Z.log2_spec x ltac:(lia)) as [_ Hs].
  rewrite Z2Nat.id by (apply Z.div_pos; lia).
  eapply Z.lt_le_trans; [exact Hs |].
  change 256 with (2 ^ 8). rewrite <- Z.pow_mul_r by (try apply Z.div_pos; lia).
  apply Z.pow_le_mono_r; [lia |].
  pose proof (Z.div_mod (Z.log2 x + 1 + 7) 8 ltac:(lia)).
  pose proof (Z.mod_pos_bound (Z.log2 x + 1 + 7) 8 ltac:(lia)). lia.
Qed.

Lemma byte_length_le (x : Z) (n : nat) :
  0 <= x < 256 ^ Z.of_nat n -> (Z.to_nat ((bit_length x + 7) / 8) <= n)%nat.
Proof.
  intros [Hx Hlt]. unfold bit_length.
  destruct (Z.eqb_spec x 0) as [-> | Hz]; [cbn; lia |].
  rewrite Z.abs_eq by lia.
  assert (Z.log2 x < 8 * Z.of_nat n) as Hl.
  { apply Z.log2_lt_pow2; [lia |].
    rewrite Z.pow_mul_r by lia. exact Hlt. }
  pose proof (Z.log2_nonneg x).
  assert ((Z.log2 x + 1 + 7) / 8 <= Z.of_nat n); [| lia].
  apply Z.lt_succ_r. apply Z.div_lt_upper_bound; lia.
Qed.

Lemma int_to_bytes_ok (x : Z) :
  0 <= x ->
  int_to_bytes x = Ok (to_bytes_digits (Z.to_nat ((bit_length x + 7) / 8)) x).
Proof.
  intros Hx. unfold int_to_bytes, to_bytes_big.
  pose proof (byte_length_fits x Hx) as Hf.
  destruct (Z.ltb_spec x 0); [lia |].
  destruct (Z.leb_spec (256 ^ Z.of_nat (Z.to_nat ((bit_length x + 7) / 8))) x);
    [lia | reflexivity].
Qed.

(** What [extract] makes of a data field holding a value of at most
    [STORABLE_BYTES_PER_FILE] bytes. *)
Lemma pad_byte_int_to_bytes (x : Z) :
  0 <= x < 256 ^ Z.of_nat STORABLE_BYTES_PER_FILE ->
  bind (int_to_bytes x) (fun byte => Ok (pad_byte byte))
  = Ok (to_bytes_digits STORABLE_BYTES_PER_FILE x).
Proof.
  intros Hx. rewrite int_to_bytes_ok by lia. cbn [bind]. f_equal.
  unfold pad_byte. rewrite pad_byte_loop_repeat, length_to_bytes_digits.
  pose proof (byte_length_le x _ Hx) as Hle.
  rewrite <- to_bytes_digits_zeros by (split; [lia | apply byte_length_fits; lia]).
  f_equal. lia.
Qed.

(* ================================================================= *)
(** ** Constants *)

Lemma DIGITS_FOR_INDEX_eq : DIGITS_FOR_INDEX = 4%nat.
Proof. reflexivity. Qed.

Lemma STORABLE_DIGITS_PER_FILE_eq : STORABLE_DIGITS_PER_FILE = 13%nat.
Proof. reflexivity. Qed.

Lemma STORABLE_BYTES_PER_FILE_eq : STORABLE_BYTES_PER_FILE = 5%nat.
Proof. reflexivity. Qed.

Lemma INDEX_LIMIT_eq : INDEX_LIMIT = 9998.
Proof. reflexivity. Qed.

Lemma nines_pow (digits : nat) :
  (1 <= digits)%nat -> nines digits = 10 ^ Z.of_nat digits - 1.
Proof.
  intros Hd. unfold nines.
  assert (string_repeat "9"%char digits = render digits (10 ^ Z.of_nat digits - 1)) as E.
  { clear Hd. induction digits as [| d IH]; [reflexivity |].
    cbn [string_repeat render]. pose proof (pow10_pos d) as Hp.
    rewrite pow10_S. f_equal.
    - replace ((10 * 10 ^ Z.of_nat d - 1) / 10 ^ Z.of_nat d) with 9; [reflexivity |].
      set (p := 10 ^ Z.of_nat d) in *.
      apply (Z.div_unique _ _ _ (p - 1)); [left; lia | lia].
    - rewrite IH. apply render_congr.
      replace (10 * 10 ^ Z.of_nat d - 1)
        with (10 ^ Z.of_nat d - 1 + 9 * 10 ^ Z.of_nat d) by lia.
      rewrite Z.mod_add by lia. reflexivity. }
  rewrite E, int_render by (pose proof (pow10_pos digits); lia).
  reflexivity.
Qed.

(* ================================================================= *)
(** ** Padding and chunking *)

Ltac lia_mod := Z.div_mod_to_equations; lia.

Lemma pad_front_loop_spec (fuel : nat) :
  forall l : list byte,
    (- Z.of_nat (List.length l)) mod 5 <= Z.of_nat fuel ->
    pad_front_loop fuel l
    = repeat x00 (Z.to_nat ((- Z.of_nat (List.length l)) mod 5)) ++ l.
Proof.
  induction fuel as [| f IH]; intros l Hf.
  - cbn [pad_front_loop].
    replace ((- Z.of_nat (List.length l)) mod 5) with 0 by lia_mod. reflexivity.
  - cbn [pad_front_loop]. rewrite STORABLE_BYTES_PER_FILE_eq.
    change (Z.of_nat 5) with 5.
    destruct (Z.eqb_spec (Z.of_nat (List.length l) mod 5) 0) as [E | E].
    + replace ((- Z.of_nat (List.length l)) mod 5) with 0 by lia_mod. reflexivity.
    + rewrite IH; cbn [List.length]; rewrite ?Nat2Z.inj_succ.
      * replace (Z.to_nat ((- Z.of_nat (List.length l)) mod 5))
          with (S (Z.to_nat ((- Z.succ (Z.of_nat (List.length l))) mod 5)))
          by lia_mod.
        cbn [repeat]. rewrite repeat_cons, <- app_assoc. reflexivity.
      * lia_mod.
Qed.

(** [pad_front] puts fewer than five zero bytes in front, and makes the
    length a multiple of five. *)
Lemma pad_front_spec (l : list byte) :
  exists k : nat,
    pad_front l = repeat x00 k ++ l /\ (k < 5)%nat
    /\ exists n : nat, (k + List.length l = 5 * n)%nat.
Proof.
  exists (Z.to_nat ((- Z.of_nat (List.length l)) mod 5)).
  split; [| split].
  - unfold pad_front. rewrite STORABLE_BYTES_PER_FILE_eq.
    apply pad_front_loop_spec. change (Z.of_nat 5) with 5. lia_mod.
  - lia_mod.
  - exists (Z.to_nat ((Z.of_nat (List.length l) + 4) / 5)).
    lia_mod.
Qed.

Lemma chunk_list_from_spec (n : nat) (Hn : (1 <= n)%nat) (fuel : nat) :
  forall (A : Type) (l : list A) (k : nat),
    (List.length l <= fuel)%nat -> List.length l = (n * k)%nat ->
    let chunks := chunk_list_from fuel l n in
    List.concat chunks = l /\ List.length chunks = k
    /\ Forall (fun c => List.length c = n) chunks.
Proof.
  induction fuel as [| f IH]; intros A l k Hf Hk; cbn zeta.
  - destruct l; [| cbn in Hf; lia]. cbn in *.
    assert (k = O) by nia. subst. repeat split; auto.
  - cbn [chunk_list_from]. destruct l as [| a l'] eqn:El.
    + cbn in *. assert (k = O) by nia. subst. repeat split; auto.
    + rewrite <- El in *. assert (List.length l <> O) as Hl by (subst; discriminate).
      destruct k as [| k]; [lia |].
      destruct (IH A (skipn n l) k) as (H1 & H2 & H3).
      * rewrite length_skipn. lia.
      * rewrite length_skipn. lia.
      * cbn [List.concat List.length]. repeat split.
        -- rewrite H1. apply firstn_skipn.
        -- congruence.
        -- constructor; [| exact H3]. rewrite length_firstn. lia.
Qed.

Lemma chunk_list_spec (A : Type) (l : list A) (n k : nat) :
  (1 <= n)%nat -> List.length l = (n * k)%nat ->
  List.concat (chunk_list l n) = l /\ List.length (chunk_list l n) = k
  /\ Forall (fun c => List.length c = n) (chunk_list l n).
Proof.
  intros Hn Hk. unfold chunk_list.
  apply (chunk_list_from_spec n Hn (List.length l) A l k); auto.
Qed.

(** The chunks [hide] plans over: all of exactly five bytes, and together
    the padded stream. *)
Lemma data_chunks_spec (encoded : list byte) :
  let data_chunks := chunk_list (pad_front encoded) STORABLE_BYTES_PER_FILE in
  List.concat data_chunks = pad_front encoded
  /\ Forall (fun c => List.length c = 5%nat) data_chunks
  /\ (5 * List.length data_chunks = List.length (pad_front encoded))%nat.
Proof.
  cbn zeta. rewrite STORABLE_BYTES_PER_FILE_eq.
  destruct (pad_front_spec encoded) as (k & E & Hk & n & Hn).
  destruct (chunk_list_spec byte (pad_front encoded) 5 n) as (H1 & H2 & H3).
  - lia.
  - rewrite E, length_app, repeat_length. exact Hn.
  - repeat split; auto. rewrite H2, E, length_app, repeat_length. lia.
Qed.

(* ================================================================= *)
(** ** The digit codec *)

Lemma range_fits_iff (c digits : nat) :
  (1 <= digits)%nat ->
  (range_fits c digits <-> 256 ^ Z.of_nat c - 1 <= 10 ^ Z.of_nat digits - 1).
Proof.
  intros Hd. pose proof (pow256_pos c) as Hp. split.
  - intros H. specialize (H (256 ^ Z.of_nat c - 1) ltac:(lia)).
    apply len_str_le in H; lia.
  - intros H v Hv. apply len_str_le; lia.
Qed.

Lemma largest_fitting_intro (c digits : nat) :
  (1 <= digits)%nat ->
  256 ^ Z.of_nat c <= 10 ^ Z.of_nat digits ->
  10 ^ Z.of_nat digits < 256 ^ Z.of_nat (S c) ->
  largest_fitting c digits.
Proof.
  intros Hd Hle Hlt. split.
  - apply range_fits_iff; lia.
  - intros c' H. apply range_fits_iff in H; [| exact Hd].
    destruct (Nat.le_gt_cases c' c) as [| Hgt]; [assumption | exfalso].
    assert (256 ^ Z.of_nat (S c) <= 256 ^ Z.of_nat c')
      by (apply Z.pow_le_mono_r; lia).
    lia.
Qed.

Lemma chunk_value_bound (c : list byte) :
  (List.length c <= 5)%nat -> 0 <= int_from_bytes c < 256 ^ 5.
Proof.
  intros H. pose proof (from_bytes_bound c) as Hb. unfold int_from_bytes.
  assert (256 ^ Z.of_nat (List.length c) <= 256 ^ 5)
    by (apply Z.pow_le_mono_r; lia).
  lia.
Qed.

Lemma decimal_to_bytes_render (v : Z) :
  0 <= v < 256 ^ 5 ->
  decimal_to_bytes (render 13 v) = Ok (to_bytes_digits 5 v).
Proof.
  intros Hv. unfold decimal_to_bytes.
  rewrite int_render by (change (10 ^ Z.of_nat 13) with 10000000000000; lia).
  cbn [bind]. apply pad_byte_int_to_bytes. exact Hv.
Qed.

Lemma bytes_to_decimal_render (b : list byte) :
  (List.length b <= 5)%nat ->
  bytes_to_decimal b STORABLE_DIGITS_PER_FILE = render 13 (int_from_bytes b).
Proof.
  intros H. pose proof (chunk_value_bound b H) as Hb.
  unfold bytes_to_decimal. rewrite STORABLE_DIGITS_PER_FILE_eq.
  apply prepend_zeroes_str; [| lia].
  change (10 ^ Z.of_nat 13) with 10000000000000. lia.
Qed.

(* ================================================================= *)
(** ** One carrier: writing and reading back *)

Lemma split_3_7_7 (v : Z) :
  0 <= v < 10 ^ 17 ->
  exists a b c : Z,
    0 <= a < 10 ^ 3 /\ 0 <= b < 10 ^ 7 /\ 0 <= c < 10 ^ 7
    /\ render 17 v = (render 3 a ++ render 7 b ++ render 7 c)%string.
Proof.
  intros Hv.
  exists (v / 10 ^ 14), ((v mod 10 ^ 14) / 10 ^ 7), (v mod 10 ^ 7).
  repeat split; try lia_mod.
  rewrite <- (render_app 7 7) by (change (Z.of_nat 7) with 7; lia_mod).
  rewrite <- (render_app 3 (7 + 7))
    by (change (Z.of_nat (7 + 7)) with 14; change (Z.of_nat 7) with 7; lia_mod).
  change (3 + (7 + 7))%nat with 17%nat. f_equal.
  change (Z.of_nat (7 + 7)) with 14; change (Z.of_nat 7) with 7. lia_mod.
Qed.

Lemma slices_3_7_7 (x y z : string) :
  String.length x = 3%nat -> String.length y = 7%nat -> String.length z = 7%nat ->
  slice 0 3 (x ++ y ++ z) = x /\ slice 3 10 (x ++ y ++ z) = y
  /\ slice 10 17 (x ++ y ++ z) = z.
Proof.
  intros Hx Hy Hz. unfold slice. repeat split.
  - change (3 - 0)%nat with 3%nat. rewrite <- Hx. apply substring_0_append.
  - change (10 - 3)%nat with 7%nat. rewrite <- Hx at 1.
    rewrite substring_skip_append, <- Hy. apply substring_0_append.
  - change (17 - 10)%nat with 7%nat. rewrite <- append_assoc.
    replace 10%nat with (String.length (x ++ y))
      by (rewrite length_append; lia).
    rewrite substring_skip_append, <- Hz. apply substring_0_length.
Qed.

Section Carrier.

Variable floor_giga : Z -> Z.

Lemma read_fields (t : datetime) (p : string) (fa fm a b c : Z) :
  0 <= a < 10 ^ 3 -> 0 <= b < 10 ^ 7 -> 0 <= c < 10 ^ 7 ->
  read_file (mkcarrier (mkdatetime (dt_second t) (a * 1000)) p
               (fa * 1000000000 + b * 100) (fm * 1000000000 + c * 100))
  = (render 3 a ++ render 7 b ++ render 7 c)%string.
Proof.
  intros Ha Hb Hc. unfold read_file.
  cbn [ctimestamp microsecond atime_ns mtime_ns].
  rewrite Z.quot_mul by lia.
  rewrite !(Z.add_comm (_ * 1000000000)), !Z.mod_add by lia.
  rewrite !Z.mod_small by lia. rewrite !Z.quot_mul by lia.
  rewrite !prepend_zeroes_str by (auto; lia). reflexivity.
Qed.

Lemma write_fields (file : carrier) (a b c : Z) :
  0 <= a < 10 ^ 3 -> 0 <= b < 10 ^ 7 -> 0 <= c < 10 ^ 7 ->
  write_file floor_giga file (render 3 a ++ render 7 b ++ render 7 c)
  = Ok (mkcarrier (mkdatetime (dt_second (ctimestamp file)) (a * 1000))
          (path file)
          (floor_giga (atime_ns file) * 1000000000 + b * 100)
          (floor_giga (mtime_ns file) * 1000000000 + c * 100)).
Proof.
  intros Ha Hb Hc. unfold write_file.
  destruct (slices_3_7_7 (render 3 a) (render 7 b) (render 7 c))
    as (-> & -> & ->); try apply length_render.
  rewrite !int_render by (auto; lia). cbn [bind].
  unfold replace_microsecond.
  destruct (Z.leb_spec 0 (a * 1000)); [| lia].
  destruct (Z.leb_spec (a * 1000) 999999); [| lia].
  reflexivity.
Qed.

(** Writing a 17-digit string and reading the carrier back. *)
Lemma write_then_read (file : carrier) (v : Z) :
  0 <= v < 10 ^ 17 ->
  exists file', write_file floor_giga file (render 17 v) = Ok file'
                /\ read_file file' = render 17 v.
Proof.
  intros Hv. destruct (split_3_7_7 v Hv) as (a & b & c & Ha & Hb & Hc & ->).
  eexists. split; [apply write_fields; assumption |].
  apply read_fields; assumption.
Qed.

(** The baseline pass leaves a carrier that reads all nines. *)
Lemma reset_then_read (file : carrier) :
  exists file', reset_file floor_giga file = Ok file'
                /\ read_file file' = all_nines.
Proof.
  eexists. split; [reflexivity |].
  unfold read_file. cbn [ctimestamp microsecond atime_ns mtime_ns].
  unfold floor_billionths.
  rewrite !(Z.add_comm (_ * 1000000000)), !Z.mod_add by lia.
  reflexivity.
Qed.

End Carrier.

(* ================================================================= *)
(** ** [sorted] on strings *)

Lemma ascii_compare_N (a b : ascii) :
  Ascii.compare a b = N.compare (N_of_ascii a) (N_of_ascii b).
Proof. reflexivity. Qed.

Lemma ascii_compare_refl (a : ascii) : Ascii.compare a a = Eq.
Proof. rewrite ascii_compare_N. apply N.compare_refl. Qed.

Lemma string_compare_refl (s : string) : String.compare s s = Eq.
Proof.
  induction s as [| c s IH]; [reflexivity |].
  cbn [String.compare]. rewrite ascii_compare_refl. exact IH.
Qed.

Lemma string_compare_lt_trans (s1 : string) :
  forall s2 s3 : string,
    String.compare s1 s2 = Lt -> String.compare s2 s3 = Lt ->
    String.compare s1 s3 = Lt.
Proof.
  induction s1 as [| a s1 IH]; intros [| b s2] [| c s3]; cbn [String.compare];
    try discriminate; auto.
  rewrite !ascii_compare_N.
  destruct (N.compare_spec (N_of_ascii a) (N_of_ascii b)) as [E1 | L1 | G1];
    try discriminate;
    destruct (N.compare_spec (N_of_ascii b) (N_of_ascii c)) as [E2 | L2 | G2];
    try discriminate; intros H1 H2.
  - rewrite E1, E2, N.compare_refl. eapply IH; eassumption.
  - rewrite E1. apply N.compare_lt_iff in L2. rewrite L2. reflexivity.
  - rewrite <- E2. apply N.compare_lt_iff in L1. rewrite L1. reflexivity.
  - assert (N_of_ascii a < N_of_ascii c)%N as L by lia.
    apply N.compare_lt_iff in L. rewrite L. reflexivity.
Qed.

Lemma leb_iff (s t : string) :
  String.leb s t = true <-> (String.compare s t = Lt \/ s = t).
Proof.
  unfold String.leb. split.
  - destruct (String.compare s t) eqn:E; try discriminate; auto.
    right. apply String.compare_eq_iff. exact E.
  - intros [-> | ->]; [reflexivity |]. rewrite string_compare_refl. reflexivity.
Qed.

Lemma leb_trans (s t u : string) :
  String.leb s t = true -> String.leb t u = true -> String.leb s u = true.
Proof.
  rewrite !leb_iff. intros [H1 | ->] [H2 | ->]; auto.
  left. eapply string_compare_lt_trans; eassumption.
Qed.

Lemma leb_rel_transitive : Relations_1.Transitive leb_rel.
Proof. intros s t u. unfold leb_rel, is_true. apply leb_trans. Qed.

Lemma sorted_strongly (l : list string) : StronglySorted leb_rel (sorted l).
Proof.
  apply StringSort.StronglySorted_sort. exact leb_rel_transitive.
Qed.

Lemma sorted_permutation (l : list string) : Permutation l (sorted l).
Proof. apply StringSort.Permuted_sort. Qed.

(** A list in ascending order has one arrangement only. *)
Lemma strongly_sorted_unique (l1 : list string) :
  forall l2 : list string,
    StronglySorted leb_rel l1 -> StronglySorted leb_rel l2 ->
    Permutation l1 l2 -> l1 = l2.
Proof.
  induction l1 as [| a l1 IH]; intros l2 S1 S2 P.
  - apply Permutation_nil in P. congruence.
  - destruct l2 as [| b l2];
      [apply Permutation_sym, Permutation_nil in P; discriminate |].
    inversion S1 as [| ? ? S1' F1]; inversion S2 as [| ? ? S2' F2]; subst.
    assert (a = b) as ->.
    { assert (In a (b :: l2)) as Ia
        by (eapply Permutation_in; [exact P | left; reflexivity]).
      assert (In b (a :: l1)) as Ib
        by (eapply Permutation_in;
            [apply Permutation_sym; exact P | left; reflexivity]).
      destruct Ia as [-> | Ia]; [reflexivity |].
      destruct Ib as [-> | Ib]; [reflexivity |].
      rewrite Forall_forall in F1, F2.
      apply String.leb_antisym; [apply F1 | apply F2]; assumption. }
    f_equal. apply IH; auto. eapply Permutation_cons_inv. exact P.
Qed.

(** Sorting any arrangement of an ascending list gives that list. *)
Lemma sorted_of_permutation (l target : list string) :
  StronglySorted leb_rel target -> Permutation l target -> sorted l = target.
Proof.
  intros S P. apply strongly_sorted_unique; auto using sorted_strongly.
  eapply Permutation_trans; [| exact P].
  apply Permutation_sym, sorted_permutation.
Qed.

Lemma strongly_sorted_app (l1 l2 : list string) :
  StronglySorted leb_rel l1 -> StronglySorted leb_rel l2 ->
  (forall a b, In a l1 -> In b l2 -> leb_rel a b) ->
  StronglySorted leb_rel (l1 ++ l2).
Proof.
  intros S1 S2 H. induction S1 as [| a l1 S1 IH F]; [exact S2 |].
  cbn [app]. constructor.
  - apply IH. intros x y Hx Hy. apply H; [right |]; assumption.
  - apply Forall_app. split; [exact F |].
    apply Forall_forall. intros y Hy. apply H; [left; reflexivity | exact Hy].
Qed.

Lemma strongly_sorted_repeat (s : string) (k : nat) :
  StronglySorted leb_rel (repeat s k).
Proof.
  induction k as [| k IH]; cbn [repeat]; constructor; auto.
  apply Forall_forall. intros y Hy. apply repeat_spec in Hy. subst.
  apply leb_iff. right. reflexivity.
Qed.

(* ================================================================= *)
(** ** The chunk planner *)

Lemma prepend_chunk_record (index value : Z) :
  0 <= index < 10 ^ 4 -> 0 <= value < 10 ^ 13 ->
  prepend_chunk (str index) (str value) = record index value.
Proof.
  intros Hi Hv. unfold prepend_chunk, record.
  rewrite DIGITS_FOR_INDEX_eq, STORABLE_DIGITS_PER_FILE_eq.
  rewrite !prepend_zeroes_str by (auto; lia). reflexivity.
Qed.

Lemma record_render (index value : Z) :
  0 <= value < 10 ^ 13 ->
  record index value = render 17 (index * 10 ^ 13 + value).
Proof.
  intros Hv. unfold record. symmetry. apply (render_app 4 13). exact Hv.
Qed.

Lemma length_record (index value : Z) : String.length (record index value) = 17%nat.
Proof. unfold record. rewrite length_append, !length_render. reflexivity. Qed.

Lemma record_key_bound (index value : Z) :
  0 <= index < 10 ^ 4 -> 0 <= value < 10 ^ 13 ->
  0 <= index * 10 ^ 13 + value < 10 ^ 17.
Proof. lia. Qed.

(** Records compare as the pairs [(index, value)]. *)
Lemma record_lt (i v j w : Z) :
  0 <= i < 10 ^ 4 -> 0 <= j < 10 ^ 4 -> 0 <= v < 10 ^ 13 -> 0 <= w < 10 ^ 13 ->
  i < j \/ (i = j /\ v < w) ->
  String.compare (record i v) (record j w) = Lt.
Proof.
  intros Hi Hj Hv Hw H. rewrite !record_render by assumption.
  rewrite compare_render by (apply record_key_bound; assumption).
  apply Z.compare_lt_iff. lia.
Qed.

Lemma record_lt_nines (i v : Z) :
  0 <= i < 9999 -> 0 <= v < 10 ^ 13 ->
  String.compare (record i v) "99999999999999999" = Lt.
Proof.
  intros Hi Hv.
  change "99999999999999999" with (record 9999 9999999999999).
  apply record_lt; lia.
Qed.

Lemma chunk_fits (c : list byte) :
  (List.length c <= 5)%nat ->
  (len (str (int_from_bytes c)) >? Z.of_nat STORABLE_DIGITS_PER_FILE) = false.
Proof.
  intros H. pose proof (chunk_value_bound c H) as Hb.
  rewrite Z.gtb_ltb. apply Z.ltb_ge. rewrite STORABLE_DIGITS_PER_FILE_eq.
  apply len_str_le; lia.
Qed.

(** Inside a window the loop only numbers the chunks. *)
Lemma plan_loop_window (chunks : list (list byte)) :
  forall (rest : list (list byte)) (index remaining : Z) (acc : list string),
    1 <= index -> index + Z.of_nat (List.length chunks) <= 9998 ->
    Forall (fun c => (List.length c <= 5)%nat) chunks ->
    plan_loop (chunks ++ rest) index remaining acc
    = plan_loop rest (index + Z.of_nat (List.length chunks)) remaining
        (acc ++ data_records index chunks).
Proof.
  induction chunks as [| c chunks IH]; intros rest index remaining acc Hi Hn Hc.
  - cbn [app List.length data_records]. rewrite app_nil_r. f_equal. lia.
  - inversion Hc as [| ? ? Hc1 Hc2]; subst.
    cbn [List.length] in Hn. rewrite Nat2Z.inj_succ in Hn.
    cbn [app plan_loop]. rewrite chunk_fits by assumption.
    rewrite INDEX_LIMIT_eq.
    destruct (Z.eqb_spec index 0); [lia |].
    destruct (Z.eqb_spec index 9998); [lia |].
    cbn [orb]. rewrite IH by (auto; lia).
    pose proof (chunk_value_bound c Hc1) as Hb.
    rewrite prepend_chunk_record by lia.
    cbn [List.length data_records]. rewrite <- app_assoc. cbn [app].
    f_equal. lia.
Qed.

(** The plan of at most 9997 chunks: one index record, then the chunks
    numbered from 1. *)
Lemma plan_loop_single (c : list byte) (chunks : list (list byte)) :
  Z.of_nat (List.length (c :: chunks)) <= 9997 ->
  Forall (fun c => (List.length c <= 5)%nat) (c :: chunks) ->
  plan_loop (c :: chunks) 0 (Z.of_nat (List.length (c :: chunks))) []
  = Ok (record 0 (Z.of_nat (List.length (c :: chunks)))
          :: data_records 1 (c :: chunks)).
Proof.
  intros Hn Hc. inversion Hc as [| ? ? Hc1 Hc2]; subst.
  set (n := Z.of_nat (List.length (c :: chunks))) in *.
  assert (n = Z.succ (Z.of_nat (List.length chunks))) as En
    by (unfold n; cbn [List.length]; apply Nat2Z.inj_succ).
  cbn [plan_loop]. rewrite chunk_fits by assumption.
  cbn [Z.eqb orb].
  pose proof (chunk_value_bound c Hc1) as Hb.
  rewrite !prepend_chunk_record by lia.
  rewrite <- (app_nil_r chunks) at 1.
  rewrite plan_loop_window by (auto; lia).
  cbn [plan_loop data_records app]. reflexivity.
Qed.

(** The plan of exactly 9998 chunks: the loop starts a second window at the
    last chunk, with an index record that counts zero chunks. *)
Lemma plan_loop_full (c : list byte) (chunks : list (list byte)) (d : list byte) :
  Z.of_nat (List.length (c :: chunks ++ [d])) = 9998 ->
  Forall (fun c => (List.length c <= 5)%nat) (c :: chunks ++ [d]) ->
  plan_loop (c :: chunks ++ [d]) 0 9998 []
  = Ok (record 0 9998 :: data_records 1 (c :: chunks)
          ++ [record 0 0; record 1 (int_from_bytes d)]).
Proof.
  intros Hn Hc. inversion Hc as [| ? ? Hc1 Hc2]; subst.
  apply Forall_app in Hc2 as [Hc2 Hd]. inversion Hd as [| ? ? Hd1 _]; subst.
  cbn [List.length] in Hn. rewrite length_app, Nat2Z.inj_succ, Nat2Z.inj_add in Hn.
  cbn [List.length] in Hn.
  cbn [plan_loop]. rewrite chunk_fits by assumption.
  cbn [Z.eqb orb].
  pose proof (chunk_value_bound c Hc1) as Hb.
  rewrite !prepend_chunk_record by lia.
  rewrite plan_loop_window by (auto; lia).
  replace (1 + 1 + Z.of_nat (List.length chunks)) with 9998 by lia.
  cbn [plan_loop]. rewrite chunk_fits by assumption.
  rewrite INDEX_LIMIT_eq. cbn [Z.eqb Pos.eqb orb].
  pose proof (chunk_value_bound d Hd1) as Hbd.
  change (9998 - 9998) with 0.
  rewrite !prepend_chunk_record by lia.
  cbn [data_records app]. reflexivity.
Qed.

Lemma str_lt_leb (s t : string) : str_lt s t -> leb_rel s t.
Proof. intros H. apply leb_iff. left. exact H. Qed.

Lemma strongly_sorted_weaken (l : list string) :
  StronglySorted str_lt l -> StronglySorted leb_rel l.
Proof.
  induction 1 as [| a l S IH F]; constructor; auto.
  eapply Forall_impl; [| exact F]. intros b. apply str_lt_leb.
Qed.

Lemma length_data_records (chunks : list (list byte)) :
  forall index, List.length (data_records index chunks) = List.length chunks.
Proof. induction chunks as [| c chunks IH]; intros index; cbn; auto. Qed.

Lemma in_data_records (chunks : list (list byte)) :
  forall (index : Z) (s : string),
    In s (data_records index chunks) ->
    exists (j : Z) (c : list byte),
      s = record j (int_from_bytes c) /\ In c chunks
      /\ index <= j < index + Z.of_nat (List.length chunks).
Proof.
  induction chunks as [| c chunks IH]; intros index s H; [destruct H |].
  cbn [data_records] in H. cbn [List.length]. rewrite Nat2Z.inj_succ.
  destruct H as [<- | H].
  - exists index, c. repeat split; auto with datatypes; lia.
  - destruct (IH _ _ H) as (j & c' & E & I & B).
    exists j, c'. repeat split; auto with datatypes; lia.
Qed.

(** Data records numbered upwards are in strictly ascending order. *)
Lemma data_records_sorted (chunks : list (list byte)) :
  forall index : Z,
    0 <= index -> index + Z.of_nat (List.length chunks) <= 10 ^ 4 ->
    Forall (fun c => (List.length c <= 5)%nat) chunks ->
    StronglySorted str_lt (data_records index chunks).
Proof.
  induction chunks as [| c chunks IH]; intros index Hi Hn Hc;
    cbn [data_records]; constructor.
  - inversion Hc; subst. cbn [List.length] in Hn. rewrite Nat2Z.inj_succ in Hn.
    apply IH; auto; lia.
  - inversion Hc as [| ? ? Hc1 Hc2]; subst.
    cbn [List.length] in Hn. rewrite Nat2Z.inj_succ in Hn.
    apply Forall_forall. intros s Hs.
    destruct (in_data_records _ _ _ Hs) as (j & c' & -> & I & B).
    rewrite Forall_forall in Hc2.
    pose proof (chunk_value_bound c Hc1).
    pose proof (chunk_value_bound c' (Hc2 _ I)).
    apply record_lt; lia.
Qed.

(** The plan of at most 9997 chunks is in strictly ascending order. *)
Lemma single_plan_sorted (n : Z) (chunks : list (list byte)) :
  0 <= n < 10 ^ 13 -> Z.of_nat (List.length chunks) <= 9997 ->
  Forall (fun c => (List.length c <= 5)%nat) chunks ->
  StronglySorted str_lt (record 0 n :: data_records 1 chunks).
Proof.
  intros Hn Hl Hc. constructor.
  - apply data_records_sorted; auto; lia.
  - apply Forall_forall. intros s Hs.
    destruct (in_data_records _ _ _ Hs) as (j & c' & -> & I & B).
    rewrite Forall_forall in Hc. pose proof (chunk_value_bound c' (Hc _ I)).
    apply record_lt; lia.
Qed.

(* ================================================================= *)
(** ** The extraction loop *)

Lemma record_slices (i v : Z) :
  slice 0 DIGITS_FOR_INDEX (record i v) = render 4 i
  /\ slice_from DIGITS_FOR_INDEX (record i v) = render 13 v.
Proof.
  unfold slice, slice_from. rewrite length_record, DIGITS_FOR_INDEX_eq.
  unfold record. split.
  - change (4 - 0)%nat with (String.length (render 4 i)).
    apply substring_0_append.
  - change 4%nat with (String.length (render 4 i)) at 1.
    rewrite substring_skip_append.
    change (17 - 4)%nat with (String.length (render 13 v)).
    apply substring_0_length.
Qed.

Lemma payload_of_record (i v : Z) :
  0 <= v < 256 ^ 5 -> payload_of (record i v) = to_bytes_digits 5 v.
Proof.
  intros Hv. unfold payload_of.
  rewrite (proj2 (record_slices i v)), decimal_to_bytes_render by exact Hv.
  reflexivity.
Qed.

Lemma scan_index_record (v : Z) (rest : list string) (found_start : bool)
  (files_remaining : Z) (encoded_data : list byte) :
  0 <= v < 10 ^ 13 ->
  scan (record 0 v :: rest) found_start files_remaining encoded_data
  = scan rest true v encoded_data.
Proof.
  intros Hv. cbn [scan]. destruct (record_slices 0 v) as [-> ->].
  rewrite !int_render by (auto; lia). reflexivity.
Qed.

Lemma scan_data_record (s : string) (rest : list string)
  (files_remaining : Z) (encoded_data : list byte) :
  valid_data s -> 0 < files_remaining ->
  scan (s :: rest) true files_remaining encoded_data
  = scan rest true (files_remaining - 1) (encoded_data ++ payload_of s).
Proof.
  intros (i & v & -> & Hi & Hv) Hr. rewrite payload_of_record by exact Hv.
  cbn [scan]. destruct (record_slices i v) as [-> ->].
  rewrite !int_render by (auto; lia). cbn [bind].
  destruct (Z.eqb_spec i 0); [lia |]. cbn [negb].
  destruct (Z.gtb_spec files_remaining 0); [| lia].
  pose proof (pad_byte_int_to_bytes v Hv) as Hp.
  destruct (int_to_bytes v) as [b | e]; cbn [bind] in *; [| discriminate].
  injection Hp as ->. reflexivity.
Qed.

(** A run of data records within the announced count is taken whole. *)
Lemma scan_data_run (run : list string) :
  forall (rest : list string) (files_remaining : Z) (encoded_data : list byte),
    Forall valid_data run -> Z.of_nat (List.length run) <= files_remaining ->
    scan (run ++ rest) true files_remaining encoded_data
    = scan rest true (files_remaining - Z.of_nat (List.length run))
        (encoded_data ++ List.concat (map payload_of run)).
Proof.
  induction run as [| s run IH]; intros rest r acc Hv Hr.
  - cbn. rewrite app_nil_r. f_equal. lia.
  - inversion Hv; subst. cbn [List.length] in *. rewrite Nat2Z.inj_succ in *.
    cbn [app]. rewrite scan_data_record by (auto; lia).
    rewrite IH by (auto; lia).
    cbn [map List.concat]. rewrite <- app_assoc. f_equal. lia.
Qed.

(** Once the count is used up, the first record that is not an index record
    ends the loop; before any index record it is passed over. *)
Lemma scan_nines (k : nat) (found_start : bool) (encoded_data : list byte) :
  scan (repeat all_nines k) found_start 0 encoded_data = Ok encoded_data.
Proof.
  induction k as [| k IH]; [reflexivity |].
  cbn [repeat scan]. destruct found_start; [reflexivity | exact IH].
Qed.

Lemma data_records_valid (chunks : list (list byte)) :
  forall index : Z,
    1 <= index -> index + Z.of_nat (List.length chunks) <= 10 ^ 4 ->
    Forall (fun c => (List.length c <= 5)%nat) chunks ->
    Forall valid_data (data_records index chunks).
Proof.
  intros index Hi Hn Hc. apply Forall_forall. intros s Hs.
  destruct (in_data_records _ _ _ Hs) as (j & c & -> & I & B).
  rewrite Forall_forall in Hc. pose proof (chunk_value_bound c (Hc _ I)).
  exists j, (int_from_bytes c). repeat split; lia.
Qed.

(** The data records of whole chunks give the chunks back. *)
Lemma payload_of_data_records (chunks : list (list byte)) :
  forall index : Z,
    Forall (fun c => List.length c = 5%nat) chunks ->
    List.concat (map payload_of (data_records index chunks)) = List.concat chunks.
Proof.
  induction chunks as [| c chunks IH]; intros index Hc; [reflexivity |].
  inversion Hc as [| ? ? Hc1 Hc2]; subst.
  cbn [data_records map List.concat].
  rewrite payload_of_record by (apply chunk_value_bound; lia).
  rewrite IH by assumption. f_equal.
  rewrite <- Hc1. apply to_bytes_from_bytes.
Qed.

Lemma exact_chunks_le (chunks : list (list byte)) :
  Forall (fun c => List.length c = 5%nat) chunks ->
  Forall (fun c => (List.length c <= 5)%nat) chunks.
Proof. apply Forall_impl. intros c ->. constructor. Qed.

Lemma plan_loop_shape (chunks : list (list byte)) :
  Z.of_nat (List.length chunks) <= 9998 ->
  Forall (fun c => (List.length c <= 5)%nat) chunks ->
  exists planned,
    plan_loop chunks 0 (Z.of_nat (List.length chunks)) [] = Ok planned
    /\ plan_shape chunks planned.
Proof.
  intros Hn Hc. destruct chunks as [| c chunks].
  - exists []. split; [reflexivity | constructor; reflexivity].
  - destruct (Z.eq_dec (Z.of_nat (List.length (c :: chunks))) 9998) as [E | E].
    + destruct (exists_last (l := chunks)) as (mid & d & ->).
      { intros ->. cbn in E. lia. }
      rewrite E. eexists. split; [apply plan_loop_full; assumption |].
      apply (shape_full _ (c :: mid) d); [reflexivity |].
      cbn [List.length] in *. rewrite length_app in E. cbn [List.length] in E. lia.
    + eexists. split; [apply plan_loop_single; auto; lia |].
      apply shape_single. cbn [List.length] in *. lia.
Qed.

(** [plan] on the padded stream: it fails on more than 9998 chunks only. *)
Lemma plan_spec (encoded : list byte) :
  let chunks := chunk_list (pad_front encoded) STORABLE_BYTES_PER_FILE in
  let n := Z.of_nat (List.length chunks) in
  (9998 < n /\ plan (pad_front encoded) = Err (CapacityExceeded 9998 n))
  \/ (n <= 9998 /\ exists planned,
        plan (pad_front encoded) = Ok planned /\ plan_shape chunks planned).
Proof.
  cbn zeta. unfold plan. rewrite INDEX_LIMIT_eq.
  destruct (data_chunks_spec encoded) as (_ & Hc & _).
  set (chunks := chunk_list (pad_front encoded) STORABLE_BYTES_PER_FILE) in *.
  destruct (Z.gtb_spec (Z.of_nat (List.length chunks)) 9998) as [H | H].
  - left. split; [lia | reflexivity].
  - right. split; [lia |].
    apply plan_loop_shape; [lia |]. apply exact_chunks_le. exact Hc.
Qed.

Lemma plan_shape_length (chunks : list (list byte)) (planned : list string) :
  plan_shape chunks planned ->
  Z.of_nat (List.length planned) = planned_count (Z.of_nat (List.length chunks)).
Proof.
  unfold planned_count. intros [-> | Hn | front d -> Hf].
  - reflexivity.
  - cbn [List.length]. rewrite length_data_records, Nat2Z.inj_succ.
    destruct (Z.eqb_spec (Z.of_nat (List.length chunks)) 0); [lia |].
    destruct (Z.eqb_spec (Z.of_nat (List.length chunks)) 9998); lia.
  - cbn [List.length]. rewrite !length_app, length_data_records.
    cbn [List.length]. rewrite Nat2Z.inj_succ, !Nat2Z.inj_add, Hf. reflexivity.
Qed.

Lemma digits17_iff (s : string) :
  digits17 s <-> (is_digits s = true /\ String.length s = 17%nat).
Proof.
  split.
  - intros (v & Hv & ->). split; [apply is_digits_render_true | apply length_render].
  - intros [Hd Hl]. exists (digits_value s).
    pose proof (digits_value_bound s Hd) as Hb. rewrite Hl in Hb.
    split; [exact Hb |]. rewrite <- Hl at 1. apply is_digits_render. exact Hd.
Qed.

Lemma record_digits17 (i v : Z) :
  0 <= i < 10 ^ 4 -> 0 <= v < 10 ^ 13 -> digits17 (record i v).
Proof.
  intros Hi Hv. exists (i * 10 ^ 13 + v). split; [lia |].
  apply record_render. exact Hv.
Qed.

Lemma plan_shape_strings (chunks : list (list byte)) (planned : list string) :
  Forall (fun c => (List.length c <= 5)%nat) chunks ->
  plan_shape chunks planned -> Forall payload_string planned.
Proof.
  intros Hc [-> | Hn | front d -> Hf].
  - constructor.
  - constructor.
    + exists 0, (Z.of_nat (List.length chunks)). repeat split; lia.
    + apply Forall_forall. intros s Hs.
      destruct (in_data_records _ _ _ Hs) as (j & c & -> & I & B).
      rewrite Forall_forall in Hc. pose proof (chunk_value_bound c (Hc _ I)).
      exists j, (int_from_bytes c). repeat split; lia.
  - apply Forall_app in Hc as [Hc Hd]. inversion Hd as [| ? ? Hd1 _]; subst.
    pose proof (chunk_value_bound d Hd1).
    constructor; [exists 0, 9998; repeat split; lia |].
    apply Forall_app. split.
    + apply Forall_forall. intros s Hs.
      destruct (in_data_records _ _ _ Hs) as (j & c & -> & I & B).
      rewrite Forall_forall in Hc. pose proof (chunk_value_bound c (Hc _ I)).
      exists j, (int_from_bytes c). repeat split; lia.
    + repeat constructor.
      * exists 0, 0. repeat split; lia.
      * exists 1, (int_from_bytes d). repeat split; lia.
Qed.

Lemma payload_string_digits17 (s : string) : payload_string s -> digits17 s.
Proof. intros (i & v & -> & Hi & Hv). apply record_digits17; lia. Qed.

Lemma payload_string_lt_nines (s : string) :
  payload_string s -> str_lt s all_nines.
Proof. intros (i & v & -> & Hi & Hv). apply record_lt_nines; lia. Qed.

(* ================================================================= *)
(** ** The directory after [hide] *)

Lemma map_repeat_const {A : Type} (f : A -> string) (x : string) (l : list A) :
  Forall (fun a => f a = x) l -> map f l = repeat x (List.length l).
Proof. induction 1 as [| a l E F IH]; cbn; congruence. Qed.

Lemma Forall_firstn {A : Type} (P : A -> Prop) (n : nat) (l : list A) :
  Forall P l -> Forall P (firstn n l).
Proof.
  intros H. revert n. induction H as [| a l Pa F IH]; intros [| n]; cbn; auto.
Qed.

Lemma Forall_skipn {A : Type} (P : A -> Prop) (n : nat) (l : list A) :
  Forall P l -> Forall P (skipn n l).
Proof.
  intros H. revert n. induction H as [| a l Pa F IH]; intros [| n]; cbn; auto.
Qed.

Section Directory.

Variable floor_giga : Z -> Z.

Lemma baseline_reads (files : list carrier) :
  exists baseline,
    map_result (reset_file floor_giga) files = Ok baseline
    /\ List.length baseline = List.length files
    /\ Forall (fun f => read_file f = all_nines) baseline.
Proof.
  induction files as [| file files (baseline & E & L & F)].
  - exists []. repeat split; constructor.
  - destruct (reset_then_read floor_giga file) as (file' & E' & R).
    exists (file' :: baseline). cbn [map_result]. rewrite E', E.
    repeat split; cbn; auto.
Qed.

Lemma write_all_reads (int_str_chunks : list string) :
  forall files : list carrier,
    Forall digits17 int_str_chunks ->
    (List.length int_str_chunks <= List.length files)%nat ->
    exists written,
      write_all floor_giga files int_str_chunks = Ok written
      /\ map read_file written = int_str_chunks.
Proof.
  induction int_str_chunks as [| c cs IH]; intros files Hd Hl.
  - exists []. split; reflexivity.
  - apply Forall_cons_iff in Hd as [(v & Hv & E) Hd'].
    destruct files as [| file files]; [cbn in Hl; lia |].
    destruct (write_then_read floor_giga file v Hv) as (w & Ew & Rw).
    destruct (IH files Hd') as (ws & Ews & Rws); [cbn in Hl; lia |].
    exists (w :: ws). cbn [write_all]. rewrite E, Ew, Ews.
    split; [reflexivity |]. cbn [map]. congruence.
Qed.

(** What the carriers read after a run: the planned strings in a window
    of all-nines strings. *)
Lemma hide_encoded_reads (files : list carrier) (encoded : list byte)
  (offset : nat) (planned : list string) :
  plan (pad_front encoded) = Ok planned ->
  Forall digits17 planned ->
  (offset + List.length planned <= List.length files)%nat ->
  exists store,
    hide_encoded floor_giga files encoded offset = Ok store
    /\ List.length store = List.length files
    /\ get_encoded_int_string store
       = repeat all_nines offset ++ planned
           ++ repeat all_nines (List.length files - offset - List.length planned).
Proof.
  intros Ep Hd Hl. unfold hide_encoded. rewrite Ep. cbn [bind].
  destruct (Nat.ltb_spec (List.length files) (List.length planned)); [lia |].
  destruct (baseline_reads files) as (baseline & -> & Lb & Fb).
  destruct (write_all_reads planned (skipn offset files) Hd)
    as (written & -> & Rw); [rewrite length_skipn; lia |].
  cbn [bind]. eexists. split; [reflexivity |].
  assert (List.length written = List.length planned) as Lw
    by (rewrite <- Rw; symmetry; apply length_map).
  split.
  - rewrite !length_app, length_firstn, length_skipn. lia.
  - unfold get_encoded_int_string. rewrite !map_app, Rw.
    rewrite (map_repeat_const read_file all_nines (firstn offset baseline))
      by (apply Forall_firstn; exact Fb).
    rewrite (map_repeat_const read_file all_nines (skipn _ baseline))
      by (apply Forall_skipn; exact Fb).
    rewrite length_firstn, length_skipn, Lb.
    replace (Nat.min offset (List.length files)) with offset by lia.
    replace (List.length files - (offset + List.length planned))%nat
      with (List.length files - offset - List.length planned)%nat by lia.
    reflexivity.
Qed.

End Directory.

(** Sorting the strings of a directory that holds ascending payload strings
    among all-nines strings. *)
Lemma sorted_window (strings planned : list string) (a b : nat) :
  Permutation strings (repeat all_nines a ++ planned ++ repeat all_nines b) ->
  Forall payload_string planned ->
  sorted strings = sorted planned ++ repeat all_nines (a + b).
Proof.
  intros P Hp. apply sorted_of_permutation.
  - apply strongly_sorted_app;
      [apply sorted_strongly | apply strongly_sorted_repeat |].
    intros x y Hx Hy. apply repeat_spec in Hy. subst y.
    apply str_lt_leb, payload_string_lt_nines.
    rewrite Forall_forall in Hp. apply Hp.
    eapply Permutation_in; [apply Permutation_sym, sorted_permutation | exact Hx].
  - eapply Permutation_trans; [exact P |].
    rewrite repeat_app.
    eapply Permutation_trans; [apply Permutation_app_comm |].
    rewrite <- !app_assoc.
    apply Permutation_app; [apply sorted_permutation |].
    apply Permutation_app_comm.
Qed.

Lemma sorted_ascending (l : list string) :
  StronglySorted str_lt l -> sorted l = l.
Proof.
  intros H. apply sorted_of_permutation;
    [apply strongly_sorted_weaken; exact H | apply Permutation_refl].
Qed.

(* ================================================================= *)
(** ** Reassembly *)

Lemma index_before_data (n : Z) (s : string) :
  0 <= n < 10 ^ 13 -> valid_data s -> str_lt (record 0 n) s.
Proof.
  intros Hn (i & v & -> & Hi & Hv). apply record_lt; lia.
Qed.

Lemma scan_window (n : Z) (run : list string) (k : nat) (found_start : bool)
  (files_remaining : Z) (encoded_data : list byte) :
  0 <= n < 10 ^ 13 -> Forall valid_data run -> Z.of_nat (List.length run) = n ->
  scan (record 0 n :: run ++ repeat all_nines k) found_start files_remaining
    encoded_data
  = Ok (encoded_data ++ List.concat (map payload_of run)).
Proof.
  intros Hn Hv Hl. rewrite scan_index_record by exact Hn.
  rewrite scan_data_run by (auto; lia).
  replace (n - Z.of_nat (List.length run)) with 0 by lia.
  apply scan_nines.
Qed.

Lemma sorted_full_plan (front : list (list byte)) (d : list byte) :
  Z.of_nat (List.length front) = 9997 ->
  Forall (fun c => (List.length c <= 5)%nat) (front ++ [d]) ->
  let run := sorted (data_records 1 front ++ [record 1 (int_from_bytes d)]) in
  sorted (record 0 9998 :: data_records 1 front
            ++ [record 0 0; record 1 (int_from_bytes d)])
  = record 0 0 :: record 0 9998 :: run
  /\ Forall valid_data run /\ Z.of_nat (List.length run) = 9998.
Proof.
  intros Hf Hc. cbn zeta. apply Forall_app in Hc as [Hc Hd].
  inversion Hd as [| ? ? Hd1 _]; subst.
  pose proof (chunk_value_bound d Hd1) as Hb.
  set (data := data_records 1 front ++ [record 1 (int_from_bytes d)]).
  assert (Forall valid_data data) as Hv.
  { apply Forall_app. split; [apply data_records_valid; auto; lia |].
    repeat constructor. exists 1, (int_from_bytes d). repeat split; lia. }
  assert (Forall valid_data (sorted data)) as Hvs
    by (eapply Permutation_Forall; [apply sorted_permutation | exact Hv]).
  split; [| split]; [| exact Hvs |].
  - apply sorted_of_permutation.
    + constructor; [constructor; [apply sorted_strongly |] |].
      * eapply Forall_impl; [| exact Hvs]. intros s Hs.
        apply str_lt_leb, index_before_data; [lia | exact Hs].
      * constructor; [apply str_lt_leb, record_lt; lia |].
        eapply Forall_impl; [| exact Hvs]. intros s Hs.
        apply str_lt_leb, index_before_data; [lia | exact Hs].
    + eapply Permutation_trans; [| apply perm_swap].
      apply perm_skip.
      eapply Permutation_trans;
        [apply Permutation_sym, Permutation_middle |].
      apply perm_skip. apply sorted_permutation.
  - rewrite <- (Permutation_length (sorted_permutation data)).
    unfold data. rewrite length_app, length_data_records. cbn [List.length]. lia.
Qed.

(** The scan of a sorted directory that holds one plan among all-nines
    strings: the all-nines strings add nothing, and the plan of at most 9997
    chunks gives the chunks back in order. *)
Lemma scan_sorted_plan (chunks : list (list byte)) (planned : list string)
  (k : nat) :
  plan_shape chunks planned ->
  Forall (fun c => List.length c = 5%nat) chunks ->
  exists data,
    scan (sorted planned ++ repeat all_nines k) false 0 [] = Ok data
    /\ scan (sorted planned) false 0 [] = Ok data
    /\ (Z.of_nat (List.length chunks) <= 9997 -> data = List.concat chunks).
Proof.
  intros Hs Hc. pose proof (exact_chunks_le chunks Hc) as Hle.
  destruct Hs as [-> | Hn | front d -> Hf].
  - exists []. change (sorted []) with (@nil string). cbn [app].
    split; [apply scan_nines | split; reflexivity].
  - assert (Forall valid_data (data_records 1 chunks)) as Hv
      by (apply data_records_valid; auto; lia).
    rewrite sorted_ascending by (apply single_plan_sorted; auto; lia).
    exists (List.concat chunks). cbn [app]. split; [| split; [| reflexivity]].
    + rewrite scan_window;
        rewrite ?length_data_records, ?payload_of_data_records; auto; lia.
    + rewrite <- (app_nil_r (data_records 1 chunks)).
      rewrite (scan_window _ _ 0);
        rewrite ?length_data_records, ?payload_of_data_records; auto; lia.
  - destruct (sorted_full_plan front d Hf Hle) as (-> & Hv & Hl).
    eexists. cbn [app]. split; [| split].
    + rewrite scan_index_record by lia. apply scan_window; auto; lia.
    + rewrite scan_index_record by lia.
      rewrite <- (app_nil_r (sorted _)) at 1.
      apply (scan_window _ _ 0); auto; lia.
    + rewrite length_app. cbn [List.length]. lia.
Qed.

Lemma trim_zeros (k : nat) (l : list byte) :
  trim (repeat x00 k ++ l) = trim l.
Proof. induction k as [| k IH]; [reflexivity | exact IH]. Qed.

Lemma trim_nonzero (b : byte) (l : list byte) :
  b <> x00 -> trim (b :: l) = Ok (b :: l).
Proof.
  intros H. cbn [trim].
  destruct (Byte.eqb b x00) eqn:E; [| reflexivity].
  apply Byte.byte_dec_bl in E. contradiction.
Qed.

(** Trimming undoes the padding exactly when the stream does not begin
    with a zero byte. *)
Lemma trim_pad_front (b : byte) (l : list byte) :
  b <> x00 -> trim (pad_front (b :: l)) = Ok (b :: l).
Proof.
  intros H. destruct (pad_front_spec (b :: l)) as (k & -> & _).
  rewrite trim_zeros. apply trim_nonzero. exact H.
Qed.

(* ================================================================= *)
(** ** The extension marker *)

Lemma split_no_sep (sep : ascii) (s : string) :
  has_char sep s = false -> split sep s = [s].
Proof.
  induction s as [| c s IH]; [reflexivity |]. cbn [has_char split].
  destruct (Ascii.eqb c sep); [discriminate |]. cbn [orb].
  intros H. rewrite (IH H). reflexivity.
Qed.

Lemma split_parts_no_sep (sep : ascii) (s : string) :
  Forall (fun part => has_char sep part = false) (split sep s).
Proof.
  induction s as [| c s IH]; cbn [split]; [repeat constructor |].
  destruct (Ascii.eqb c sep) eqn:E; [constructor; auto |].
  destruct (split sep s) as [| h t]; [repeat constructor; cbn; rewrite E; auto |].
  inversion IH; subst. constructor; auto. cbn [has_char]. rewrite E. auto.
Qed.

Lemma last_Forall {A : Type} (P : A -> Prop) (l : list A) (d : A) :
  Forall P l -> P d -> P (last l d).
Proof.
  intros F Pd. induction F as [| a l Pa F IH]; [exact Pd |].
  cbn [last]. destruct l; auto.
Qed.

Lemma split_after_sep (sep : ascii) (post : string) (pre : string) :
  exists h t, split sep (pre ++ String sep post) = h :: t /\ t <> []
              /\ last t EmptyString = last (split sep post) EmptyString.
Proof.
  assert (split sep post <> []) as Hne
    by (destruct post as [| c p]; cbn [split]; [discriminate |];
        destruct (Ascii.eqb c sep); [discriminate |];
        destruct (split sep p); discriminate).
  induction pre as [| c pre (h & t & E & Ht & L)]; cbn [String.append split].
  - rewrite Ascii.eqb_refl. eauto.
  - destruct (Ascii.eqb c sep).
    + rewrite E. exists EmptyString, (h :: t). repeat split; [discriminate |].
      cbn [last]. destruct t; [contradiction | exact L].
    + rewrite E. eauto.
Qed.

Section Extension.

Variable input_path : string.

(** The embedded extension never holds a ['.']. *)
Lemma extension_no_dot : has_char "."%char (extension input_path) = false.
Proof.
  unfold extension.
  apply (last_Forall (fun part => has_char "."%char part = false));
    [apply split_parts_no_sep | reflexivity].
Qed.

(** A path without ['.'] is its own extension. *)
Lemma extension_whole :
  has_char "."%char input_path = false -> extension input_path = input_path.
Proof.
  intros H. unfold extension. rewrite split_no_sep by exact H. reflexivity.
Qed.

(** Otherwise the extension is what follows the last ['.']. *)
Lemma extension_suffix (pre post : string) :
  input_path = (pre ++ String "."%char post)%string ->
  has_char "."%char post = false ->
  extension input_path = post.
Proof.
  intros -> H. unfold extension.
  destruct (split_after_sep "."%char post pre) as (h & t & -> & Ht & L).
  cbn [last]. destruct t; [contradiction |].
  rewrite L, split_no_sep by exact H. reflexivity.
Qed.

End Extension.

Lemma byte_of_ascii_dot (c : ascii) :
  byte_of_ascii c = dot -> c = "."%char.
Proof.
  intros H. rewrite <- (ascii_of_byte_of_ascii c), H. reflexivity.
Qed.

Lemma no_dot_bytes (s : string) :
  has_char "."%char s = false -> ~ In dot (list_byte_of_string s).
Proof.
  induction s as [| c s IH]; cbn [has_char]; [intros _ [] |].
  intros H. apply orb_false_iff in H as [Hc Hs].
  change (list_byte_of_string (String c s))
    with (byte_of_ascii c :: list_byte_of_string s).
  intros [E | I]; [| exact (IH Hs I)].
  apply byte_of_ascii_dot in E. subst. discriminate.
Qed.

Lemma rsplit_last_none (sep : byte) (l : list byte) :
  ~ In sep l -> rsplit_last sep l = None.
Proof.
  induction l as [| b l IH]; [reflexivity |]. intros H. cbn [rsplit_last].
  rewrite IH by (intros I; apply H; right; exact I).
  destruct (Byte.eqb b sep) eqn:E; [| reflexivity].
  apply Byte.byte_dec_bl in E. subst. exfalso. apply H. left. reflexivity.
Qed.

(** [rsplit] cuts a frame at the separator [hide] put in. *)
Lemma rsplit1_frame (message ext : list byte) :
  ~ In dot ext -> rsplit1 dot (message ++ [dot] ++ ext) = [message; ext].
Proof.
  intros H. unfold rsplit1.
  assert (rsplit_last dot (message ++ [dot] ++ ext) = Some (message, ext)) as ->;
    [| reflexivity].
  induction message as [| b message IH]; cbn [app rsplit_last].
  - rewrite rsplit_last_none by exact H. reflexivity.
  - cbn [app] in IH. rewrite IH. reflexivity.
Qed.

(* ================================================================= *)
(** ** [hide], then [extract] *)

Lemma chunk_count_ceil (encoded : list byte) :
  5 * Z.of_nat (chunk_count encoded) - 5 < Z.of_nat (List.length encoded)
  /\ Z.of_nat (List.length encoded) <= 5 * Z.of_nat (chunk_count encoded).
Proof.
  unfold chunk_count.
  destruct (data_chunks_spec encoded) as (_ & _ & E).
  destruct (pad_front_spec encoded) as (k & Ep & Hk & _).
  apply (f_equal (@List.length byte)) in Ep.
  rewrite length_app, repeat_length in Ep. lia.
Qed.

Section RoundTrip.

Variable floor_giga : Z -> Z.
Variable rs_encode : list byte -> list byte.
Variable rs_decode : list byte -> result (list byte).

(** After a run that planned [planned], whatever the order in which the
    directory is listed, sorting what the carriers read puts the plan
    first and the untouched carriers last. *)
Lemma hide_encoded_sorted (files : list carrier) (encoded : list byte)
  (offset : nat) (planned : list string) :
  plan (pad_front encoded) = Ok planned ->
  Forall payload_string planned ->
  (offset + List.length planned <= List.length files)%nat ->
  exists store,
    hide_encoded floor_giga files encoded offset = Ok store
    /\ List.length store = List.length files
    /\ get_encoded_int_string store
       = repeat all_nines offset ++ planned
           ++ repeat all_nines (List.length files - offset - List.length planned)
    /\ forall files',
         Permutation files' store ->
         sorted (get_encoded_int_string files')
         = sorted planned
             ++ repeat all_nines (List.length files - List.length planned).
Proof.
  intros Ep Hp Hl.
  destruct (hide_encoded_reads floor_giga files encoded offset planned Ep)
    as (store & Es & Ls & Rs); auto.
  { eapply Forall_impl; [| exact Hp]. apply payload_string_digits17. }
  exists store. repeat split; auto.
  intros files' P.
  rewrite (sorted_window _ planned offset
             (List.length files - offset - List.length planned)); auto.
  - f_equal. f_equal. lia.
  - rewrite <- Rs. unfold get_encoded_int_string.
    apply Permutation_map. exact P.
Qed.

(** Reassembly gives the error-corrected stream back when it has at most
    9997 chunks and does not begin with a zero byte. *)
Lemma reassemble_after_hide (files : list carrier) (b : byte)
  (rest : list byte) (offset : nat) :
  b <> x00 ->
  Z.of_nat (chunk_count (b :: rest)) <= 9997 ->
  (offset + (chunk_count (b :: rest) + 1) <= List.length files)%nat ->
  exists store,
    hide_encoded floor_giga files (b :: rest) offset = Ok store
    /\ forall files',
         Permutation files' store ->
         reassemble (get_encoded_int_string files') = Ok (b :: rest).
Proof.
  intros Hb Hn Hl. unfold chunk_count in *.
  destruct (data_chunks_spec (b :: rest)) as (Hcat & Hc & _).
  destruct (plan_spec (b :: rest)) as [[Hbig _] | (_ & planned & Ep & Hs)];
    [cbn zeta in Hbig; lia |].
  pose proof (plan_shape_length _ _ Hs) as Lp. unfold planned_count in Lp.
  set (chunks := chunk_list (pad_front (b :: rest)) STORABLE_BYTES_PER_FILE) in *.
  assert (Z.of_nat (List.length planned) <= Z.of_nat (List.length chunks) + 1)
    as Lp'.
  { destruct (Z.eqb_spec (Z.of_nat (List.length chunks)) 0); [lia |].
    destruct (Z.eqb_spec (Z.of_nat (List.length chunks)) 9998); lia. }
  destruct (hide_encoded_sorted files (b :: rest) offset planned Ep)
    as (store & Es & _ & _ & Hsorted).
  { apply (plan_shape_strings chunks); auto using exact_chunks_le. }
  { lia. }
  exists store. split; [exact Es |].
  intros files' P. unfold reassemble. rewrite (Hsorted files' P).
  destruct (scan_sorted_plan chunks planned
              (List.length files - List.length planned) Hs Hc)
    as (data & -> & _ & Hd).
  cbn [bind]. rewrite Hd by lia. rewrite Hcat.
  apply trim_pad_front. exact Hb.
Qed.

(** The whole round trip, for a codec that decodes this frame. *)
Lemma extract_after_hide (files : list carrier) (file_data : list byte)
  (input_path output_path : string) (offset : nat) (b : byte)
  (rest : list byte) :
  rs_encode (frame file_data input_path) = b :: rest ->
  b <> x00 ->
  rs_decode (b :: rest) = Ok (frame file_data input_path) ->
  Z.of_nat (chunk_count (b :: rest)) <= 9997 ->
  (offset + (chunk_count (b :: rest) + 1) <= List.length files)%nat ->
  exists store,
    hide floor_giga rs_encode files file_data input_path offset = Ok store
    /\ forall files',
         Permutation files' store ->
         extract rs_decode files' output_path
         = Ok ((output_path ++ "." ++ extension input_path)%string, file_data).
Proof.
  intros Ee Hb Ed Hn Hl. unfold hide. rewrite Ee.
  destruct (reassemble_after_hide files b rest offset Hb Hn Hl)
    as (store & Es & Hr).
  exists store. split; [exact Es |].
  intros files' P. unfold extract. rewrite (Hr files' P). cbn [bind].
  rewrite Ed. cbn [bind]. unfold frame.
  rewrite rsplit1_frame by (apply no_dot_bytes, extension_no_dot).
  cbn [index_list nth_error bind].
  rewrite string_of_list_byte_of_string. reflexivity.
Qed.

End RoundTrip.

(* ================================================================= *)
(** ** Capacity derivation *)

(** C2, as stated, fails: the claim makes [STORABLE_BYTES_PER_FILE] the
    largest byte count whose whole range has at most 12 decimal digits, but
    the constant is 5 and the five-byte value [256^5 - 1 = 1099511627775]
    has 13 digits. *)
Lemma capacity_not_largest_in_12_digits :
  ~ largest_fitting STORABLE_BYTES_PER_FILE (STORABLE_DIGITS_PER_FILE - 1).
Proof.
  intros [H _]. apply range_fits_iff in H; [| cbn; lia].
  vm_compute in H. apply H. reflexivity.
Qed.

(** C2, amended: [STORABLE_BYTES_PER_FILE = int_byte_size(12)] is the bit
    length of [10^12 - 1] divided by eight, which is 5; it is the largest
    byte count whose whole range [0 .. 256^c - 1] has at most [D = 13]
    decimal digits, while the largest one for [D - 1 = 12] digits is 4. *)
Theorem capacity_derivation :
  Z.of_nat STORABLE_BYTES_PER_FILE = bit_length (10 ^ 12 - 1) / 8
  /\ STORABLE_BYTES_PER_FILE = 5%nat
  /\ largest_fitting STORABLE_BYTES_PER_FILE STORABLE_DIGITS_PER_FILE
  /\ largest_fitting 4 (STORABLE_DIGITS_PER_FILE - 1).
Proof.
  split; [reflexivity | split; [reflexivity | split]].
  - apply largest_fitting_intro; vm_compute; (lia || discriminate || reflexivity).
  - apply largest_fitting_intro; vm_compute; (lia || discriminate || reflexivity).
Qed.

(* ================================================================= *)
(** ** Digit codec *)

(** C6, as stated, fails: a sequence shorter than five bytes does not come
    back as itself. *)
Lemma digit_codec_short_sequence :
  decimal_to_bytes (bytes_to_decimal [x01] STORABLE_DIGITS_PER_FILE)
  = Ok [x00; x00; x00; x00; x01]
  /\ decimal_to_bytes (bytes_to_decimal [x01] STORABLE_DIGITS_PER_FILE)
     <> Ok [x01].
Proof. split; [reflexivity | discriminate]. Qed.

(** C6, amended: for every byte sequence [b] of at most
    [STORABLE_BYTES_PER_FILE] bytes, rendering it in 13 digits and converting
    back gives [b] left-padded with zero bytes to five bytes; it gives [b]
    itself when [b] has exactly five bytes. *)
Theorem digit_codec_inverse (b : list byte)
  (Hlen : (List.length b <= STORABLE_BYTES_PER_FILE)%nat) :
  decimal_to_bytes (bytes_to_decimal b STORABLE_DIGITS_PER_FILE)
  = Ok (repeat x00 (STORABLE_BYTES_PER_FILE - List.length b) ++ b)
  /\ (List.length b = STORABLE_BYTES_PER_FILE ->
      decimal_to_bytes (bytes_to_decimal b STORABLE_DIGITS_PER_FILE) = Ok b).
Proof.
  rewrite STORABLE_BYTES_PER_FILE_eq in *.
  assert (decimal_to_bytes (bytes_to_decimal b STORABLE_DIGITS_PER_FILE)
          = Ok (repeat x00 (5 - List.length b) ++ b)) as E.
  { rewrite bytes_to_decimal_render by exact Hlen.
    pose proof (from_bytes_bound b) as Hb.
    rewrite decimal_to_bytes_render by (apply chunk_value_bound; exact Hlen).
    f_equal. unfold int_from_bytes.
    replace 5%nat with ((5 - List.length b) + List.length b)%nat at 1 by lia.
    rewrite to_bytes_digits_zeros by exact Hb.
    rewrite to_bytes_from_bytes. reflexivity. }
  split; [exact E |].
  intros H. rewrite E, H. reflexivity.
Qed.

Lemma digit_codec_inverse_witness :
  (List.length [x01; x02] <= STORABLE_BYTES_PER_FILE)%nat
  /\ decimal_to_bytes (bytes_to_decimal [x01; x02] STORABLE_DIGITS_PER_FILE)
     = Ok (repeat x00 (STORABLE_BYTES_PER_FILE - 2) ++ [x01; x02]).
Proof.
  assert (List.length [x01; x02] <= STORABLE_BYTES_PER_FILE)%nat as H
    by (vm_compute; lia).
  split; [exact H | exact (proj1 (digit_codec_inverse [x01; x02] H))].
Defined.

(* ================================================================= *)
(** ** The data-too-long check *)

Lemma int_error (s : string) (e : error) : int s = Err e -> e = ValueError.
Proof.
  unfold int. destruct s as [| c s]; [congruence |].
  generalize 0. generalize (String c s). clear.
  intros s. induction s as [| c s IH]; intros acc; cbn [int_digits];
    [discriminate |].
  destruct (digit_value c); [apply IH | congruence].
Qed.

Lemma write_file_error (floor_giga : Z -> Z) (file : carrier) (c : string)
  (e : error) :
  write_file floor_giga file c = Err e -> e = ValueError.
Proof.
  unfold write_file, replace_microsecond.
  destruct (int (slice 0 3 c)) eqn:E1; cbn [bind];
    [| intros [= <-]; eapply int_error; exact E1].
  destruct (int (slice 3 10 c)) eqn:E2; cbn [bind];
    [| intros [= <-]; eapply int_error; exact E2].
  destruct (int (slice 10 17 c)) eqn:E3; cbn [bind];
    [| intros [= <-]; eapply int_error; exact E3].
  destruct (_ && _); cbn [bind]; congruence.
Qed.

Lemma write_all_error (floor_giga : Z -> Z) (cs : list string) :
  forall (files : list carrier) (e : error),
    write_all floor_giga files cs = Err e -> e = ValueError \/ e = IndexError.
Proof.
  induction cs as [| c cs IH]; intros files e; cbn [write_all]; [discriminate |].
  destruct files as [| file files]; [intros [= <-]; auto |].
  destruct (write_file floor_giga file c) eqn:Ew; cbn [bind];
    [| intros [= <-]; left; eapply write_file_error; exact Ew].
  destruct (write_all floor_giga files cs) eqn:Ea; cbn [bind];
    [discriminate | intros [= <-]; eapply IH; exact Ea].
Qed.

(** The errors [hide] can end with. *)
Lemma hide_encoded_error (floor_giga : Z -> Z) (files : list carrier)
  (encoded : list byte) (offset : nat) (e : error) :
  hide_encoded floor_giga files encoded offset = Err e ->
  (exists n, 9998 < n /\ e = CapacityExceeded 9998 n)
  \/ (exists need, e = InsufficientCarriers need (Z.of_nat (List.length files)))
  \/ e = ValueError \/ e = IndexError.
Proof.
  unfold hide_encoded.
  destruct (plan_spec encoded) as [[Hn ->] | (_ & planned & -> & _)];
    cbn [bind]; [intros [= <-]; left; eauto |].
  destruct (_ <? _)%nat; [intros [= <-]; right; left; eauto |].
  destruct (baseline_reads floor_giga files) as (baseline & -> & _).
  cbn [bind].
  destruct (write_all floor_giga (skipn offset files) planned) eqn:Ew;
    cbn [bind]; [discriminate |].
  intros [= <-]. right. right. eapply write_all_error. exact Ew.
Qed.

(** C7: a data chunk of exactly [STORABLE_BYTES_PER_FILE] bytes renders in
    at most [STORABLE_DIGITS_PER_FILE = 13] decimal digits, and [hide] never
    ends with the 'Data too long' error. *)
Theorem chunk_never_too_large :
  (forall c : list byte,
      List.length c = STORABLE_BYTES_PER_FILE ->
      len (str (int_from_bytes c)) <= Z.of_nat STORABLE_DIGITS_PER_FILE)
  /\ (forall (floor_giga : Z -> Z) (rs_encode : list byte -> list byte)
        (files : list carrier) (file_data : list byte) (input_path : string)
        (offset : nat) (n : Z),
         hide floor_giga rs_encode files file_data input_path offset
         <> Err (ChunkTooLarge n)).
Proof.
  split.
  - intros c Hc. rewrite STORABLE_BYTES_PER_FILE_eq in Hc.
    pose proof (chunk_fits c ltac:(lia)) as H.
    rewrite Z.gtb_ltb in H. apply Z.ltb_ge in H. exact H.
  - intros floor_giga rs_encode files file_data input_path offset n H.
    apply hide_encoded_error in H
      as [(m & _ & H) | [(need & H) | [H | H]]]; discriminate.
Qed.

Lemma chunk_never_too_large_witness :
  List.length [xff; xff; xff; xff; xff] = STORABLE_BYTES_PER_FILE
  /\ len (str (int_from_bytes [xff; xff; xff; xff; xff]))
     <= Z.of_nat STORABLE_DIGITS_PER_FILE.
Proof.
  assert (List.length [xff; xff; xff; xff; xff] = STORABLE_BYTES_PER_FILE) as H
    by reflexivity.
  split; [exact H | exact (proj1 chunk_never_too_large _ H)].
Defined.

(* ================================================================= *)
(** ** Carrier mapping *)

(** C8: writing a 17-digit decimal string to a carrier puts its first 3
    digits in the creation-time milliseconds and the next 7 and the last 7
    digits in the access and modification times, in units of 100 ns; reading
    the carrier back gives the same string. *)
Theorem write_read_carrier (floor_giga : Z -> Z) (file : carrier) (s : string)
  (Hdigits : is_digits s = true) (Hlen : String.length s = 17%nat) :
  exists (file' : carrier) (ms a m : Z),
    int (slice 0 3 s) = Ok ms /\ int (slice 3 10 s) = Ok a
    /\ int (slice 10 17 s) = Ok m
    /\ write_file floor_giga file s = Ok file'
    /\ microsecond (ctimestamp file') = ms * 1000
    /\ atime_ns file' mod 1000000000 = a * 100
    /\ mtime_ns file' mod 1000000000 = m * 100
    /\ read_file file' = s.
Proof.
  destruct (proj2 (digits17_iff s) (conj Hdigits Hlen)) as (v & Hv & ->).
  destruct (split_3_7_7 v Hv) as (ms & a & m & Hms & Ha & Hm & ->).
  destruct (slices_3_7_7 (render 3 ms) (render 7 a) (render 7 m))
    as (-> & -> & ->); try apply length_render.
  rewrite !int_render by (auto; lia).
  eexists _, ms, a, m.
  repeat (split; [reflexivity |]).
  assert (forall k x : Z,
             0 <= x < 10 ^ 7 -> (k * 1000000000 + x * 100) mod 1000000000 = x * 100)
    as Hmod.
  { intros k x Hx. rewrite Z.add_comm, Z.mod_add by lia.
    apply Z.mod_small. lia. }
  split; [apply write_fields; assumption |].
  split; [reflexivity |].
  split; [apply Hmod; assumption |].
  split; [apply Hmod; assumption |].
  apply read_fields; assumption.
Qed.

Lemma write_read_carrier_witness :
  is_digits "00420013663103342" = true
  /\ String.length "00420013663103342" = 17%nat
  /\ exists (file' : carrier) (ms a m : Z),
       int (slice 0 3 "00420013663103342") = Ok ms
       /\ int (slice 3 10 "00420013663103342") = Ok a
       /\ int (slice 10 17 "00420013663103342") = Ok m
       /\ write_file exact_floor_giga sample_carrier "00420013663103342"
          = Ok file'
       /\ microsecond (ctimestamp file') = ms * 1000
       /\ atime_ns file' mod 1000000000 = a * 100
       /\ mtime_ns file' mod 1000000000 = m * 100
       /\ read_file file' = "00420013663103342".
Proof.
  split; [reflexivity | split; [reflexivity |]].
  exact (write_read_carrier exact_floor_giga sample_carrier
           "00420013663103342" eq_refl eq_refl).
Defined.

(* ================================================================= *)
(** ** Round trip *)

(** C1, as stated, fails: a payload that begins with a zero byte loses it.
    [RSCodec] is systematic, so the stream begins with that zero byte, and
    the trimming loop of [extract] removes it together with the padding; what
    is left is the codeword of the shorter message, which the decoder accepts
    without any repair. *)
Lemma round_trip_loses_leading_zero :
  exists store,
    hide exact_floor_giga rs50_encode (sample_pool 20) [x00; x02; x03]
      "dir/x.bin" 0 = Ok store
    /\ forall correct_errata : list byte -> result (list byte),
         extract (ReedSolo.decode ERROR_CORRECTING_BYTES correct_errata)
           store "out" = Ok ("out.bin", [x02; x03])
         /\ extract (ReedSolo.decode ERROR_CORRECTING_BYTES correct_errata)
              store "out" <> Ok ("out.bin", [x00; x02; x03]).
Proof.
  eexists. split; [vm_compute; reflexivity |].
  intros correct_errata.
  assert (forall r : result (string * list byte),
             r = Ok ("out.bin", [x02; x03]) ->
             r = Ok ("out.bin", [x02; x03])
             /\ r <> Ok ("out.bin", [x00; x02; x03])) as H
    by (intros r ->; split; [reflexivity | discriminate]).
  apply H. vm_compute. reflexivity.
Qed.

(** C1, amended: for every payload and input path such that the
    error-corrected stream does not begin with a zero byte and has at most
    9997 chunks, and the codec decodes that stream to the frame it encoded,
    [hide] succeeds on a pool of at least one more carrier than chunks, and
    [extract], run on the directory it leaves (listed in any order), writes
    exactly the payload bytes to the output path suffixed with ['.'] and the
    extension of the input path. *)
Theorem round_trip (floor_giga : Z -> Z) (rs_encode : list byte -> list byte)
  (rs_decode : list byte -> result (list byte)) (files : list carrier)
  (file_data : list byte) (input_path output_path : string) (offset : nat)
  (b : byte)
  (Hhead : hd_error (rs_encode (frame file_data input_path)) = Some b)
  (Hnonzero : b <> x00)
  (Hcodec : rs_decode (rs_encode (frame file_data input_path))
            = Ok (frame file_data input_path))
  (Hchunks : Z.of_nat (chunk_count (rs_encode (frame file_data input_path)))
             <= 9997)
  (Hpool : (offset + (chunk_count (rs_encode (frame file_data input_path)) + 1)
            <= List.length files)%nat) :
  exists store,
    hide floor_giga rs_encode files file_data input_path offset = Ok store
    /\ forall files',
         Permutation files' store ->
         extract rs_decode files' output_path
         = Ok ((output_path ++ "." ++ extension input_path)%string, file_data).
Proof.
  destruct (rs_encode (frame file_data input_path)) as [| b' rest] eqn:E;
    [discriminate |].
  injection Hhead as ->.
  apply (extract_after_hide floor_giga rs_encode rs_decode files file_data
           input_path output_path offset b rest); assumption.
Qed.

Lemma round_trip_witness :
  exists store,
    hide exact_floor_giga rs50_encode (sample_pool 20) [x01; x02; x03]
      "dir/x.bin" 2 = Ok store
    /\ forall files',
         Permutation files' store ->
         extract rs50_decode files' "out" = Ok ("out.bin", [x01; x02; x03]).
Proof.
  assert (chunk_count (rs50_encode (frame [x01; x02; x03] "dir/x.bin")) = 12%nat)
    as Hn by (vm_compute; reflexivity).
  apply (round_trip exact_floor_giga rs50_encode rs50_decode (sample_pool 20)
           [x01; x02; x03] "dir/x.bin" "out" 2 x01).
  - vm_compute. reflexivity.
  - discriminate.
  - vm_compute. reflexivity.
  - rewrite Hn. lia.
  - rewrite Hn. cbn. lia.
Defined.

(* ================================================================= *)
(** ** Untouched carriers *)

(** C9: after [hide], every carrier outside the written window reads back as
    the all-nines string; every planned digit string (index field 0000 for
    an index record, at most 9997 for a data record) is strictly below it;
    so, however the directory is listed afterwards, the untouched carriers
    sort after the payload strings and the extraction loop takes no bytes
    from them. *)
Theorem untouched_carriers_sort_last (floor_giga : Z -> Z)
  (rs_encode : list byte -> list byte) (files : list carrier)
  (file_data : list byte) (input_path : string) (offset : nat)
  (planned : list string) (store : list carrier)
  (Hplan : plan (pad_front (rs_encode (frame file_data input_path))) = Ok planned)
  (Hoffset : (offset + List.length planned <= List.length files)%nat)
  (Hhide : hide floor_giga rs_encode files file_data input_path offset = Ok store) :
  get_encoded_int_string store
  = repeat all_nines offset ++ planned
      ++ repeat all_nines (List.length files - offset - List.length planned)
  /\ Forall (fun s => payload_string s /\ str_lt s all_nines) planned
  /\ forall files',
       Permutation files' store ->
       sorted (get_encoded_int_string files')
       = sorted planned
           ++ repeat all_nines (List.length files - List.length planned)
       /\ scan (sorted (get_encoded_int_string files')) false 0 []
          = scan (sorted planned) false 0 [].
Proof.
  set (encoded := rs_encode (frame file_data input_path)) in *.
  destruct (data_chunks_spec encoded) as (_ & Hc & _).
  destruct (plan_spec encoded) as [[_ E] | (_ & planned' & E & Hs)];
    rewrite Hplan in E; [discriminate |].
  injection E as <-.
  pose proof (plan_shape_strings _ _ (exact_chunks_le _ Hc) Hs) as Hp.
  destruct (hide_encoded_sorted floor_giga files encoded offset planned
              Hplan Hp Hoffset) as (store' & Es & _ & Er & Hsorted).
  unfold hide in Hhide. fold encoded in Hhide. rewrite Es in Hhide.
  injection Hhide as ->.
  split; [exact Er | split].
  - eapply Forall_impl; [| exact Hp].
    intros s H. split; [exact H | apply payload_string_lt_nines; exact H].
  - intros files' P. rewrite (Hsorted files' P). split; [reflexivity |].
    destruct (scan_sorted_plan _ planned
                (List.length files - List.length planned) Hs Hc)
      as (data & -> & -> & _).
    reflexivity.
Qed.

Lemma untouched_carriers_sort_last_witness :
  get_encoded_int_string sample_store
  = repeat all_nines 2 ++ sample_plan ++ repeat all_nines 5
  /\ Forall (fun s => payload_string s /\ str_lt s all_nines) sample_plan
  /\ forall files',
       Permutation files' sample_store ->
       sorted (get_encoded_int_string files')
       = sorted sample_plan ++ repeat all_nines 7
       /\ scan (sorted (get_encoded_int_string files')) false 0 []
          = scan (sorted sample_plan) false 0 [].
Proof.
  assert (plan (pad_front (rs50_encode (frame [x01; x02; x03] "dir/x.bin")))
          = Ok sample_plan) as Hplan by (vm_compute; reflexivity).
  assert (List.length sample_plan = 13%nat) as Hlen by (vm_compute; reflexivity).
  assert (2 + List.length sample_plan <= List.length (sample_pool 20))%nat
    as Hoffset by (rewrite Hlen; cbn; lia).
  assert (hide exact_floor_giga rs50_encode (sample_pool 20) [x01; x02; x03]
            "dir/x.bin" 2 = Ok sample_store) as Hhide
    by (vm_compute; reflexivity).
  pose proof (untouched_carriers_sort_last exact_floor_giga rs50_encode
                (sample_pool 20) [x01; x02; x03] "dir/x.bin" 2 sample_plan
                sample_store Hplan Hoffset Hhide) as H.
  rewrite Hlen in H. exact H.
Defined.

(* ================================================================= *)
(** ** A directory without an index record *)

Lemma scan_without_start (strings : list string) :
  Forall (fun s => exists i : Z,
              int (slice 0 DIGITS_FOR_INDEX s) = Ok i /\ i <> 0) strings ->
  scan strings false 0 [] = Ok [].
Proof.
  induction 1 as [| s strings (i & E & Hi) F IH]; [reflexivity |].
  cbn [scan]. rewrite E. cbn [bind].
  destruct (Z.eqb_spec i 0); [contradiction |]. exact IH.
Qed.

(** C5, as stated, fails: on a directory without an index record [extract]
    ends with a bare [IndexError], not with an error that names the
    constraint. *)
Lemma no_index_record_error_unnamed :
  ~ exists e : error,
      extract rs50_decode (sample_pool 3) "out" = Err e
      /\ names_constraint e = true.
Proof.
  intros (e & H & Hn). vm_compute in H. injection H as <-. discriminate Hn.
Qed.

(** C5, amended: when no carrier of the directory reads back with index
    field 0000, [extract] assembles no bytes and fails with the [IndexError]
    that the trimming loop raises on the empty buffer, whatever the codec;
    the error reaches the caller, without a message of the program. *)
Theorem extract_without_index_record
  (rs_decode : list byte -> result (list byte)) (files : list carrier)
  (output_path : string) (Hnone : Forall no_index_record files) :
  extract rs_decode files output_path = Err IndexError
  /\ names_constraint IndexError = false.
Proof.
  split; [| reflexivity].
  unfold extract, reassemble. rewrite scan_without_start; [reflexivity |].
  eapply Permutation_Forall; [apply sorted_permutation |].
  unfold get_encoded_int_string. apply Forall_map. exact Hnone.
Qed.

Lemma extract_without_index_record_witness :
  Forall no_index_record (sample_pool 3)
  /\ extract rs50_decode (sample_pool 3) "out" = Err IndexError.
Proof.
  assert (Forall no_index_record (sample_pool 3)) as H
    by (unfold sample_pool; cbn [repeat];
        repeat (apply Forall_cons;
                [exists 1231; split; [reflexivity | discriminate] |]);
        apply Forall_nil).
  split; [exact H |].
  exact (proj1 (extract_without_index_record rs50_decode (sample_pool 3) "out" H)).
Defined.

(* ================================================================= *)
(** ** The Reed-Solomon stream *)

(** The encoder on a known vector, and the syndromes of its output. *)
Lemma rs_encode_msg_known_vector :
  map byte_val (ReedSolo.rs_encode_msg (map byte_of_Z known_message) 10)
  = known_message ++ known_parity
  /\ ReedSolo.rs_calc_syndromes
       (ReedSolo.rs_encode_msg (map byte_of_Z known_message) 10) 10
     = repeat 0 10.
Proof. split; vm_compute; reflexivity. Qed.

Lemma length_gf_poly_add_tail (p q : list Z) :
  List.length (ReedSolo.gf_poly_add_tail p q) = List.length p.
Proof.
  revert q. induction p as [| a p IH]; intros [| b q]; cbn; auto.
Qed.

Lemma length_divide (steps : nat) :
  forall msg_out gen_tail : list Z,
    (steps <= List.length msg_out)%nat ->
    List.length (ReedSolo.divide steps msg_out gen_tail)
    = (List.length msg_out - steps)%nat.
Proof.
  induction steps as [| k IH]; intros msg_out gen_tail H; cbn [ReedSolo.divide].
  - lia.
  - destruct msg_out as [| coef rest]; [cbn in H; lia |].
    rewrite IH; rewrite length_gf_poly_add_tail; cbn [List.length] in *; lia.
Qed.

Lemma length_rs_encode_msg (msg_in : list byte) (nsym : nat) :
  List.length (ReedSolo.rs_encode_msg msg_in nsym)
  = (List.length msg_in + nsym)%nat.
Proof.
  unfold ReedSolo.rs_encode_msg.
  rewrite length_app, length_map, length_divide;
    rewrite length_app, length_map, repeat_length; lia.
Qed.

Lemma chunk_list_from_count (n : nat) (Hn : (1 <= n)%nat) (fuel : nat) :
  forall (A : Type) (l : list A),
    (List.length l <= fuel)%nat ->
    List.concat (chunk_list_from fuel l n) = l
    /\ Z.of_nat (List.length (chunk_list_from fuel l n))
       = (Z.of_nat (List.length l) + Z.of_nat n - 1) / Z.of_nat n.
Proof.
  induction fuel as [| f IH]; intros A l Hf.
  - destruct l; [| cbn in Hf; lia]. cbn. split; [reflexivity |].
    symmetry. apply Z.div_small. lia.
  - cbn [chunk_list_from]. destruct l as [| a l'] eqn:El.
    + cbn. split; [reflexivity |]. symmetry. apply Z.div_small. lia.
    + rewrite <- El in *.
      assert (1 <= List.length l)%nat as Hl by (subst; cbn; lia).
      destruct (IH A (skipn n l)) as [H1 H2]; [rewrite length_skipn; lia |].
      cbn [List.concat List.length]. split.
      * rewrite H1. apply firstn_skipn.
      * rewrite Nat2Z.inj_succ, H2, length_skipn.
        destruct (Nat.le_gt_cases n (List.length l)) as [Hge | Hlt].
        -- rewrite Nat2Z.inj_sub by exact Hge.
           replace (Z.of_nat (List.length l) + Z.of_nat n - 1)
             with (Z.of_nat (List.length l) - Z.of_nat n + Z.of_nat n - 1
                   + 1 * Z.of_nat n) by lia.
           rewrite Z.div_add by lia. lia.
        -- replace (List.length l - n)%nat with O by lia.
           rewrite (Z.div_small (Z.of_nat 0 + Z.of_nat n - 1)) by lia.
           change (Z.succ 0) with 1.
           apply (Z.div_unique _ _ _ (Z.of_nat (List.length l) - 1));
             [left; lia | lia].
Qed.

Lemma length_concat_map_add {A : Type} (f : list A -> list A) (nsym : nat)
  (chunks : list (list A)) :
  (forall c, List.length (f c) = (List.length c + nsym)%nat) ->
  List.length (List.concat (map f chunks))
  = (List.length (List.concat chunks) + nsym * List.length chunks)%nat.
Proof.
  intros Hf. induction chunks as [| c chunks IH]; [cbn; lia |].
  cbn [map List.concat List.length]. rewrite !length_app, IH, Hf. lia.
Qed.

(** [RSCodec(nsym).encode] adds [nsym] bytes to every block of
    [255 - nsym] message bytes. *)
Lemma length_rs_encode (nsym : nat) (data : list byte) :
  (nsym < 255)%nat ->
  Z.of_nat (List.length (ReedSolo.encode nsym data))
  = Z.of_nat (List.length data)
    + Z.of_nat nsym
      * ((Z.of_nat (List.length data) + Z.of_nat (255 - nsym) - 1)
         / Z.of_nat (255 - nsym)).
Proof.
  intros Hn. unfold ReedSolo.encode, chunk_list.
  destruct (chunk_list_from_count (255 - nsym) ltac:(lia) (List.length data)
              byte data (le_n _)) as [H1 H2].
  rewrite (length_concat_map_add _ nsym)
    by (intros c; apply length_rs_encode_msg).
  rewrite H1, Nat2Z.inj_add, Nat2Z.inj_mul, H2. reflexivity.
Qed.

Lemma length_rs50_encode (data : list byte) :
  Z.of_nat (List.length (rs50_encode data))
  = Z.of_nat (List.length data)
    + 50 * ((Z.of_nat (List.length data) + 204) / 205).
Proof.
  unfold rs50_encode, ERROR_CORRECTING_BYTES.
  rewrite length_rs_encode by lia.
  change (Z.of_nat 50) with 50. change (Z.of_nat (255 - 50)) with 205.
  f_equal. f_equal. f_equal. lia.
Qed.

(** With [RSCodec(50)] no message gives a stream of 9997 to 10006 chunks:
    a stream has [m + 50 * ceil(m / 205)] bytes, which is never between
    49981 and 50030. *)
Lemma rs50_chunk_count_gap (data : list byte) :
  Z.of_nat (chunk_count (rs50_encode data)) <= 9996
  \/ 10007 <= Z.of_nat (chunk_count (rs50_encode data)).
Proof.
  pose proof (chunk_count_ceil (rs50_encode data)) as [H1 H2].
  pose proof (length_rs50_encode data) as HL.
  lia_mod.
Qed.

(* ================================================================= *)
(** ** Capacity *)

Lemma length_frame (file_data : list byte) (input_path : string) :
  List.length (frame file_data input_path)
  = (List.length file_data + 1
     + List.length (list_byte_of_string (extension input_path)))%nat.
Proof. unfold frame. rewrite !length_app. cbn [List.length]. lia. Qed.

Lemma rs50_chunk_count_large (data : list byte) :
  Z.of_nat (List.length data) = 40181 ->
  Z.of_nat (chunk_count (rs50_encode data)) = 10007.
Proof.
  intros Hf.
  pose proof (chunk_count_ceil (rs50_encode data)) as [H1 H2].
  pose proof (length_rs50_encode data) as HL.
  rewrite Hf in HL. change ((40181 + 204) / 205) with 197 in HL. lia.
Qed.

Lemma hide_capacity_exceeded (floor_giga : Z -> Z)
  (rs_encode : list byte -> list byte) (files : list carrier)
  (file_data : list byte) (input_path : string) (offset : nat) (n : Z) :
  Z.of_nat (chunk_count (rs_encode (frame file_data input_path))) = n ->
  9998 < n ->
  hide floor_giga rs_encode files file_data input_path offset
  = Err (CapacityExceeded 9998 n).
Proof.
  intros Hn Hbig. unfold hide, chunk_count in *.
  destruct (plan_spec (rs_encode (frame file_data input_path)))
    as [[_ E] | [H _]]; cbn zeta in *; [| lia].
  unfold hide_encoded. rewrite E, Hn. reflexivity.
Qed.

(** C3, as stated, fails: a payload of 40177 bytes named [x.bin] makes a
    stream of 10007 chunks; the bound asks for 10009 carriers, the pool has
    20000, and [hide] fails on the global check. *)
Lemma capacity_bound_fails_above_cap :
  Z.of_nat (chunk_count (rs50_encode (frame large_payload "x.bin"))) = 10007
  /\ claimed_carriers 10007 <= Z.of_nat (List.length large_pool)
  /\ hide exact_floor_giga rs50_encode large_pool large_payload "x.bin" 0
     = Err (CapacityExceeded 9998 10007).
Proof.
  assert (Z.of_nat (chunk_count (rs50_encode (frame large_payload "x.bin")))
          = 10007) as Hn.
  { apply rs50_chunk_count_large. rewrite length_frame.
    unfold large_payload. rewrite repeat_length.
    change (List.length (list_byte_of_string (extension "x.bin"))) with 3%nat.
    lia. }
  split; [exact Hn | split].
  - unfold large_pool, sample_pool. rewrite repeat_length.
    change (claimed_carriers 10007) with 10009. lia.
  - apply hide_capacity_exceeded; [exact Hn | lia].
Qed.

(** C3, amended: for a payload whose error-corrected stream has [N] chunks
    with [N <= 9997], [hide] succeeds if and only if there are at least
    [N + ceil(N / 9998)] carriers (that is [N + 1] for [N >= 1]), and fails
    with [InsufficientCarriers] otherwise; for [N > 9998] it fails with
    [CapacityExceeded] whatever the number of carriers; and whenever it
    fails, it fails with one of these two errors. *)
Theorem capacity_bound (floor_giga : Z -> Z)
  (rs_encode : list byte -> list byte) (files : list carrier)
  (file_data : list byte) (input_path : string) (offset : nat)
  (Hoffset : forall planned,
      plan (pad_front (rs_encode (frame file_data input_path))) = Ok planned ->
      (List.length planned <= List.length files)%nat ->
      (offset + List.length planned <= List.length files)%nat) :
  let n := Z.of_nat (chunk_count (rs_encode (frame file_data input_path))) in
  let found := Z.of_nat (List.length files) in
  let outcome := hide floor_giga rs_encode files file_data input_path offset in
  (n <= 9997 ->
   ((exists store, outcome = Ok store) <-> claimed_carriers n <= found))
  /\ (n <= 9997 -> found < claimed_carriers n ->
      outcome = Err (InsufficientCarriers (claimed_carriers n) found))
  /\ (9998 < n -> outcome = Err (CapacityExceeded 9998 n))
  /\ (forall e, outcome = Err e ->
        (9998 < n /\ e = CapacityExceeded 9998 n)
        \/ (n <= 9998
            /\ exists need, found < need /\ e = InsufficientCarriers need found)).
Proof.
  cbn zeta. unfold hide, chunk_count.
  set (encoded := rs_encode (frame file_data input_path)) in *.
  destruct (data_chunks_spec encoded) as (_ & Hc & _).
  destruct (plan_spec encoded) as [[Hn E] | (Hn & planned & E & Hs)];
    cbn zeta in Hn;
    set (n := Z.of_nat (List.length
                          (chunk_list (pad_front encoded) STORABLE_BYTES_PER_FILE)))
      in *.
  - unfold hide_encoded. rewrite E. cbn [bind].
    repeat split; try (intros; lia); try reflexivity.
    intros e [= <-]. left. split; [exact Hn | reflexivity].
  - pose proof (plan_shape_length _ _ Hs) as Lp. fold n in Lp.
    assert (n <= 9997 -> planned_count n = claimed_carriers n) as Hcc.
    { intros Hle. unfold planned_count, claimed_carriers.
      rewrite INDEX_LIMIT_eq.
      destruct (Z.eqb_spec n 0) as [-> | H0]; [reflexivity |].
      destruct (Z.eqb_spec n 9998); [lia |]. unfold n in *. lia_mod. }
    pose proof (plan_shape_strings _ _ (exact_chunks_le _ Hc) Hs) as Hp.
    assert (Forall digits17 planned) as Hd
      by (eapply Forall_impl; [| exact Hp]; apply payload_string_digits17).
    destruct (Nat.ltb_spec (List.length files) (List.length planned)) as [Hlt | Hge].
    + assert (hide_encoded floor_giga files encoded offset
              = Err (InsufficientCarriers (Z.of_nat (List.length planned))
                       (Z.of_nat (List.length files)))) as Eh.
      { unfold hide_encoded. rewrite E. cbn [bind].
        destruct (Nat.ltb_spec (List.length files) (List.length planned));
          [reflexivity | lia]. }
      rewrite Eh. repeat split.
      * intros (store & Hst). discriminate.
      * intros H'. rewrite <- Hcc, <- Lp in H' by assumption. lia.
      * intros H1 H2. rewrite <- Hcc, <- Lp by assumption. reflexivity.
      * intros; lia.
      * intros e [= <-]. right. split; [exact Hn |].
        eexists. split; [| reflexivity]. lia.
    + destruct (hide_encoded_reads floor_giga files encoded offset planned E Hd)
        as (store & Eh & _); [apply Hoffset; auto |].
      rewrite Eh. repeat split.
      * intros _. rewrite <- Hcc, <- Lp by assumption. lia.
      * intros _. eauto.
      * intros H1 H2. rewrite <- Hcc, <- Lp in H2 by assumption. lia.
      * intros; lia.
      * discriminate.
Qed.

Lemma Ok_inj {A : Type} (a b : A) : Ok a = Ok b -> a = b.
Proof. intros H. injection H as ->. reflexivity. Qed.

Lemma capacity_bound_witness :
  (exists store,
      hide exact_floor_giga rs50_encode (sample_pool 20) [x01; x02; x03]
        "dir/x.bin" 2 = Ok store)
  <-> claimed_carriers 12 <= 20.
Proof.
  assert (plan (pad_front (rs50_encode (frame [x01; x02; x03] "dir/x.bin")))
          = Ok sample_plan) as Hplan by (vm_compute; reflexivity).
  assert (List.length sample_plan = 13%nat) as Hlen by (vm_compute; reflexivity).
  assert (forall planned,
             plan (pad_front (rs50_encode (frame [x01; x02; x03] "dir/x.bin")))
             = Ok planned ->
             (List.length planned <= List.length (sample_pool 20))%nat ->
             (2 + List.length planned <= List.length (sample_pool 20))%nat)
    as Hoffset.
  { intros planned E _. rewrite Hplan in E. apply Ok_inj in E. subst planned.
    rewrite Hlen. unfold sample_pool. rewrite repeat_length. lia. }
  assert (Z.of_nat (chunk_count (rs50_encode (frame [x01; x02; x03] "dir/x.bin")))
          = 12) as Hn by (vm_compute; reflexivity).
  pose proof (capacity_bound exact_floor_giga rs50_encode (sample_pool 20)
                [x01; x02; x03] "dir/x.bin" 2 Hoffset) as H.
  cbv zeta in H. destruct H as (H & _).
  rewrite Hn in H. unfold sample_pool in H at 2. rewrite repeat_length in H.
  apply H. lia.
Defined.

(* ================================================================= *)
(** ** The order of the planned strings *)

(** Up to 9997 chunks the plan is strictly ascending, so sorting what the
    carriers read gives the plan back, wherever the window was placed. *)
Lemma plan_ascending (encoded : list byte) :
  1 <= Z.of_nat (chunk_count encoded) <= 9997 ->
  exists planned,
    plan (pad_front encoded) = Ok planned
    /\ StronglySorted str_lt planned
    /\ sorted planned = planned
    /\ Z.of_nat (List.length planned) = Z.of_nat (chunk_count encoded) + 1.
Proof.
  intros Hn. unfold chunk_count in *.
  destruct (data_chunks_spec encoded) as (_ & Hc & _).
  destruct (plan_spec encoded) as [[H _] | (_ & planned & E & Hs)];
    cbn zeta in *; [lia |].
  exists planned. split; [exact E |].
  destruct Hs as [Hs | Hs | front d Hs Hf].
  - rewrite Hs in Hn. cbn in Hn. lia.
  - assert (StronglySorted str_lt
              (record 0 (Z.of_nat (List.length
                 (chunk_list (pad_front encoded) STORABLE_BYTES_PER_FILE)))
                 :: data_records 1
                      (chunk_list (pad_front encoded) STORABLE_BYTES_PER_FILE)))
      as Hss by (apply single_plan_sorted; auto using exact_chunks_le; lia).
    split; [exact Hss | split; [apply sorted_ascending; exact Hss |]].
    cbn [List.length]. rewrite length_data_records. lia.
  - rewrite Hs, length_app in Hn. cbn [List.length] in Hn. lia.
Qed.

(** A stream of exactly 9998 chunks passes the global check, and its plan
    holds a second index record, counting zero chunks, before the last
    chunk. *)
Lemma plan_full_window (encoded : list byte) :
  Z.of_nat (chunk_count encoded) = 9998 ->
  exists front d,
    chunk_list (pad_front encoded) STORABLE_BYTES_PER_FILE = front ++ [d]
    /\ Z.of_nat (List.length front) = 9997
    /\ plan (pad_front encoded)
       = Ok (record 0 9998 :: data_records 1 front
               ++ [record 0 0; record 1 (int_from_bytes d)]).
Proof.
  intros Hn. unfold chunk_count in *.
  destruct (plan_spec encoded) as [[H _] | (_ & planned & E & Hs)];
    cbn zeta in *; [lia |].
  destruct Hs as [Hs | Hs | front d Hs Hf].
  - rewrite Hs in Hn. cbn in Hn. lia.
  - lia.
  - exists front, d. auto.
Qed.

Lemma full_plan_not_ascending (front : list (list byte)) (d : list byte) :
  let planned := record 0 9998 :: data_records 1 front
                   ++ [record 0 0; record 1 (int_from_bytes d)] in
  ~ StronglySorted leb_rel planned.
Proof.
  cbn zeta. intros H. inversion H as [| ? ? _ F]; subst.
  apply Forall_app in F as [_ F]. inversion F as [| ? ? Hle _]; subst.
  vm_compute in Hle. discriminate Hle.
Qed.

(** The loop on its own, given a stream of 9998 chunks (which the capacity
    check would let through): an index record counting 9998, the data
    records 0001 to 9997, a second index record counting zero, and the last
    chunk under index 0001 again.  No stream of [RSCodec(50)] has that many
    chunks ([rs50_chunk_count_gap]), so [hide] never plans this. *)
Lemma full_window_plan_unsorted :
  Z.of_nat (chunk_count full_stream) = 9998
  /\ exists (front : list (list byte)) (d : list byte),
       Z.of_nat (List.length front) = 9997
       /\ let planned := record 0 9998 :: data_records 1 front
                           ++ [record 0 0; record 1 (int_from_bytes d)] in
          plan (pad_front full_stream) = Ok planned
          /\ Z.of_nat (List.length planned) = 10000
          /\ ~ StronglySorted str_lt planned
          /\ sorted planned <> planned.
Proof.
  assert (Z.of_nat (chunk_count full_stream) = 9998) as Hn.
  { pose proof (chunk_count_ceil full_stream) as [H1 H2].
    unfold full_stream in H1, H2. rewrite repeat_length in H1, H2.
    fold full_stream in H1, H2. lia. }
  split; [exact Hn |].
  destruct (plan_full_window full_stream Hn) as (front & d & Ec & Lf & Ep).
  exists front, d. split; [exact Lf |]. cbv zeta. split; [exact Ep |].
  pose proof (full_plan_not_ascending front d) as Hns. cbv zeta in Hns.
  split; [| split].
  - cbn [List.length]. rewrite length_app, length_data_records.
    cbn [List.length]. lia.
  - intros H. apply Hns. apply strongly_sorted_weaken. exact H.
  - intros H. apply Hns. rewrite <- H. apply sorted_strongly.
Qed.

(** C4: whenever the planning step of [hide] succeeds on the stream of a
    payload (the frame encoded by [RSCodec(50)], within capacity), the
    stream has 1 to 9996 chunks and the planned strings are strictly
    increasing: the index record, with index field 0000 and the number of
    chunks, then the data records by ascending index from 0001 on; sorting
    them changes nothing, and wherever the window is placed in a pool with
    room for it, sorting what the carriers read back, in any listing
    order, gives the strings in the order they were written, followed by
    the untouched carriers. *)
Theorem plan_strictly_ascending (file_data : list byte) (input_path : string)
  (planned : list string)
  (Hplan : plan (pad_front (rs50_encode (frame file_data input_path)))
           = Ok planned) :
  1 <= Z.of_nat (chunk_count (rs50_encode (frame file_data input_path))) <= 9996
  /\ planned
     = record 0 (Z.of_nat (chunk_count (rs50_encode (frame file_data input_path))))
         :: data_records 1
              (chunk_list (pad_front (rs50_encode (frame file_data input_path)))
                 STORABLE_BYTES_PER_FILE)
  /\ StronglySorted str_lt planned
  /\ sorted planned = planned
  /\ forall (floor_giga : Z -> Z) (files : list carrier) (offset : nat),
       (offset + List.length planned <= List.length files)%nat ->
       exists store,
         hide floor_giga rs50_encode files file_data input_path offset = Ok store
         /\ get_encoded_int_string store
            = repeat all_nines offset ++ planned
                ++ repeat all_nines
                     (List.length files - offset - List.length planned)
         /\ forall files',
              Permutation files' store ->
              sorted (get_encoded_int_string files')
              = planned
                  ++ repeat all_nines (List.length files - List.length planned).
Proof.
  set (stream := rs50_encode (frame file_data input_path)) in *.
  pose proof (chunk_count_ceil stream) as [Hlow Hhigh].
  pose proof (length_rs50_encode (frame file_data input_path)) as HL.
  pose proof (length_frame file_data input_path) as HF.
  fold stream in HL.
  assert (1 <= Z.of_nat (chunk_count stream)) as Hone by lia_mod.
  assert (Z.of_nat (chunk_count stream) <= 9996) as Hcap.
  { destruct (rs50_chunk_count_gap (frame file_data input_path)) as [H | H];
      fold stream in H; [exact H |].
    unfold chunk_count in H.
    destruct (plan_spec stream) as [[_ E] | [Hn _]]; cbn zeta in *;
      [rewrite E in Hplan; discriminate | lia]. }
  split; [lia |].
  unfold chunk_count in *.
  destruct (data_chunks_spec stream) as (_ & Hc & _).
  destruct (plan_spec stream) as [[_ E] | (_ & planned' & E & Hs)];
    cbn zeta in *; [rewrite E in Hplan; discriminate |].
  rewrite E in Hplan. apply Ok_inj in Hplan. subst planned'.
  set (chunks := chunk_list (pad_front stream) STORABLE_BYTES_PER_FILE) in *.
  pose proof (plan_shape_strings chunks planned (exact_chunks_le chunks Hc) Hs)
    as Hp.
  assert (planned = record 0 (Z.of_nat (List.length chunks))
                      :: data_records 1 chunks) as Eplanned.
  { destruct Hs as [Hs | Hs | front d Hs Hf]; [| reflexivity |].
    - rewrite Hs in Hone. cbn in Hone. lia.
    - rewrite Hs, length_app in Hcap. cbn [List.length] in Hcap. lia. }
  assert (StronglySorted str_lt planned) as Hss.
  { rewrite Eplanned.
    apply single_plan_sorted; auto using exact_chunks_le; lia. }
  pose proof (sorted_ascending planned Hss) as Hsorted.
  split; [exact Eplanned | split; [exact Hss | split; [exact Hsorted |]]].
  intros floor_giga files offset Hroom.
  destruct (hide_encoded_sorted floor_giga files stream offset planned E Hp Hroom)
    as (store & Es & _ & Hr & Hperm).
  exists store. split; [exact Es | split; [exact Hr |]].
  intros files' P. rewrite (Hperm files' P), Hsorted. reflexivity.
Qed.

Lemma plan_strictly_ascending_witness :
  plan (pad_front (rs50_encode (frame [x01; x02; x03] "dir/x.bin")))
  = Ok sample_plan
  /\ StronglySorted str_lt sample_plan
  /\ sorted sample_plan = sample_plan.
Proof.
  assert (plan (pad_front (rs50_encode (frame [x01; x02; x03] "dir/x.bin")))
          = Ok sample_plan) as H by (vm_compute; reflexivity).
  destruct (plan_strictly_ascending [x01; x02; x03] "dir/x.bin" sample_plan H)
    as (_ & _ & Hss & Hsorted & _).
  split; [exact H | split; [exact Hss | exact Hsorted]].
Defined.

(* ================================================================= *)
(** ** The embedded extension *)

(** C10: the extension [hide] embeds is what follows the last ['.'] of the
    whole input path, and the whole path (directories included) when it has
    no ['.']; it holds no ['.'], is put after the separator in the frame,
    and comes back as the suffix of the output file name whenever the round
    trip goes through. *)
Theorem extension_embedded (input_path : string) :
  has_char "."%char (extension input_path) = false
  /\ (has_char "."%char input_path = false -> extension input_path = input_path)
  /\ (forall pre post : string,
         input_path = (pre ++ String "."%char post)%string ->
         has_char "."%char post = false -> extension input_path = post)
  /\ (forall file_data : list byte,
         frame file_data input_path
         = file_data ++ [dot] ++ list_byte_of_string (extension input_path))
  /\ (forall (floor_giga : Z -> Z) (rs_encode : list byte -> list byte)
        (rs_decode : list byte -> result (list byte)) (files : list carrier)
        (file_data : list byte) (output_path : string) (offset : nat)
        (b : byte) (rest : list byte),
         rs_encode (frame file_data input_path) = b :: rest ->
         b <> x00 ->
         rs_decode (b :: rest) = Ok (frame file_data input_path) ->
         Z.of_nat (chunk_count (b :: rest)) <= 9997 ->
         (offset + (chunk_count (b :: rest) + 1) <= List.length files)%nat ->
         exists store,
           hide floor_giga rs_encode files file_data input_path offset = Ok store
           /\ forall files',
                Permutation files' store ->
                extract rs_decode files' output_path
                = Ok ((output_path ++ "." ++ extension input_path)%string,
                      file_data)).
Proof.
  split; [apply extension_no_dot |].
  split; [apply extension_whole |].
  split; [apply extension_suffix |].
  split; [reflexivity |].
  intros floor_giga rs_encode rs_decode files file_data output_path offset
    b rest He Hb Hd Hn Hl.
  destruct (extract_after_hide floor_giga rs_encode rs_decode files file_data
              input_path output_path offset b rest He Hb Hd Hn Hl)
    as (store & Es & Hx).
  exists store. split; [exact Es | exact Hx].
Qed.

Lemma extension_embedded_witness :
  has_char "."%char "dir/x" = false
  /\ extension "dir/x" = "dir/x"
  /\ extension "dir.d/x.tar.gz" = "gz"
  /\ exists store,
       hide exact_floor_giga rs50_encode (sample_pool 20) [x01; x02; x03]
         "dir/x" 2 = Ok store
       /\ forall files',
            Permutation files' store ->
            extract rs50_decode files' "out"
            = Ok ("out.dir/x", [x01; x02; x03]).
Proof.
  pose proof (extension_embedded "dir/x") as (_ & Hwhole & _ & _ & Hround).
  pose proof (extension_embedded "dir.d/x.tar.gz") as (_ & _ & Hsuffix & _).
  split; [reflexivity |].
  split; [apply Hwhole; reflexivity |].
  split; [apply (Hsuffix "dir.d/x.tar" "gz"); reflexivity |].
  assert (rs50_encode (frame [x01; x02; x03] "dir/x")
          = x01 :: tl (rs50_encode (frame [x01; x02; x03] "dir/x"))) as He
    by (vm_compute; reflexivity).
  assert (chunk_count (x01 :: tl (rs50_encode (frame [x01; x02; x03] "dir/x")))
          = 12%nat) as Hn by (vm_compute; reflexivity).
  apply (Hround exact_floor_giga rs50_encode rs50_decode (sample_pool 20)
           [x01; x02; x03] "out" 2%nat x01
           (tl (rs50_encode (frame [x01; x02; x03] "dir/x")))).
  - exact He.
  - discriminate.
  - vm_compute. reflexivity.
  - rewrite Hn. lia.
  - rewrite Hn. unfold sample_pool. rewrite repeat_length. lia.
Defined.

(* ================================================================= *)
(** ** [chunk_list] *)

Lemma chunk_list_from_sizes (n : nat) (Hn : (1 <= n)%nat) (fuel : nat) :
  forall (A : Type) (l : list A),
    (List.length l <= fuel)%nat ->
    Forall (fun c => (1 <= List.length c <= n)%nat) (chunk_list_from fuel l n)
    /\ forall front last,
         chunk_list_from fuel l n = front ++ [last] ->
         Forall (fun c => List.length c = n) front.
Proof.
  induction fuel as [| f IH]; intros A l Hf.
  - cbn. split; [constructor |]. intros [| ? ?] last H; discriminate H.
  - cbn [chunk_list_from]. destruct l as [| a l'] eqn:El.
    + split; [constructor |]. intros [| ? ?] last H; discriminate H.
    + rewrite <- El in *.
      assert (1 <= List.length l)%nat as Hl by (subst; cbn; lia).
      destruct (IH A (skipn n l)) as [H1 H2]; [rewrite length_skipn; lia |].
      split.
      * constructor; [rewrite length_firstn; lia | exact H1].
      * intros front last E. destruct front as [| c front].
        { constructor. }
        cbn [app] in E. injection E as Ec Er. subst c.
        constructor; [| apply (H2 front last Er)].
        rewrite length_firstn.
        destruct (Nat.le_gt_cases (List.length l) n) as [Hle | Hgt]; [| lia].
        exfalso. rewrite skipn_all2 in Er by exact Hle.
        destruct f; cbn in Er; destruct front; discriminate Er.
Qed.

(** X1: [chunk_list(l, n)] cuts [l] without losing or reordering anything:
    the chunks concatenate to [l], there are [ceil(len(l) / n)] of them,
    none is empty or longer than [n], and all but the last have exactly
    [n] elements. *)
Theorem chunk_list_partition (A : Type) (l : list A) (n : nat)
  (Hn : (1 <= n)%nat) :
  List.concat (chunk_list l n) = l
  /\ Z.of_nat (List.length (chunk_list l n))
     = (Z.of_nat (List.length l) + Z.of_nat n - 1) / Z.of_nat n
  /\ Forall (fun c => (1 <= List.length c <= n)%nat) (chunk_list l n)
  /\ forall front last,
       chunk_list l n = front ++ [last] ->
       Forall (fun c => List.length c = n) front.
Proof.
  unfold chunk_list.
  destruct (chunk_list_from_count n Hn (List.length l) A l (le_n _)) as [H1 H2].
  destruct (chunk_list_from_sizes n Hn (List.length l) A l (le_n _)) as [H3 H4].
  auto.
Qed.

Lemma chunk_list_partition_witness :
  (1 <= 2)%nat
  /\ List.concat (chunk_list [x01; x02; x03; x04; x05] 2)
     = [x01; x02; x03; x04; x05]
  /\ Z.of_nat (List.length (chunk_list [x01; x02; x03; x04; x05] 2)) = 3.
Proof.
  assert (1 <= 2)%nat as H by lia.
  destruct (chunk_list_partition byte [x01; x02; x03; x04; x05] 2 H)
    as (H1 & H2 & _).
  split; [exact H | split; [exact H1 | exact H2]].
Defined.

(* ================================================================= *)
(** ** [prepend_zeroes] *)

Lemma length_string_repeat (c : ascii) (k : nat) :
  String.length (string_repeat c k) = k.
Proof. induction k; cbn; congruence. Qed.

(** X2: [prepend_zeroes(s, n)] only puts ['0'] characters in front: the
    result is [s] after [n - len(s)] zeros (none when [s] is already long
    enough, so nothing is ever cut off), its length is [max(len(s), n)],
    and a non-empty digit string still reads as the same number. *)
Theorem prepend_zeroes_keeps_value (s : string) (n : nat)
  (Hdigits : is_digits s = true) (Hnonempty : s <> EmptyString) :
  prepend_zeroes s n
  = (string_repeat "0"%char (n - String.length s) ++ s)%string
  /\ String.length (prepend_zeroes s n) = Nat.max (String.length s) n
  /\ int (prepend_zeroes s n) = int s.
Proof.
  assert (prepend_zeroes s n
          = (string_repeat "0"%char (n - String.length s) ++ s)%string) as E
    by (unfold prepend_zeroes; apply prepend_zeroes_loop_repeat).
  split; [exact E | split].
  - rewrite E, length_append, length_string_repeat. lia.
  - rewrite E. pose proof (digits_value_bound s Hdigits) as Hb.
    assert (1 <= String.length s)%nat as Hl
      by (destruct s; [contradiction | cbn; lia]).
    rewrite (is_digits_render s Hdigits) at 2 3.
    rewrite <- string_repeat_append_render by exact Hb.
    rewrite !int_render; auto; try lia.
    split; [lia |]. eapply Z.lt_le_trans; [apply Hb |].
    apply Z.pow_le_mono_r; lia.
Qed.

Lemma prepend_zeroes_keeps_value_witness :
  prepend_zeroes "258" 13 = "0000000000258"
  /\ prepend_zeroes "12345" 3 = "12345"
  /\ int (prepend_zeroes "258" 13) = int "258".
Proof.
  assert ("258" <> EmptyString) as H1 by discriminate.
  assert ("12345" <> EmptyString) as H2 by discriminate.
  destruct (prepend_zeroes_keeps_value "258" 13 eq_refl H1) as (Ea & _ & Ec).
  destruct (prepend_zeroes_keeps_value "12345" 3 eq_refl H2) as (Eb & _ & _).
  split; [exact Ea | split; [exact Eb | exact Ec]].
Defined.

(* ================================================================= *)
(** ** [int_to_bytes] and [int_from_bytes] *)

Lemma byte_val_of_Z (z : Z) : byte_val (byte_of_Z z) = z mod 256.
Proof.
  unfold byte_of_Z, byte_val.
  pose proof (Z.mod_pos_bound z 256 ltac:(lia)) as Hb.
  destruct (Byte.of_N (Z.to_N (z mod 256))) as [b |] eqn:E.
  - apply Byte.to_of_N in E. rewrite E. lia.
  - apply Byte.of_N_None_iff in E. lia.
Qed.

Lemma from_bytes_to_bytes (n : nat) (x : Z) :
  from_bytes_big (to_bytes_digits n x) = x mod 256 ^ Z.of_nat n.
Proof.
  induction n as [| n IH].
  - cbn. rewrite Z.mod_1_r. reflexivity.
  - cbn [to_bytes_digits]. rewrite from_bytes_cons, length_to_bytes_digits, IH.
    rewrite byte_val_of_Z, pow256_S.
    pose proof (pow256_pos n) as Hp. set (p := 256 ^ Z.of_nat n) in *.
    rewrite (Z.mul_comm 256 p), (Z.rem_mul_r x p 256) by lia. lia.
Qed.

Lemma from_bytes_zeros (k : nat) (b : list byte) :
  from_bytes_big (repeat x00 k ++ b) = from_bytes_big b.
Proof.
  induction k as [| k IH]; [reflexivity |].
  cbn [repeat app]. rewrite from_bytes_cons, IH. reflexivity.
Qed.

(** The byte length is the least one: a positive number is at least
    [256 ^ (length - 1)]. *)
Lemma byte_length_least (x : Z) :
  0 < x ->
  256 ^ (Z.of_nat (Z.to_nat ((bit_length x + 7) / 8)) - 1) <= x.
Proof.
  intros Hx. unfold bit_length.
  destruct (Z.eqb_spec x 0) as [-> | Hz]; [lia |].
  rewrite Z.abs_eq by lia.
  pose proof (Z.log2_nonneg x) as Hl.
  pose proof (Z.log2_spec x Hx) as [Hs _].
  rewrite Z2Nat.id by (apply Z.div_pos; lia).
  eapply Z.le_trans; [| exact Hs].
  change 256 with (2 ^ 8). rewrite <- Z.pow_mul_r by lia_mod.
  apply Z.pow_le_mono_r; lia_mod.
Qed.

(** X3: for every [x >= 0], [int_to_bytes(x)] succeeds with the shortest
    big-endian rendering of [x]: [(x.bit_length() + 7) // 8] bytes, no
    leading zero byte (no byte at all for 0), and [int_from_bytes] gives
    [x] back. *)
Theorem int_to_bytes_round_trip (x : Z) (Hx : 0 <= x) :
  exists b : list byte,
    int_to_bytes x = Ok b
    /\ int_from_bytes b = x
    /\ Z.of_nat (List.length b) = (bit_length x + 7) / 8
    /\ hd_error b <> Some x00.
Proof.
  exists (to_bytes_digits (Z.to_nat ((bit_length x + 7) / 8)) x).
  pose proof (byte_length_fits x Hx) as Hfit.
  split; [apply int_to_bytes_ok; exact Hx | split; [| split]].
  - unfold int_from_bytes. rewrite from_bytes_to_bytes.
    apply Z.mod_small. lia.
  - rewrite length_to_bytes_digits. apply Z2Nat.id.
    unfold bit_length. destruct (x =? 0); [cbn; lia |].
    pose proof (Z.log2_nonneg (Z.abs x)). lia_mod.
  - destruct (Z.to_nat ((bit_length x + 7) / 8)) as [| n] eqn:En;
      [cbn; discriminate |].
    cbn [to_bytes_digits hd_error]. intros [= E].
    apply (f_equal byte_val) in E. rewrite byte_val_of_Z in E.
    change (byte_val x00) with 0 in E.
    assert (0 < x) as Hpos.
    { destruct (Z.eq_dec x 0) as [-> | ]; [discriminate En | lia]. }
    pose proof (byte_length_least x Hpos) as Hleast. rewrite En in Hleast.
    replace (Z.of_nat (S n) - 1) with (Z.of_nat n) in Hleast by lia.
    rewrite pow256_S in Hfit. pose proof (pow256_pos n) as Hp.
    set (p := 256 ^ Z.of_nat n) in *.
    assert (1 <= x / p < 256) as Hq
      by (split; [apply Z.div_le_lower_bound; lia
                 | apply Z.div_lt_upper_bound; lia]).
    rewrite Z.mod_small in E by lia. lia.
Qed.

Lemma int_to_bytes_round_trip_witness :
  0 <= 258
  /\ exists b : list byte,
       int_to_bytes 258 = Ok b /\ int_from_bytes b = 258
       /\ Z.of_nat (List.length b) = 2 /\ hd_error b <> Some x00.
Proof.
  assert (0 <= 258) as H by lia.
  split; [exact H | exact (int_to_bytes_round_trip 258 H)].
Defined.

Lemma lstrip_zeros_nonzero (b : byte) (l : list byte) :
  b <> x00 -> lstrip_zeros (b :: l) = b :: l.
Proof.
  intros H. cbn [lstrip_zeros]. destruct (Byte.eqb b x00) eqn:E; [| reflexivity].
  apply Byte.byte_dec_bl in E. contradiction.
Qed.

Lemma byte_val_nonzero (b : byte) : b <> x00 -> 1 <= byte_val b.
Proof.
  intros H. pose proof (byte_val_bound b) as Hb.
  destruct (Z.eq_dec (byte_val b) 0) as [E | ]; [| lia].
  exfalso. apply H. rewrite <- (byte_of_Z_val b), E. reflexivity.
Qed.

(** X4: [int_to_bytes(int_from_bytes(b))] is [b] without its leading zero
    bytes, for every byte sequence [b]: the conversion through an integer
    forgets how many zero bytes were in front, which is why [extract] pads
    every chunk back to five bytes. *)
Theorem int_to_bytes_strips_zeros (b : list byte) :
  int_to_bytes (int_from_bytes b) = Ok (lstrip_zeros b).
Proof.
  unfold int_from_bytes. induction b as [| c b IH]; [reflexivity |].
  destruct (Byte.byte_eq_dec c x00) as [-> | Hc].
  - change (x00 :: b) with (repeat x00 1 ++ b) at 1.
    rewrite from_bytes_zeros. exact IH.
  - rewrite lstrip_zeros_nonzero by exact Hc.
    pose proof (from_bytes_bound (c :: b)) as Hb.
    pose proof (from_bytes_bound b) as Hb'.
    pose proof (byte_val_nonzero c Hc) as Hv.
    set (x := from_bytes_big (c :: b)) in *.
    assert (256 ^ Z.of_nat (List.length b) <= x) as Hlow
      by (unfold x; rewrite from_bytes_cons; nia).
    rewrite int_to_bytes_ok by lia. f_equal.
    assert (Z.to_nat ((bit_length x + 7) / 8) = List.length (c :: b)) as ->.
    { pose proof (byte_length_le x (List.length (c :: b)) Hb) as Hle.
      pose proof (byte_length_fits x ltac:(lia)) as Hfit.
      destruct (Nat.eq_dec (Z.to_nat ((bit_length x + 7) / 8))
                  (List.length (c :: b))) as [E | Hne]; [exact E | exfalso].
      cbn [List.length] in *.
      assert (256 ^ Z.of_nat (Z.to_nat ((bit_length x + 7) / 8))
              <= 256 ^ Z.of_nat (List.length b))
        by (apply Z.pow_le_mono_r; lia).
      lia. }
    apply to_bytes_from_bytes.
Qed.

(* ================================================================= *)
(** ** [int_byte_size] *)

(** X5: for every digit budget [digits >= 1], every value of
    [int_byte_size(digits)] bytes has at most [digits + 1] decimal digits
    (it need not fit in [digits] digits); this is the margin that makes
    [int_byte_size(STORABLE_DIGITS_PER_FILE - 1)] bytes safe for a field of
    [STORABLE_DIGITS_PER_FILE] digits. *)
Theorem int_byte_size_margin (digits : nat) (Hdigits : (1 <= digits)%nat) :
  0 <= int_byte_size digits
  /\ forall v : Z,
       0 <= v < 256 ^ int_byte_size digits ->
       len (str v) <= Z.of_nat digits + 1.
Proof.
  unfold int_byte_size. rewrite nines_pow by exact Hdigits.
  assert (10 <= 10 ^ Z.of_nat digits) as Hten.
  { change 10 with (10 ^ 1) at 1. apply Z.pow_le_mono_r; lia. }
  set (m := 10 ^ Z.of_nat digits - 1) in *.
  unfold bit_length. destruct (Z.eqb_spec m 0) as [E | _]; [lia |].
  rewrite Z.abs_eq by lia.
  pose proof (Z.log2_nonneg m) as Hl.
  pose proof (Z.log2_spec m ltac:(lia)) as [Hs _].
  assert (0 <= (Z.log2 m + 1) / 8) as Hc by (apply Z.div_pos; lia).
  split; [exact Hc |].
  intros v Hv.
  replace (Z.of_nat digits + 1) with (Z.of_nat (S digits)) by lia.
  apply len_str_le; [lia | lia |].
  eapply Z.lt_le_trans; [apply Hv |].
  change 256 with (2 ^ 8). rewrite <- Z.pow_mul_r by lia.
  apply Z.le_trans with (2 ^ (Z.log2 m + 1)).
  - apply Z.pow_le_mono_r; lia_mod.
  - replace (2 ^ (Z.log2 m + 1)) with (2 * 2 ^ Z.log2 m)
      by (rewrite Z.pow_add_r by lia; lia).
    rewrite pow10_S. lia.
Qed.

Lemma int_byte_size_margin_witness :
  (1 <= 12)%nat
  /\ forall v : Z, 0 <= v < 256 ^ int_byte_size 12 -> len (str v) <= 12 + 1.
Proof.
  assert (1 <= 12)%nat as H by lia.
  split; [exact H | exact (proj2 (int_byte_size_margin 12 H))].
Defined.

(* ================================================================= *)
(** ** [prepend_chunk] *)

(** X6: for an index below [10^4] and a value below [10^13],
    [prepend_chunk(str(index), str(value))] is a string of exactly 17
    decimal digits from which the two fields are read back as [extract]
    reads them: [int(s[0:4])] is the index and [int(s[4:])] the value. *)
Theorem prepend_chunk_fields (index value : Z)
  (Hindex : 0 <= index < 10 ^ 4) (Hvalue : 0 <= value < 10 ^ 13) :
  let s := prepend_chunk (str index) (str value) in
  String.length s = 17%nat
  /\ is_digits s = true
  /\ int (slice 0 DIGITS_FOR_INDEX s) = Ok index
  /\ int (slice_from DIGITS_FOR_INDEX s) = Ok value.
Proof.
  cbv zeta. rewrite prepend_chunk_record by assumption.
  destruct (record_slices index value) as [-> ->].
  split; [apply length_record | split; [| split]].
  - rewrite record_render by exact Hvalue. apply is_digits_render_true.
  - apply int_render; [lia | exact Hindex].
  - apply int_render; [lia | exact Hvalue].
Qed.

Lemma prepend_chunk_fields_witness :
  prepend_chunk (str 42) (str 13663103342) = "00420013663103342"
  /\ int (slice 0 DIGITS_FOR_INDEX (prepend_chunk (str 42) (str 13663103342)))
     = Ok 42
  /\ int (slice_from DIGITS_FOR_INDEX (prepend_chunk (str 42) (str 13663103342)))
     = Ok 13663103342.
Proof.
  assert (0 <= 42 < 10 ^ 4) as Hi by lia.
  assert (0 <= 13663103342 < 10 ^ 13) as Hv by lia.
  destruct (prepend_chunk_fields 42 13663103342 Hi Hv) as (_ & _ & H1 & H2).
  split; [reflexivity | split; [exact H1 | exact H2]].
Defined.

(* ================================================================= *)
(** ** [pad_byte] and the padding loop of [hide] *)

(** X7: [pad_byte] puts zero bytes in front up to five bytes and never
    shortens: the result is [max(len(b), 5)] bytes long, ends with [b], and
    has the same big-endian value. *)
Theorem pad_byte_keeps_value (b : list byte) :
  pad_byte b = repeat x00 (STORABLE_BYTES_PER_FILE - List.length b) ++ b
  /\ List.length (pad_byte b) = Nat.max (List.length b) STORABLE_BYTES_PER_FILE
  /\ int_from_bytes (pad_byte b) = int_from_bytes b.
Proof.
  assert (pad_byte b
          = repeat x00 (STORABLE_BYTES_PER_FILE - List.length b) ++ b) as E
    by (unfold pad_byte; apply pad_byte_loop_repeat).
  split; [exact E | split].
  - rewrite E, length_app, repeat_length. lia.
  - rewrite E. unfold int_from_bytes. apply from_bytes_zeros.
Qed.

(** X8: the padding loop of [hide] puts [(-len) mod 5] zero bytes in front
    of the stream: at most four, none when the length is already a multiple
    of five; the padded length is a multiple of five and the big-endian
    value of the stream is unchanged. *)
Theorem pad_front_multiple (encoded_data : list byte) :
  let k := Z.to_nat ((- Z.of_nat (List.length encoded_data)) mod 5) in
  pad_front encoded_data = repeat x00 k ++ encoded_data
  /\ (k <= 4)%nat
  /\ Z.of_nat (List.length (pad_front encoded_data)) mod 5 = 0
  /\ int_from_bytes (pad_front encoded_data) = int_from_bytes encoded_data.
Proof.
  cbv zeta.
  assert (pad_front encoded_data
          = repeat x00 (Z.to_nat ((- Z.of_nat (List.length encoded_data)) mod 5))
              ++ encoded_data) as E.
  { unfold pad_front. rewrite STORABLE_BYTES_PER_FILE_eq.
    apply pad_front_loop_spec. change (Z.of_nat 5) with 5. lia_mod. }
  split; [exact E | split; [lia_mod | split]].
  - rewrite E, length_app, repeat_length. lia_mod.
  - rewrite E. unfold int_from_bytes. apply from_bytes_zeros.
Qed.

(* ================================================================= *)
(** ** The layout of a plan *)

Lemma nth_error_data_records (chunks : list (list byte)) :
  forall (index : Z) (k : nat) (c : list byte),
    nth_error chunks k = Some c ->
    nth_error (data_records index chunks) k
    = Some (record (index + Z.of_nat k) (int_from_bytes c)).
Proof.
  induction chunks as [| c0 chunks IH]; intros index k c H.
  - destruct k; discriminate H.
  - destruct k as [| k]; cbn [nth_error data_records] in *.
    + injection H as ->. do 2 f_equal. lia.
    + rewrite (IH (index + 1) k c H). do 2 f_equal. lia.
Qed.

(** X9: for a stream of 1 to 9997 chunks the planning step of [hide]
    returns one string more than there are chunks: first the index record
    [prepend_chunk('0', str(N))] carrying the number of chunks, then, for
    the chunk at position [k] (from 0), the data record
    [prepend_chunk(str(k + 1), str(int_from_bytes(chunk)))]. *)
Theorem plan_layout (encoded : list byte)
  (Hchunks : 1 <= Z.of_nat (chunk_count encoded) <= 9997) :
  exists planned : list string,
    plan (pad_front encoded) = Ok planned
    /\ List.length planned = S (chunk_count encoded)
    /\ nth_error planned 0
       = Some (prepend_chunk (str 0) (str (Z.of_nat (chunk_count encoded))))
    /\ forall (k : nat) (c : list byte),
         nth_error (chunk_list (pad_front encoded) STORABLE_BYTES_PER_FILE) k
         = Some c ->
         nth_error planned (S k)
         = Some (prepend_chunk (str (Z.of_nat k + 1)) (str (int_from_bytes c))).
Proof.
  unfold chunk_count in *.
  destruct (data_chunks_spec encoded) as (_ & Hc & _).
  set (chunks := chunk_list (pad_front encoded) STORABLE_BYTES_PER_FILE) in *.
  pose proof (exact_chunks_le chunks Hc) as Hle.
  exists (record 0 (Z.of_nat (List.length chunks)) :: data_records 1 chunks).
  split; [| split; [| split]].
  - unfold plan. fold chunks. rewrite INDEX_LIMIT_eq.
    destruct (Z.gtb_spec (Z.of_nat (List.length chunks)) 9998); [lia |].
    destruct chunks as [| c chunks'] eqn:E; [cbn in Hchunks; lia |].
    apply plan_loop_single; [lia | exact Hle].
  - cbn [List.length]. rewrite length_data_records. reflexivity.
  - cbn [nth_error]. rewrite prepend_chunk_record by lia. reflexivity.
  - intros k c Hk. cbn [nth_error].
    rewrite (nth_error_data_records chunks 1 k c Hk).
    assert (k < List.length chunks)%nat as Hlt
      by (apply nth_error_Some; congruence).
    rewrite Forall_forall in Hle.
    pose proof (chunk_value_bound c (Hle c (nth_error_In _ _ Hk))) as Hb.
    rewrite prepend_chunk_record by lia. do 2 f_equal. lia.
Qed.

Lemma plan_layout_witness :
  exists planned : list string,
    plan (pad_front [x01; x02; x03; x04; x05; x06]) = Ok planned
    /\ List.length planned = 3%nat
    /\ nth_error planned 0 = Some "00000000000000002".
Proof.
  assert (chunk_count [x01; x02; x03; x04; x05; x06] = 2%nat) as Hn
    by reflexivity.
  assert (1 <= Z.of_nat (chunk_count [x01; x02; x03; x04; x05; x06]) <= 9997)
    as H by (rewrite Hn; lia).
  destruct (plan_layout [x01; x02; x03; x04; x05; x06] H)
    as (planned & E & L & H0 & _).
  exists planned. rewrite Hn in L, H0.
  split; [exact E | split; [exact L | exact H0]].
Defined.

(* ================================================================= *)
(** ** What [hide] leaves alone *)

Lemma reset_file_identity (floor_giga : Z -> Z) (file file' : carrier) :
  reset_file floor_giga file = Ok file' -> same_identity file file'.
Proof. unfold reset_file. cbn. intros [= <-]. split; reflexivity. Qed.

Lemma write_file_identity (floor_giga : Z -> Z) (file file' : carrier)
  (c : string) :
  write_file floor_giga file c = Ok file' -> same_identity file file'.
Proof.
  unfold write_file, replace_microsecond.
  destruct (int (slice 0 3 c)); cbn [bind]; [| discriminate].
  destruct (int (slice 3 10 c)); cbn [bind]; [| discriminate].
  destruct (int (slice 10 17 c)); cbn [bind]; [| discriminate].
  destruct (_ && _); cbn [bind]; [| discriminate].
  intros [= <-]. split; reflexivity.
Qed.

Lemma Forall2_firstn {A B : Type} (R : A -> B -> Prop) (n : nat) :
  forall l1 l2, Forall2 R l1 l2 -> Forall2 R (firstn n l1) (firstn n l2).
Proof.
  induction n as [| n IH]; intros l1 l2 H; [constructor |].
  destruct H; cbn [firstn]; constructor; auto.
Qed.

Lemma Forall2_skipn {A B : Type} (R : A -> B -> Prop) (n : nat) :
  forall l1 l2, Forall2 R l1 l2 -> Forall2 R (skipn n l1) (skipn n l2).
Proof.
  induction n as [| n IH]; intros l1 l2 H; [exact H |].
  destruct H; cbn [skipn]; [constructor | auto].
Qed.

Lemma firstn_skipn_split {A : Type} (l : list A) (a n : nat) :
  firstn a l ++ firstn n (skipn a l) ++ skipn (a + n) l = l.
Proof.
  rewrite <- (firstn_skipn a l) at 4. f_equal.
  rewrite <- (firstn_skipn n (skipn a l)) at 2. f_equal.
  rewrite skipn_skipn. f_equal. lia.
Qed.

(** A relation that both passes of [hide] establish between a carrier and
    what they make of it holds between the directory before and after. *)
Section BothPasses.

Variable floor_giga : Z -> Z.
Variable R : carrier -> carrier -> Prop.

Hypothesis reset_file_related :
  forall file file', reset_file floor_giga file = Ok file' -> R file file'.
Hypothesis write_file_related :
  forall file file' c, write_file floor_giga file c = Ok file' -> R file file'.

Lemma map_result_related (files : list carrier) :
  forall baseline,
    map_result (reset_file floor_giga) files = Ok baseline ->
    Forall2 R files baseline.
Proof.
  induction files as [| file files IH]; intros baseline; cbn [map_result].
  - intros [= <-]. constructor.
  - destruct (reset_file floor_giga file) as [f' |] eqn:E; cbn [bind];
      [| discriminate].
    destruct (map_result (reset_file floor_giga) files) as [fs |] eqn:Em;
      cbn [bind]; [| discriminate].
    intros [= <-]. constructor; [| apply IH; reflexivity].
    apply reset_file_related. exact E.
Qed.

Lemma write_all_related (cs : list string) :
  forall files written,
    write_all floor_giga files cs = Ok written ->
    Forall2 R (firstn (List.length cs) files) written.
Proof.
  induction cs as [| c cs IH]; intros files written; cbn [write_all].
  - intros [= <-]. constructor.
  - destruct files as [| file files]; [discriminate |].
    destruct (write_file floor_giga file c) as [w |] eqn:Ew; cbn [bind];
      [| discriminate].
    destruct (write_all floor_giga files cs) as [ws |] eqn:Ea; cbn [bind];
      [| discriminate].
    intros [= <-]. cbn [List.length firstn]. constructor; [| apply IH; exact Ea].
    apply (write_file_related file w c). exact Ew.
Qed.

Lemma hide_encoded_related (files store : list carrier) (encoded : list byte)
  (offset : nat) :
  hide_encoded floor_giga files encoded offset = Ok store ->
  Forall2 R files store.
Proof.
  unfold hide_encoded. intros Hhide.
  destruct (plan _) as [planned |]; cbn [bind] in Hhide; [| discriminate].
  destruct (_ <? _)%nat; [discriminate |].
  destruct (map_result _ files) as [baseline |] eqn:Eb; cbn [bind] in Hhide;
    [| discriminate].
  destruct (write_all _ _ planned) as [written |] eqn:Ew; cbn [bind] in Hhide;
    [| discriminate].
  injection Hhide as <-.
  apply map_result_related in Eb. apply write_all_related in Ew.
  rewrite <- (firstn_skipn_split files offset (List.length planned)).
  apply Forall2_app; [apply Forall2_firstn; exact Eb |].
  apply Forall2_app; [exact Ew | apply Forall2_skipn; exact Eb].
Qed.

End BothPasses.

(** X10: a successful [hide] keeps the directory as it is but for the
    sub-second fields: the same number of carriers, in the same listing
    order each with its path and with the whole-second part of its creation
    time. *)
Theorem hide_keeps_identity (floor_giga : Z -> Z)
  (rs_encode : list byte -> list byte) (files store : list carrier)
  (file_data : list byte) (input_path : string) (offset : nat)
  (Hhide : hide floor_giga rs_encode files file_data input_path offset
           = Ok store) :
  Forall2 same_identity files store
  /\ List.length store = List.length files
  /\ map path store = map path files.
Proof.
  assert (Forall2 same_identity files store) as HF.
  { apply (hide_encoded_related floor_giga same_identity
             (reset_file_identity floor_giga)
             (fun file file' c => write_file_identity floor_giga file file' c)
             files store _ offset Hhide). }
  split; [exact HF | split].
  - symmetry. exact (Forall2_length HF).
  - clear Hhide. induction HF as [| f g fs gs [Hp _] _ IH]; [reflexivity |].
    cbn [map]. rewrite Hp, IH. reflexivity.
Qed.

Lemma hide_keeps_identity_witness :
  hide exact_floor_giga rs50_encode (sample_pool 20) [x01; x02; x03]
    "dir/x.bin" 2 = Ok sample_store
  /\ List.length sample_store = 20%nat
  /\ map path sample_store = map path (sample_pool 20).
Proof.
  assert (hide exact_floor_giga rs50_encode (sample_pool 20) [x01; x02; x03]
            "dir/x.bin" 2 = Ok sample_store) as H by (vm_compute; reflexivity).
  destruct (hide_keeps_identity exact_floor_giga rs50_encode (sample_pool 20)
              sample_store [x01; x02; x03] "dir/x.bin" 2 H) as (_ & HL & HP).
  split; [exact H | split; [exact HL | exact HP]].
Defined.

(* ================================================================= *)
(** ** The listing order and the digits read *)

(** X11: [extract] does not depend on the order in which the directory is
    listed (the order changes between the two runs, since [hide] rewrites
    the creation times the listing is sorted by): two listings of the same
    carriers give the same result. *)
Theorem extract_order_independent
  (rs_decode : list byte -> result (list byte)) (files1 files2 : list carrier)
  (output_path : string) (Hperm : Permutation files1 files2) :
  extract rs_decode files1 output_path = extract rs_decode files2 output_path.
Proof.
  unfold extract, reassemble.
  assert (sorted (get_encoded_int_string files1)
          = sorted (get_encoded_int_string files2)) as ->; [| reflexivity].
  apply sorted_of_permutation; [apply sorted_strongly |].
  eapply Permutation_trans; [| apply sorted_permutation].
  unfold get_encoded_int_string. apply Permutation_map. exact Hperm.
Qed.

Lemma extract_order_independent_witness :
  extract rs50_decode (rev sample_store) "out"
  = extract rs50_decode sample_store "out".
Proof.
  apply extract_order_independent. apply Permutation_sym, Permutation_rev.
Defined.

Lemma read_file_render (file : carrier) :
  0 <= microsecond (ctimestamp file) <= 999999 ->
  exists v : Z, 0 <= v < 10 ^ 17 /\ read_file file = render 17 v.
Proof.
  intros Hus. unfold read_file.
  set (ms := Z.quot (microsecond (ctimestamp file)) 1000).
  set (a := Z.quot (atime_ns file mod 1000000000) 100).
  set (m := Z.quot (mtime_ns file mod 1000000000) 100).
  assert (0 <= ms < 10 ^ 3) as Hms
    by (unfold ms; rewrite Z.quot_div_nonneg by lia; lia_mod).
  assert (0 <= a < 10 ^ 7) as Ha
    by (unfold a; rewrite Z.quot_div_nonneg by lia_mod; lia_mod).
  assert (0 <= m < 10 ^ 7) as Hm
    by (unfold m; rewrite Z.quot_div_nonneg by lia_mod; lia_mod).
  rewrite !prepend_zeroes_str by (auto; lia).
  exists (ms * 10 ^ 14 + (a * 10 ^ 7 + m)). split; [lia |].
  rewrite <- (render_app 7 7) by exact Hm.
  rewrite <- (render_app 3 (7 + 7)) by (change (Z.of_nat (7 + 7)) with 14; lia).
  reflexivity.
Qed.

(** X12: whatever its access and modification times, a carrier whose
    creation time has a microsecond between 0 and 999999 reads back as a
    string of exactly 17 decimal digits (3 + 7 + 7), so the slices
    [extract] parses are never empty or non-numeric. *)
Theorem read_file_seventeen_digits (file : carrier)
  (Hmicro : 0 <= microsecond (ctimestamp file) <= 999999) :
  String.length (read_file file) = 17%nat
  /\ is_digits (read_file file) = true
  /\ exists index value : Z,
       int (slice 0 DIGITS_FOR_INDEX (read_file file)) = Ok index
       /\ int (slice_from DIGITS_FOR_INDEX (read_file file)) = Ok value
       /\ 0 <= index < 10 ^ 4 /\ 0 <= value < 10 ^ 13.
Proof.
  destruct (read_file_render file Hmicro) as (v & Hv & ->).
  split; [apply length_render | split; [apply is_digits_render_true |]].
  exists (v / 10 ^ 13), (v mod 10 ^ 13).
  assert (0 <= v / 10 ^ 13 < 10 ^ 4 /\ 0 <= v mod 10 ^ 13 < 10 ^ 13) as [Hi Hd]
    by lia_mod.
  assert (render 17 v = record (v / 10 ^ 13) (v mod 10 ^ 13)) as ->.
  { rewrite record_render by exact Hd. f_equal. lia_mod. }
  destruct (record_slices (v / 10 ^ 13) (v mod 10 ^ 13)) as [-> ->].
  rewrite !int_render by (auto; lia). auto.
Qed.

Lemma read_file_seventeen_digits_witness :
  0 <= microsecond (ctimestamp sample_carrier) <= 999999
  /\ read_file sample_carrier = "12312345679876543"
  /\ String.length (read_file sample_carrier) = 17%nat.
Proof.
  assert (0 <= microsecond (ctimestamp sample_carrier) <= 999999) as H
    by (cbn; lia).
  split; [exact H | split; [reflexivity |]].
  exact (proj1 (read_file_seventeen_digits sample_carrier H)).
Defined.

(* ================================================================= *)
(** ** The extraction loop *)

Lemma scan_total (strings : list string) :
  Forall digits17 strings ->
  forall (found_start : bool) (files_remaining : Z) (encoded_data : list byte),
    exists data, scan strings found_start files_remaining encoded_data = Ok data.
Proof.
  induction 1 as [| s strings (v & Hv & ->) F IH]; intros fs r acc.
  - exists acc. reflexivity.
  - assert (0 <= v / 10 ^ 13 < 10 ^ 4 /\ 0 <= v mod 10 ^ 13 < 10 ^ 13)
      as [Hi Hd] by lia_mod.
    assert (render 17 v = record (v / 10 ^ 13) (v mod 10 ^ 13)) as ->.
    { rewrite record_render by exact Hd. f_equal. lia_mod. }
    cbn [scan]. destruct (record_slices (v / 10 ^ 13) (v mod 10 ^ 13)) as [-> ->].
    rewrite !int_render by (auto; lia). cbn [bind].
    destruct (negb (v / 10 ^ 13 =? 0)); [| apply IH].
    destruct (negb fs); [apply IH |].
    destruct (r >? 0); [| eexists; reflexivity].
    rewrite int_to_bytes_ok by lia. cbn [bind]. apply IH.
Qed.

Lemma trim_error (encoded_data : list byte) (e : error) :
  trim encoded_data = Err e ->
  e = IndexError /\ Forall (fun b => b = x00) encoded_data.
Proof.
  induction encoded_data as [| b l IH]; cbn [trim].
  - intros [= <-]. split; [reflexivity | constructor].
  - destruct (Byte.eqb b x00) eqn:E; [| discriminate].
    apply Byte.byte_dec_bl in E. subst b. intros H.
    destruct (IH H). split; [assumption | constructor; auto].
Qed.

Lemma trim_all_zero (encoded_data : list byte) :
  Forall (fun b => b = x00) encoded_data -> trim encoded_data = Err IndexError.
Proof.
  induction 1 as [| b l -> F IH]; [reflexivity | exact IH].
Qed.

(** X13: on a directory whose creation times have valid microseconds,
    whatever the timestamps hold, the sorting and the extraction loop of
    [extract] never raise: the loop always ends with a byte buffer.  The
    trimming loop that follows is the first place where [extract] can
    fail: it does so, with [IndexError], exactly when the buffer is empty
    or holds zero bytes only; otherwise the decoder is called. *)
Theorem extract_loop_never_raises (files : list carrier)
  (Hmicro : Forall (fun file => 0 <= microsecond (ctimestamp file) <= 999999)
              files) :
  exists data,
    scan (sorted (get_encoded_int_string files)) false 0 [] = Ok data
    /\ reassemble (get_encoded_int_string files) = trim data
    /\ (forall e,
          reassemble (get_encoded_int_string files) = Err e -> e = IndexError)
    /\ (reassemble (get_encoded_int_string files) = Err IndexError
        <-> Forall (fun b => b = x00) data).
Proof.
  assert (Forall digits17 (sorted (get_encoded_int_string files))) as Hd.
  { eapply Permutation_Forall; [apply sorted_permutation |].
    unfold get_encoded_int_string. apply Forall_map.
    eapply Forall_impl; [| exact Hmicro]. intros f Hf.
    destruct (read_file_render f Hf) as (v & Hv & E). exists v. auto. }
  destruct (scan_total _ Hd false 0 []) as (data & Es).
  exists data. split; [exact Es |].
  assert (reassemble (get_encoded_int_string files) = trim data) as Er
    by (unfold reassemble; rewrite Es; reflexivity).
  split; [exact Er |]. rewrite Er. split; [| split].
  - intros e He. apply (trim_error data e He).
  - intros He. apply (trim_error data IndexError He).
  - apply trim_all_zero.
Qed.

Lemma extract_loop_never_raises_witness :
  exists data,
    scan (sorted (get_encoded_int_string (sample_pool 3))) false 0 [] = Ok data
    /\ reassemble (get_encoded_int_string (sample_pool 3)) = trim data.
Proof.
  assert (Forall (fun file => 0 <= microsecond (ctimestamp file) <= 999999)
            (sample_pool 3)) as Hm
    by (unfold sample_pool; cbn [repeat]; repeat constructor; cbn; lia).
  destruct (extract_loop_never_raises (sample_pool 3) Hm)
    as (data & Es & Er & _).
  exists data. split; [exact Es | exact Er].
Defined.

(* ================================================================= *)
(** ** What [extract] gives back in general *)

(** X14: the padding of [hide] and the trimming of [extract] do not cancel
    in general: for every error-corrected stream of at most 9997 chunks
    hidden in a pool with room for it, reassembly returns what the trimming
    loop makes of the stream itself, that is the stream without all its
    leading zero bytes, or [IndexError] when nothing else is in it. *)
Theorem reassemble_trims_stream (floor_giga : Z -> Z) (files : list carrier)
  (encoded : list byte) (offset : nat)
  (Hchunks : Z.of_nat (chunk_count encoded) <= 9997)
  (Hroom : (offset + (chunk_count encoded + 1) <= List.length files)%nat) :
  exists store,
    hide_encoded floor_giga files encoded offset = Ok store
    /\ forall files',
         Permutation files' store ->
         reassemble (get_encoded_int_string files') = trim encoded.
Proof.
  unfold chunk_count in *.
  destruct (data_chunks_spec encoded) as (Hcat & Hc & _).
  destruct (plan_spec encoded) as [[Hbig _] | (_ & planned & Ep & Hs)];
    [cbn zeta in Hbig; lia |].
  pose proof (plan_shape_length _ _ Hs) as Lp. unfold planned_count in Lp.
  set (chunks := chunk_list (pad_front encoded) STORABLE_BYTES_PER_FILE) in *.
  assert (Z.of_nat (List.length planned) <= Z.of_nat (List.length chunks) + 1)
    as Lp'.
  { destruct (Z.eqb_spec (Z.of_nat (List.length chunks)) 0); [lia |].
    destruct (Z.eqb_spec (Z.of_nat (List.length chunks)) 9998); lia. }
  destruct (hide_encoded_sorted floor_giga files encoded offset planned Ep)
    as (store & Es & _ & _ & Hsorted).
  { apply (plan_shape_strings chunks); auto using exact_chunks_le. }
  { lia. }
  exists store. split; [exact Es |].
  intros files' P. unfold reassemble. rewrite (Hsorted files' P).
  destruct (scan_sorted_plan chunks planned
              (List.length files - List.length planned) Hs Hc)
    as (data & -> & _ & Hd).
  cbn [bind]. rewrite Hd by lia. rewrite Hcat.
  destruct (pad_front_spec encoded) as (k & -> & _). apply trim_zeros.
Qed.

Lemma reassemble_trims_stream_witness :
  exists store,
    hide_encoded exact_floor_giga (sample_pool 3) [x00; x00; x07] 1 = Ok store
    /\ reassemble (get_encoded_int_string store) = Ok [x07].
Proof.
  assert (Z.of_nat (chunk_count [x00; x00; x07]) <= 9997) as H1
    by (vm_compute; discriminate).
  assert (1 + (chunk_count [x00; x00; x07] + 1) <= List.length (sample_pool 3))%nat
    as H2 by (vm_compute; lia).
  destruct (reassemble_trims_stream exact_floor_giga (sample_pool 3)
              [x00; x00; x07] 1 H1 H2) as (store & Es & Hr).
  exists store. split; [exact Es |]. exact (Hr store (Permutation_refl store)).
Defined.

(** X15: the trimming loop of [extract] removes every leading zero byte and
    nothing else; it raises [IndexError] exactly on a buffer that is empty
    or holds zero bytes only, since it indexes the buffer before testing its
    length. *)
Theorem trim_outcome (encoded_data : list byte) :
  (forall rest, trim encoded_data = Ok rest ->
     exists k b tail, rest = b :: tail /\ b <> x00
                      /\ encoded_data = repeat x00 k ++ rest)
  /\ (forall e, trim encoded_data = Err e ->
        e = IndexError /\ Forall (fun b => b = x00) encoded_data)
  /\ (Forall (fun b => b = x00) encoded_data ->
      trim encoded_data = Err IndexError).
Proof.
  induction encoded_data as [| b l (IH1 & IH2 & IH3)]; cbn [trim].
  - repeat split; try discriminate; try constructor; congruence.
  - destruct (Byte.eqb b x00) eqn:E.
    + apply Byte.byte_dec_bl in E. subst b. split; [| split].
      * intros rest Hr. destruct (IH1 rest Hr) as (k & b & tail & -> & Hb & ->).
        exists (S k), b, tail. auto.
      * intros e He. destruct (IH2 e He). auto.
      * intros F. apply IH3. inversion F; auto.
    + assert (b <> x00) as Hb
        by (intros ->; vm_compute in E; discriminate).
      split; [| split].
      * intros rest Hr. injection Hr as <-. exists 0%nat, b, l. auto.
      * discriminate.
      * intros F. inversion F; contradiction.
Qed.

(* ================================================================= *)
(** ** The separator [extract] looks for *)

(** X16: when the decoded message holds no ['.'] (carriers written by
    something else than [hide], or a decoder that corrected to another
    message), [rsplit] returns one part and [extract] fails with the
    [IndexError] of [message_and_data[1]]; nothing is written. *)
Theorem extract_without_separator
  (rs_decode : list byte -> result (list byte)) (files : list carrier)
  (output_path : string) (encoded_data decoded_message : list byte)
  (Hreassemble : reassemble (get_encoded_int_string files) = Ok encoded_data)
  (Hdecode : rs_decode encoded_data = Ok decoded_message)
  (Hnodot : ~ In dot decoded_message) :
  extract rs_decode files output_path = Err IndexError.
Proof.
  unfold extract. rewrite Hreassemble. cbn [bind].
  rewrite Hdecode. cbn [bind]. unfold rsplit1.
  rewrite rsplit_last_none by exact Hnodot. reflexivity.
Qed.

(** X17: [extract] cuts the decoded message at its last ['.'] only: when
    what follows it is valid UTF-8, so that [ext.decode("utf-8")] does not
    raise, what is before it, dots included, is the content to write and
    the name of the file is [output_path + '.' + ext], also when that
    extension is empty. *)
Theorem extract_cuts_at_last_separator
  (rs_decode : list byte -> result (list byte)) (files : list carrier)
  (output_path : string) (encoded_data message ext : list byte)
  (Hreassemble : reassemble (get_encoded_int_string files) = Ok encoded_data)
  (Hdecode : rs_decode encoded_data = Ok (message ++ [dot] ++ ext))
  (Hnodot : ~ In dot ext)
  (Hutf8 : valid_utf8 ext = true) :
  extract rs_decode files output_path
  = Ok ((output_path ++ "." ++ string_of_list_byte ext)%string, message).
Proof.
  unfold extract. rewrite Hreassemble. cbn [bind].
  rewrite Hdecode. cbn [bind]. rewrite rsplit1_frame by exact Hnodot.
  reflexivity.
Qed.

Lemma extract_without_separator_witness :
  extract rs50_decode bare_store "out" = Err IndexError.
Proof.
  assert (reassemble (get_encoded_int_string bare_store)
          = Ok (rs50_encode [x01; x02; x03])) as H1 by (vm_compute; reflexivity).
  assert (rs50_decode (rs50_encode [x01; x02; x03]) = Ok [x01; x02; x03]) as H2
    by (vm_compute; reflexivity).
  assert (~ In dot [x01; x02; x03]) as H3
    by (intros [H | [H | [H | []]]]; discriminate).
  exact (extract_without_separator rs50_decode bare_store "out"
           (rs50_encode [x01; x02; x03]) [x01; x02; x03] H1 H2 H3).
Defined.

Lemma extract_cuts_at_last_separator_witness :
  extract rs50_decode dotted_store "out" = Ok ("out.gz", [x2e; x01; x2e]).
Proof.
  assert (reassemble (get_encoded_int_string dotted_store)
          = Ok (rs50_encode (frame [x2e; x01; x2e] "dir.d/x.tar.gz"))) as H1
    by (vm_compute; reflexivity).
  assert (rs50_decode (rs50_encode (frame [x2e; x01; x2e] "dir.d/x.tar.gz"))
          = Ok ([x2e; x01; x2e] ++ [dot] ++ list_byte_of_string "gz")) as H2
    by (vm_compute; reflexivity).
  assert (~ In dot (list_byte_of_string "gz")) as H3
    by (intros [H | [H | []]]; discriminate).
  assert (valid_utf8 (list_byte_of_string "gz") = true) as H4 by reflexivity.
  exact (extract_cuts_at_last_separator rs50_decode dotted_store "out"
           (rs50_encode (frame [x2e; x01; x2e] "dir.d/x.tar.gz"))
           [x2e; x01; x2e] (list_byte_of_string "gz") H1 H2 H3 H4).
Defined.

(* ================================================================= *)
(** ** The index of a data record *)

(** X18: the extraction loop never compares the index of a data record
    with the position it expects ([next_index] is only counted): in any
    state the index field of a record that is not an index record has no
    part in the result, which depends on the order of the sorted strings
    only.  A carrier that is missing or foreign is therefore not
    detected. *)
Theorem scan_ignores_data_index (index index' value : Z) (rest : list string)
  (found_start : bool) (files_remaining : Z) (encoded_data : list byte)
  (Hindex : 1 <= index < 10 ^ 4) (Hindex' : 1 <= index' < 10 ^ 4)
  (Hvalue : 0 <= value < 10 ^ 13) :
  scan (record index value :: rest) found_start files_remaining encoded_data
  = scan (record index' value :: rest) found_start files_remaining encoded_data.
Proof.
  cbn [scan].
  destruct (record_slices index value) as [-> ->].
  destruct (record_slices index' value) as [-> ->].
  rewrite !int_render by (auto; lia). cbn [bind].
  destruct (Z.eqb_spec index 0); [lia |].
  destruct (Z.eqb_spec index' 0); [lia |]. reflexivity.
Qed.

Lemma scan_ignores_data_index_witness :
  scan [record 0 2; record 1 7; record 9999 9] false 0 []
  = scan [record 0 2; record 1 7; record 2 9] false 0 [].
Proof.
  rewrite !(scan_index_record 2) by lia.
  rewrite !(scan_data_record (record 1 7))
    by (try lia; exists 1, 7; repeat split; lia).
  apply scan_ignores_data_index; lia.
Defined.

(* ================================================================= *)
(** ** The command line *)

(** X19: the main block calls [hide] or [extract] only with a storage path
    that was given; when both [-i] and [-o] are given it hides and ignores
    [-o]; and the exception of its last branch ('Invalid arguments
    provided') is never raised, because [arguments] has left by [exit(0)]
    in that case. *)
Theorem main_dispatch (parsed : Cli.namespace) :
  Cli.main parsed <> Cli.InvalidArguments
  /\ (forall storage input,
        Cli.main parsed = Cli.CallHide storage input <->
        (storage = Cli.storage_path parsed /\ storage <> None
         /\ Cli.input_path parsed = Some input))
  /\ (forall storage output,
        Cli.main parsed = Cli.CallExtract storage output <->
        (storage = Cli.storage_path parsed /\ storage <> None
         /\ Cli.input_path parsed = None
         /\ Cli.output_path parsed = Some output))
  /\ (Cli.main parsed = Cli.SystemExit <->
      (Cli.storage_path parsed = None
       \/ (Cli.input_path parsed = None /\ Cli.output_path parsed = None))).
Proof.
  destruct parsed as [[s |] [i |] [o |]]; cbn; repeat split;
    try discriminate; intros;
    repeat match goal with
           | H : _ /\ _ |- _ => destruct H
           | H : _ \/ _ |- _ => destruct H
           end;
    subst; try congruence; auto.
Qed.

(* ================================================================= *)
(** ** The listing of the storage directory *)

(** Three comparisons [x ? y], [y ? z] and [x ? z] of an order. *)
Lemma lex_chain (a12 a23 a13 b12 b23 b13 : comparison) :
  (a12 = Lt -> a23 = Lt -> a13 = Lt) /\ (a12 = Eq -> a13 = a23)
  /\ (a23 = Eq -> a13 = a12) ->
  (b12 = Lt -> b23 = Lt -> b13 = Lt) /\ (b12 = Eq -> b13 = b23)
  /\ (b23 = Eq -> b13 = b12) ->
  (lex a12 b12 = Lt -> lex a23 b23 = Lt -> lex a13 b13 = Lt)
  /\ (lex a12 b12 = Eq -> lex a13 b13 = lex a23 b23)
  /\ (lex a23 b23 = Eq -> lex a13 b13 = lex a12 b12).
Proof.
  intros (A1 & A2 & A3) (B1 & B2 & B3).
  destruct a12; destruct a23; cbn [lex];
    try rewrite (A2 eq_refl); try rewrite (A3 eq_refl);
    try rewrite (A1 eq_refl eq_refl); cbn [lex];
    repeat split; intros; try discriminate; auto.
Qed.

Lemma Z_compare_chain (x y z : Z) :
  ((x ?= y) = Lt -> (y ?= z) = Lt -> (x ?= z) = Lt)
  /\ ((x ?= y) = Eq -> (x ?= z) = (y ?= z))
  /\ ((y ?= z) = Eq -> (x ?= z) = (x ?= y)).
Proof.
  repeat split.
  - rewrite !Z.compare_lt_iff. lia.
  - intros H. apply Z.compare_eq in H. subst. reflexivity.
  - intros H. apply Z.compare_eq in H. subst. reflexivity.
Qed.

Lemma string_compare_chain (s t u : string) :
  (String.compare s t = Lt -> String.compare t u = Lt -> String.compare s u = Lt)
  /\ (String.compare s t = Eq -> String.compare s u = String.compare t u)
  /\ (String.compare t u = Eq -> String.compare s u = String.compare s t).
Proof.
  repeat split.
  - apply string_compare_lt_trans.
  - intros H. apply String.compare_eq_iff in H. subst. reflexivity.
  - intros H. apply String.compare_eq_iff in H. subst. reflexivity.
Qed.

Lemma carrier_compare_chain (f g h : carrier) :
  (carrier_compare f g = Lt -> carrier_compare g h = Lt ->
   carrier_compare f h = Lt)
  /\ (carrier_compare f g = Eq -> carrier_compare f h = carrier_compare g h)
  /\ (carrier_compare g h = Eq -> carrier_compare f h = carrier_compare f g).
Proof.
  unfold carrier_compare, datetime_compare.
  repeat (apply lex_chain || apply Z_compare_chain
          || apply string_compare_chain).
Qed.

Lemma carrier_compare_eq (f g : carrier) : carrier_compare f g = Eq -> f = g.
Proof.
  destruct f as [[s1 u1] p1 a1 m1], g as [[s2 u2] p2 a2 m2].
  unfold carrier_compare, datetime_compare. cbn.
  destruct (Z.compare_spec s1 s2); cbn [lex]; try discriminate.
  destruct (Z.compare_spec u1 u2); cbn [lex]; try discriminate.
  destruct (String.compare p1 p2) eqn:Ep; cbn [lex]; try discriminate.
  destruct (Z.compare_spec a1 a2); cbn [lex]; try discriminate.
  destruct (Z.compare_spec m1 m2); try discriminate.
  apply String.compare_eq_iff in Ep. intros _. subst. reflexivity.
Qed.

Lemma carrier_compare_antisym (f g : carrier) :
  carrier_compare g f = CompOpp (carrier_compare f g).
Proof.
  unfold carrier_compare, datetime_compare.
  rewrite (Z.compare_antisym (dt_second (ctimestamp f))),
    (Z.compare_antisym (microsecond (ctimestamp f))),
    (String.compare_antisym (path g)),
    (Z.compare_antisym (atime_ns f)), (Z.compare_antisym (mtime_ns f)).
  destruct (dt_second (ctimestamp f) ?= dt_second (ctimestamp g)); cbn; auto.
  destruct (microsecond (ctimestamp f) ?= microsecond (ctimestamp g)); cbn; auto.
  destruct (String.compare (path f) (path g)); cbn; auto.
  destruct (atime_ns f ?= atime_ns g); cbn; auto.
Qed.

Lemma carrier_leb_trans (f g h : carrier) :
  carrier_leb f g = true -> carrier_leb g h = true -> carrier_leb f h = true.
Proof.
  unfold carrier_leb.
  destruct (carrier_compare_chain f g h) as (H1 & H2 & H3).
  destruct (carrier_compare f g); try discriminate;
    destruct (carrier_compare g h); try discriminate; intros _ _;
    try rewrite (H2 eq_refl); try rewrite (H3 eq_refl);
    try rewrite (H1 eq_refl eq_refl); reflexivity.
Qed.

Lemma carrier_leb_antisym (f g : carrier) :
  carrier_leb f g = true -> carrier_leb g f = true -> f = g.
Proof.
  unfold carrier_leb. rewrite (carrier_compare_antisym f g).
  destruct (carrier_compare f g) eqn:E; cbn; try discriminate.
  intros _ _. apply carrier_compare_eq. exact E.
Qed.

Lemma carrier_leb_ctime (f g : carrier) :
  carrier_leb f g = true -> ctime_le f g.
Proof.
  unfold carrier_leb, carrier_compare, ctime_le.
  destruct (datetime_compare _ _); cbn [lex]; discriminate.
Qed.

(** A list in ascending order of an antisymmetric relation has one
    arrangement only. *)
Lemma ascending_unique {A : Type} (R : A -> A -> Prop)
  (antisym : forall a b, R a b -> R b a -> a = b) (l1 : list A) :
  forall l2 : list A,
    StronglySorted R l1 -> StronglySorted R l2 -> Permutation l1 l2 -> l1 = l2.
Proof.
  induction l1 as [| a l1 IH]; intros l2 S1 S2 P.
  - apply Permutation_nil in P. congruence.
  - destruct l2 as [| b l2];
      [apply Permutation_sym, Permutation_nil in P; discriminate |].
    apply StronglySorted_inv in S1 as [S1 F1].
    apply StronglySorted_inv in S2 as [S2 F2].
    rewrite Forall_forall in F1, F2.
    assert (a = b) as ->.
    { assert (In a (b :: l2)) as [E | I]
        by (eapply Permutation_in; [exact P | left; reflexivity]); [auto |].
      assert (In b (a :: l1)) as [E | I']
        by (eapply Permutation_in;
            [apply Permutation_sym; exact P | left; reflexivity]); [auto |].
      apply antisym; auto. }
    f_equal. apply IH; auto. eapply Permutation_cons_inv. exact P.
Qed.

Lemma get_file_list_ascending (entries : list entry) :
  StronglySorted (fun f g => is_true (carrier_leb f g)) (get_file_list entries).
Proof.
  apply CarrierSort.StronglySorted_sort.
  intros f g h. unfold is_true. apply carrier_leb_trans.
Qed.

Lemma get_file_list_permutation (entries : list entry) :
  Permutation (map listed (filter is_regular entries)) (get_file_list entries).
Proof. apply CarrierSort.Permuted_sort. Qed.

(** X20: the listing does not depend on the order in which [os.listdir]
    returns the entries: the tuples are compared on all their components,
    so that two distinct ones are never equivalent and the sorted list is
    unique; [hide] therefore writes to the same carriers, whatever that
    order. *)
Theorem get_file_list_order_independent (entries1 entries2 : list entry)
  (Hperm : Permutation entries1 entries2) :
  get_file_list entries1 = get_file_list entries2.
Proof.
  apply (ascending_unique (fun f g => is_true (carrier_leb f g)));
    try apply get_file_list_ascending.
  - intros f g. apply carrier_leb_antisym.
  - eapply Permutation_trans;
      [apply Permutation_sym, get_file_list_permutation |].
    eapply Permutation_trans; [| apply get_file_list_permutation].
    apply Permutation_map.
    clear - Hperm. induction Hperm as [| e l1 l2 P IH | e1 e2 l | l1 l2 l3 P1 IH1 P2 IH2];
      cbn [filter].
    + constructor.
    + destruct (is_regular e); [constructor |]; exact IH.
    + destruct (is_regular e1), (is_regular e2);
        try apply Permutation_refl. apply perm_swap.
    + eapply Permutation_trans; eassumption.
Qed.

Lemma get_file_list_order_independent_witness :
  get_file_list
    [mkentry true sample_carrier; mkentry false sample_carrier;
     mkentry true (mkcarrier (mkdatetime 1600000000 5) "storage/b.txt" 1 2)]
  = get_file_list
      [mkentry false sample_carrier;
       mkentry true (mkcarrier (mkdatetime 1600000000 5) "storage/b.txt" 1 2);
       mkentry true sample_carrier].
Proof.
  apply get_file_list_order_independent.
  eapply perm_trans; [apply perm_swap |]. apply perm_skip. apply perm_swap.
Defined.

(** X21: the listing holds the regular files of the directory and nothing
    else (sub-directories are never carriers), each entry once, in
    ascending order of creation time. *)
Theorem get_file_list_regular_files (entries : list entry) :
  (forall f,
     In f (get_file_list entries)
     <-> exists e, In e entries /\ is_regular e = true /\ listed e = f)
  /\ List.length (get_file_list entries)
     = List.length (filter is_regular entries)
  /\ StronglySorted ctime_le (get_file_list entries).
Proof.
  pose proof (get_file_list_permutation entries) as P.
  split; [| split].
  - intros f. split.
    + intros I. apply (Permutation_in _ (Permutation_sym P)) in I.
      apply in_map_iff in I as (e & <- & I). apply filter_In in I as [I R].
      exists e. auto.
    + intros (e & I & R & <-). apply (Permutation_in _ P).
      apply in_map. apply filter_In. auto.
  - rewrite <- (Permutation_length P). apply length_map.
  - pose proof (get_file_list_ascending entries) as S. clear P.
    induction S as [| f l S IH F]; constructor; [exact IH |].
    eapply Forall_impl; [| exact F]. intros g. apply carrier_leb_ctime.
Qed.

(* ================================================================= *)
(** ** The size of the change *)

Lemma int_digits_bound (s : string) :
  forall acc v : Z,
    int_digits s acc = Ok v ->
    acc * 10 ^ Z.of_nat (String.length s) <= v
    < (acc + 1) * 10 ^ Z.of_nat (String.length s).
Proof.
  induction s as [| c s IH]; intros acc v; cbn [int_digits String.length].
  - intros [= <-]. cbn. lia.
  - destruct (digit_value c) as [d |] eqn:E; [| discriminate].
    apply digit_char_value in E as [_ Hd]. intros H. apply IH in H.
    rewrite pow10_S. pose proof (pow10_pos (String.length s)). nia.
Qed.

Lemma int_bound (s : string) (v : Z) :
  int s = Ok v -> 0 <= v < 10 ^ Z.of_nat (String.length s).
Proof.
  unfold int. destruct s as [| c s]; [discriminate |].
  intros H. apply int_digits_bound in H. lia.
Qed.

Lemma length_substring_le (s : string) :
  forall a n : nat, (String.length (substring a n s) <= n)%nat.
Proof.
  induction s as [| c s IH]; intros [| a] [| n]; cbn; try lia.
  - specialize (IH 0%nat n). lia.
  - apply (IH a 0%nat).
  - apply (IH a (S n)).
Qed.

Lemma int_slice_bound (a b : nat) (s : string) (v : Z) :
  int (slice a b s) = Ok v -> 0 <= v < 10 ^ Z.of_nat (b - a).
Proof.
  intros H. apply int_bound in H. split; [lia |].
  eapply Z.lt_le_trans; [apply H |].
  apply Z.pow_le_mono_r; [lia |]. apply Nat2Z.inj_le, length_substring_le.
Qed.

Lemma reset_file_seconds (floor_giga : Z -> Z) (file file' : carrier) :
  reset_file floor_giga file = Ok file' ->
  floor_exact_at floor_giga file -> same_seconds file file'.
Proof.
  unfold reset_file, replace_microsecond, floor_billionths.
  cbn [Z.leb Z.compare andb bind]. intros [= <-] [Ha Hm].
  unfold same_seconds. cbn [atime_ns mtime_ns]. rewrite Ha, Hm.
  split; lia_mod.
Qed.

Lemma write_file_seconds (floor_giga : Z -> Z) (file file' : carrier)
  (c : string) :
  write_file floor_giga file c = Ok file' ->
  floor_exact_at floor_giga file -> same_seconds file file'.
Proof.
  unfold write_file, replace_microsecond, floor_billionths.
  destruct (int (slice 0 3 c)) as [ms |]; cbn [bind]; [| discriminate].
  destruct (int (slice 3 10 c)) as [a |] eqn:Ea; cbn [bind]; [| discriminate].
  destruct (int (slice 10 17 c)) as [m |] eqn:Em; cbn [bind]; [| discriminate].
  destruct (_ && _); cbn [bind]; [| discriminate].
  apply int_slice_bound in Ea, Em.
  change (Z.of_nat (10 - 3)) with 7 in Ea. change (Z.of_nat (17 - 10)) with 7 in Em.
  intros [= <-] [Ha Hm]. unfold same_seconds. cbn [atime_ns mtime_ns].
  rewrite Ha, Hm. split; lia_mod.
Qed.

(** The floor of the program is not exact everywhere: at the sub-second
    part the baseline pass writes, the double quotient is the next whole
    second. *)
Lemma float_floor_giga_rounds_up :
  float_floor_giga 1700000000123456700 = 1700000000
  /\ float_floor_giga 1700000000999999880 = 1700000000
  /\ float_floor_giga 1700000000999999900 = 1700000001.
Proof. vm_compute. repeat split. Qed.

(** X22: for every floor, a successful [hide] keeps the whole seconds of
    the access and modification times of every carrier of the directory,
    written or only reset, provided [math.floor(value / 1000000000)] is
    exact at the times listed (the double quotient was not rounded up to
    the next second); each of these times then changes by less than one
    second. *)
Theorem hide_keeps_seconds (floor_giga : Z -> Z)
  (rs_encode : list byte -> list byte) (files store : list carrier)
  (file_data : list byte) (input_path : string) (offset : nat)
  (Hexact : Forall (floor_exact_at floor_giga) files)
  (Hhide : hide floor_giga rs_encode files file_data input_path offset
           = Ok store) :
  Forall2 same_seconds files store
  /\ Forall2 (fun f g =>
                Z.abs (atime_ns g - atime_ns f) < 1000000000
                /\ Z.abs (mtime_ns g - mtime_ns f) < 1000000000) files store.
Proof.
  assert (Forall2 (fun f g => floor_exact_at floor_giga f -> same_seconds f g)
            files store) as HR.
  { apply (hide_encoded_related floor_giga
             (fun f g => floor_exact_at floor_giga f -> same_seconds f g)
             (reset_file_seconds floor_giga)
             (fun file file' c => write_file_seconds floor_giga file file' c)
             files store _ offset Hhide). }
  assert (Forall2 same_seconds files store) as HF.
  { clear Hhide. induction HR as [| f g fs gs Hfg _ IH]; [constructor |].
    apply Forall_cons_iff in Hexact as [Hf Hfs]. constructor; auto. }
  split; [exact HF |].
  eapply Forall2_impl; [| exact HF].
  intros f g [Ha Hm]. split; lia_mod.
Qed.

Lemma hide_keeps_seconds_witness :
  Forall (floor_exact_at float_floor_giga) (sample_pool 20)
  /\ hide float_floor_giga rs50_encode (sample_pool 20) [x01; x02; x03]
       "dir/x.bin" 2 = Ok sample_store
  /\ Forall2 same_seconds (sample_pool 20) sample_store.
Proof.
  assert (Forall (floor_exact_at float_floor_giga) (sample_pool 20)) as He.
  { apply Forall_forall. intros f Hf. apply repeat_spec in Hf. subst f.
    split; vm_compute; reflexivity. }
  assert (hide float_floor_giga rs50_encode (sample_pool 20) [x01; x02; x03]
            "dir/x.bin" 2 = Ok sample_store) as H by (vm_compute; reflexivity).
  split; [exact He | split; [exact H |]].
  exact (proj1 (hide_keeps_seconds float_floor_giga rs50_encode (sample_pool 20)
                  sample_store [x01; x02; x03] "dir/x.bin" 2 He H)).
Defined.

(* ================================================================= *)
(** ** The capacity in bytes *)

Lemma hide_encoded_room (floor_giga : Z -> Z) (files : list carrier)
  (encoded : list byte) (offset : nat) :
  Z.of_nat (chunk_count encoded) <= 9997 ->
  (offset + (chunk_count encoded + 1) <= List.length files)%nat ->
  exists store, hide_encoded floor_giga files encoded offset = Ok store.
Proof.
  intros Hn Hl. unfold chunk_count in *.
  destruct (data_chunks_spec encoded) as (_ & Hc & _).
  destruct (plan_spec encoded) as [[Hbig _] | (_ & planned & Ep & Hs)];
    [cbn zeta in Hbig; lia |].
  pose proof (plan_shape_length _ _ Hs) as Lp. unfold planned_count in Lp.
  set (chunks := chunk_list (pad_front encoded) STORABLE_BYTES_PER_FILE) in *.
  assert (Z.of_nat (List.length planned) <= Z.of_nat (List.length chunks) + 1)
    as Lp'.
  { destruct (Z.eqb_spec (Z.of_nat (List.length chunks)) 0); [lia |].
    destruct (Z.eqb_spec (Z.of_nat (List.length chunks)) 9998); lia. }
  destruct (hide_encoded_sorted floor_giga files encoded offset planned Ep)
    as (store & Es & _).
  { apply (plan_shape_strings chunks); auto using exact_chunks_le. }
  { lia. }
  exists store. exact Es.
Qed.

(** X23: with [RSCodec(50)] the capacity check of [hide] is a bound on the
    frame (the payload, the ['.'] and the extension): [hide] ends with the
    'Can only store up to 9998 files' error exactly when the frame has more
    than 40180 bytes; a frame of at most 40180 bytes makes at most 9996
    chunks and is hidden as soon as one carrier more than that is left
    from the offset on. *)
Theorem rs50_frame_capacity (floor_giga : Z -> Z) (files : list carrier)
  (file_data : list byte) (input_path : string) (offset : nat) :
  ((exists need,
      hide floor_giga rs50_encode files file_data input_path offset
      = Err (CapacityExceeded 9998 need))
   <-> 40180 < Z.of_nat (List.length (frame file_data input_path)))
  /\ (Z.of_nat (List.length (frame file_data input_path)) <= 40180 ->
      Z.of_nat (chunk_count (rs50_encode (frame file_data input_path))) <= 9996
      /\ ((offset + (chunk_count (rs50_encode (frame file_data input_path)) + 1)
           <= List.length files)%nat ->
          exists store,
            hide floor_giga rs50_encode files file_data input_path offset
            = Ok store)).
Proof.
  pose proof (chunk_count_ceil (rs50_encode (frame file_data input_path)))
    as [H1 H2].
  pose proof (length_rs50_encode (frame file_data input_path)) as HL.
  set (m := Z.of_nat (List.length (frame file_data input_path))) in *.
  set (stream := rs50_encode (frame file_data input_path)) in *.
  assert (m <= 40180 -> Z.of_nat (chunk_count stream) <= 9996) as Hsmall
    by (intros Hm; lia_mod).
  assert (40180 < m -> 9998 < Z.of_nat (chunk_count stream)) as Hlarge
    by (intros Hm; lia_mod).
  split; [split |].
  - intros (need & E). destruct (Z.lt_ge_cases 40180 m) as [| Hm]; [assumption |].
    exfalso. specialize (Hsmall Hm).
    unfold hide in E. fold stream in E. unfold hide_encoded, chunk_count in *.
    destruct (plan_spec stream) as [[Hbig _] | (_ & planned & Ep & _)];
      [cbn zeta in Hbig; lia |].
    rewrite Ep in E. cbn [bind] in E.
    destruct (_ <? _)%nat; [discriminate |].
    destruct (baseline_reads floor_giga files) as (baseline & Eb & _).
    rewrite Eb in E. cbn [bind] in E.
    destruct (write_all floor_giga (skipn offset files) planned) eqn:Ew;
      cbn [bind] in E; [discriminate |].
    injection E as E. apply write_all_error in Ew as [-> | ->]; discriminate.
  - intros Hm. eexists.
    apply (hide_capacity_exceeded floor_giga rs50_encode files file_data
             input_path offset _ eq_refl).
    apply Hlarge. exact Hm.
  - intros Hm. split; [auto |]. intros Hroom.
    specialize (Hsmall Hm). unfold hide. fold stream.
    apply hide_encoded_room; [lia | exact Hroom].
Qed.
